(** * optparse: a shallow embedding of [optparse.hpp] and its properties

    The C++ class [optparse] keeps a registry of declared options
    ([std::map<std::string, parameters> options]) and a value store
    ([std::map<std::string, std::string> values]).  This development
    embeds its methods as functions of a small state-and-exception
    monad, and proves properties of them: of the error policy of [parse],
    of the precedence of the command line over the configuration file, of
    typed retrieval and of the configuration file codec.

    Conventions of the embedding:
    - [size_t] is [N] with its wrap-around modulo [2^64] written out,
      [int] is [Z], a conversion [(int) x] is [to_int];
    - [std::string] is [string]; the [std::string] members used by the
      code ([find], [substr], [compare], ...) are embedded in [StdString];
    - [options] is an association list kept sorted by key, because its
      iteration order is observable ([usage], [dump], the completeness
      check of [parse]); [values] is a [gmap string string], it is only
      ever looked up, inserted into, merged and erased from;
    - exceptions, undefined behaviour and the mutable members are carried
      by the monad [M];
    - where the language leaves the order of two evaluations open
      (the arguments of [std::pair(...)] in [retrieve<T, U>]), the order
      is a parameter of the embedded function. *)

From Stdlib Require Import ZArith NArith Ascii String Lia Bool.
From stdpp Require Import gmap strings list.

Local Open Scope string_scope.

(** ** Machine integers *)

Module Mach.

Definition INT_MAX : Z := 2147483647.

(** [std::string::npos], the largest [size_t]. *)
Definition npos : N := 18446744073709551615.

(** Arithmetic on [size_t] wraps modulo [2^64]. *)
Definition wrap_size (z : Z) : N := Z.to_N (z mod 18446744073709551616).

(** Conversion of a [size_t] to [unsigned] keeps the low 32 bits. *)
Definition to_unsigned (n : N) : N := (n mod 4294967296)%N.

(** Conversion of a [size_t] to [int] keeps the low 32 bits, read as a
    two's complement number. *)
Definition to_int (n : N) : Z :=
  let r := Z.of_N (n mod 4294967296)%N in
  if (r <? 2147483648)%Z then r else (r - 4294967296)%Z.

End Mach.

(** ** The members of [std::string] and of the C library used by the code *)

Module StdString.

Definition nl : string := String "010"%char EmptyString.

Definition size (s : string) : N := N.of_nat (String.length s).

(** [s.find(c, from)], where [i] is the index of the first character of
    the suffix [s] being scanned. *)
Fixpoint find_go (c : ascii) (s : string) (i from : N) : N :=
  match s with
  | EmptyString => Mach.npos
  | String a s' =>
      if ((from <=? i)%N && bool_decide (a = c))%bool then i
      else find_go c s' (i + 1)%N from
  end.

Definition find (c : ascii) (s : string) (from : N) : N := find_go c s 0 from.

Fixpoint drop (n : nat) (s : string) : string :=
  match n, s with
  | S n', String _ s' => drop n' s'
  | _, _ => s
  end.

Fixpoint take (n : nat) (s : string) : string :=
  match n, s with
  | S n', String a s' => String a (take n' s')
  | _, _ => EmptyString
  end.

(** [s.substr(pos, len)]: [None] stands for [std::out_of_range], thrown
    when [pos > s.size()]; the length is clamped to what is left. *)
Definition substr (s : string) (pos len : N) : option string :=
  if (size s <? pos)%N then None
  else Some (take (N.to_nat (N.min len (size s - pos))) (drop (N.to_nat pos) s)).

(** [strspn(s, "-")]: the number of leading dashes. *)
Fixpoint strspn_dash (s : string) : nat :=
  match s with
  | String "-"%char s' => S (strspn_dash s')
  | _ => 0
  end.

(** [isspace] in the C locale. *)
Definition isspace (c : ascii) : bool := Ascii.is_space c.

(** [line.erase(std::remove_if(line.begin(), line.end(), p), line.end())]. *)
Fixpoint remove_if (p : ascii -> bool) (s : string) : string :=
  match s with
  | EmptyString => EmptyString
  | String a s' => if p a then remove_if p s' else String a (remove_if p s')
  end.

(** The lines that successive calls of [std::getline] return on a stream
    holding [s]: the newline ends a line, a last line needs none. *)
Fixpoint getlines (s : string) : list string :=
  match s with
  | EmptyString => []
  | String a s' =>
      if bool_decide (a = "010"%char) then EmptyString :: getlines s'
      else match getlines s' with
           | [] => [String a EmptyString]
           | l :: ls => String a l :: ls
           end
  end.

(** [std::to_string] of a [bool] promoted to [int]. *)
Definition to_string_bool (b : bool) : string := if b then "1" else "0".

(** [std::right << std::setw(w) << s]: pad with spaces on the left. *)
Fixpoint spaces (n : nat) : string :=
  match n with
  | O => EmptyString
  | S n' => String " "%char (spaces n')
  end.

Definition setw_right (w : Z) (s : string) : string :=
  spaces (Z.to_nat (w - Z.of_nat (String.length s))) ++ s.

Fixpoint repeat_string (n : nat) (s : string) : string :=
  match n with
  | O => EmptyString
  | S n' => s ++ repeat_string n' s
  end.

End StdString.

(** ** Exceptions, the machine state and the monad *)

(** The classes of [std::exception] the code throws or lets through; each
    carries the text [what()] returns. *)
Inductive exn : Type :=
  | invalid_argument (msg : string)
  | runtime_error (msg : string)
  | out_of_range (msg : string).

Definition what (e : exn) : string :=
  match e with
  | invalid_argument m | runtime_error m | out_of_range m => m
  end.

(** The struct [parameters]. *)
Record parameters : Type := mk_parameters {
  nargs : N;
  default_value : string;
  description : string;
  user_option : bool
}.

(** A path names a regular file that can be opened, or one that cannot be
    opened at all (for want of permission); a path without entry does not
    exist. *)
Inductive file : Type :=
  | Regular (data : string)
  | Denied.

(** The three data members of the class, followed by what the methods reach
    outside of it: the file system and the streams [std::clog] and
    [std::cerr]. *)
Record state : Type := mk_state {
  program_name : string;
  options : list (string * parameters);
  values : gmap string string;
  disk : gmap string file;
  clog : string;
  cerr : string
}.

Definition set_program_name (n : string) (s : state) : state :=
  mk_state n (options s) (values s) (disk s) (clog s) (cerr s).
Definition set_options (o : list (string * parameters)) (s : state) : state :=
  mk_state (program_name s) o (values s) (disk s) (clog s) (cerr s).
Definition set_values (v : gmap string string) (s : state) : state :=
  mk_state (program_name s) (options s) v (disk s) (clog s) (cerr s).
Definition set_disk (d : gmap string file) (s : state) : state :=
  mk_state (program_name s) (options s) (values s) d (clog s) (cerr s).
Definition write_clog (t : string) (s : state) : state :=
  mk_state (program_name s) (options s) (values s) (disk s) (clog s ++ t) (cerr s).
Definition write_cerr (t : string) (s : state) : state :=
  mk_state (program_name s) (options s) (values s) (disk s) (clog s) (cerr s ++ t).

(** What a call does: it returns, it throws, or its behaviour is not
    defined by the language (signed overflow, a null [argv] entry turned
    into a [std::string], a loop that does not end).  A thrown exception
    leaves the state as it was when thrown: nothing is rolled back. *)
Inductive result (A : Type) : Type :=
  | Ret (a : A) (s : state)
  | Throw (e : exn) (s : state)
  | Undefined.
Arguments Ret {A} a s.
Arguments Throw {A} e s.
Arguments Undefined {A}.

Definition M (A : Type) : Type := state -> result A.

Definition ret {A} (a : A) : M A := fun s => Ret a s.
Definition throw {A} (e : exn) : M A := fun s => Throw e s.
Definition undefined {A} : M A := fun _ => Undefined.
Definition bind {A B} (m : M A) (k : A -> M B) : M B :=
  fun s => match m s with
           | Ret a s' => k a s'
           | Throw e s' => Throw e s'
           | Undefined => Undefined
           end.
Definition gets {A} (f : state -> A) : M A := fun s => Ret (f s) s.
Definition modify (f : state -> state) : M unit := fun s => Ret tt (f s).

(** [try { m } catch (const std::exception& e) { h e }] *)
Definition try_catch {A} (m : M A) (h : exn -> M A) : M A :=
  fun s => match m s with
           | Ret a s' => Ret a s'
           | Throw e s' => h e s'
           | Undefined => Undefined
           end.

Notation "x <- m ; k" := (bind m (fun x => k))
  (at level 20, m at level 100, k at level 200, only parsing).

(** ** The registry: [std::map<std::string, parameters>]

    The map is an association list in increasing key order
    ([std::less<std::string>] compares the bytes as unsigned). *)

Fixpoint options_find (key : string) (m : list (string * parameters)) : option parameters :=
  match m with
  | [] => None
  | (k, p) :: m' => if bool_decide (k = key) then Some p else options_find key m'
  end.

(** Insertion of a key the map does not hold, at its place in the order. *)
Fixpoint options_emplace (key : string) (p : parameters) (m : list (string * parameters))
  : list (string * parameters) :=
  match m with
  | [] => [(key, p)]
  | (k, q) :: m' =>
      if String.ltb key k then (key, p) :: (k, q) :: m'
      else (k, q) :: options_emplace key p m'
  end.

(** [optparse::insert_option_impl_] *)
Definition insert_option_impl_ (name : string) (p : parameters) : M unit :=
  opts <- gets options;
  match options_find name opts with
  | Some _ => throw (invalid_argument ("optparse::insert_option: option already exists: " ++ name))
  | None => modify (set_options (options_emplace name p opts))
  end.

(** [optparse::insert_option]; the defaults of the declaration are
    [nargs = 1], [description = ""] and [default_value = ""]. *)
Definition insert_option (name : string) (n : N) (descr dflt : string) : M unit :=
  insert_option_impl_ name (mk_parameters n dflt descr true).

Inductive action_t : Type := store_true | store_false.

(** [optparse::insert_option_boolean] *)
Definition insert_option_boolean (name : string) (action : action_t) (descr : string) : M unit :=
  insert_option name 0 descr (match action with store_true => "0" | store_false => "1" end).

(** [optparse::optparse]: the two designated initialisers leave
    [default_value] empty.  The constructor runs on an object whose maps and
    name are empty; the streams and the file system are the caller's. *)
Definition blank (d : gmap string file) (log err : string) : state :=
  mk_state EmptyString [] ∅ d log err.

Definition optparse_ctor : M unit :=
  _ <- insert_option_impl_ "help" (mk_parameters 0 EmptyString "Print this message" false);
  insert_option_impl_ "load" (mk_parameters 1 EmptyString "Load settings from configuration file" false).

(** ** [optparse::usage] *)

Import StdString.

(** One line of the listing.  [18 - 6 * nargs] is computed on [size_t] and
    narrowed to the [int] that [std::setw] takes. *)
Definition usage_line (key : string) (p : parameters) : string :=
  setw_right 16 ("--" ++ key)
  ++ repeat_string (Z.to_nat (Mach.to_int (nargs p))) " <arg>"
  ++ setw_right (Mach.to_int (Mach.wrap_size (18 - 6 * Z.of_N (nargs p)))) " "
  ++ (if (String.length (description p) =? 0)%nat
      then "*** description unavailable ***" else description p)
  ++ nl.

(** The inner loop for one value of the counter [user_option]. *)
Fixpoint usage_pass (user : bool) (opts : list (string * parameters)) : string :=
  match opts with
  | [] => EmptyString
  | (key, p) :: opts' =>
      if xorb (user_option p) user then usage_pass user opts'
      else usage_line key p ++ usage_pass user opts'
  end.

Definition usage_text (name : string) (opts : list (string * parameters)) : string :=
  "Usage: " ++ name ++ " [OPTIONS]" ++ nl ++ nl ++ "Where OPTIONS are:" ++ nl
  ++ usage_pass false opts ++ usage_pass true opts ++ nl.

Definition fatal_text (error_message : string) : string :=
  "terminate called after throwing an exception" ++ nl
  ++ "  what: " ++ error_message ++ nl.

Definition usage (error_message : string) : M Z :=
  name <- gets program_name;
  opts <- gets options;
  _ <- modify (write_clog (usage_text name opts));
  if (0 <? String.length error_message)%nat
  then _ <- modify (write_cerr (fatal_text error_message)); ret (-1)%Z
  else ret 1%Z.

(** ** [optparse::load] *)

Definition open_read (d : gmap string file) (pathname : string) : option string :=
  match d !! pathname with
  | Some (Regular data) => Some data
  | _ => None
  end.

Definition substr_or_throw (s : string) (pos len : N) : M string :=
  match substr s pos len with
  | Some r => ret r
  | None => throw (out_of_range "basic_string::substr")
  end.

(** The body of the [getline] loop; [acc] is the local map [values]. *)
Definition load_line (raw : string) (acc : gmap string string) : M (gmap string string) :=
  let line := remove_if isspace raw in
  match line with
  | EmptyString => ret acc
  | String c _ =>
      if bool_decide (c = "#"%char) then ret acc
      else
        let delimiterPos := find ":"%char line 0 in
        key <- substr_or_throw line 0 delimiterPos;
        value <- substr_or_throw line (Mach.wrap_size (Z.of_N delimiterPos + 1)) Mach.npos;
        opts <- gets options;
        match options_find key opts with
        | None =>
            throw (runtime_error
              ("optparse::parse: read an unexpected option from the configuration file: " ++ key))
        | Some _ =>
            match acc !! key with
            | Some _ =>
                throw (runtime_error
                  ("optparse::parse: duplicate option found in the configuration file: " ++ key))
            | None => ret (<[key := value]> acc)
            end
        end
  end.

Fixpoint load_lines (ls : list string) (acc : gmap string string) : M (gmap string string) :=
  match ls with
  | [] => ret acc
  | l :: ls' => acc' <- load_line l acc; load_lines ls' acc'
  end.

Definition open_failed (pathname : string) : exn :=
  runtime_error ("optparse::parse: opening file '" ++ pathname
                 ++ "' failed, it either doesn't exist or is not accessible.").

Definition load (pathname : string) : M (gmap string string) :=
  d <- gets disk;
  match open_read d pathname with
  | None => throw (open_failed pathname)
  | Some data => load_lines (getlines data) ∅
  end.

(** ** [optparse::parse] *)

(** [value = argv[++i]; for (j = 1; j < nargs; ++j) value += ", " + argv[++i];] *)
Definition join_values (first : string) (more : list string) : string :=
  fold_left (fun value v => value ++ ", " ++ v) more first.

(** The value stored for an option and the number of [argv] entries read
    for it.  [rest] holds the entries after the current one, so that
    [argc - i] is [S (length rest)]. *)
Definition read_value (p : parameters) (rest : list string) : M (string * nat) :=
  if (nargs p =? 0)%N
  then ret (to_string_bool (bool_decide (default_value p = "0")), 0%nat)
  else if (Mach.to_int (nargs p) =? Mach.INT_MAX)%Z
  then undefined
  else if (Z.of_nat (S (length rest)) <? Mach.to_int (nargs p) + 1)%Z
  then throw (runtime_error "optparse::parse: insufficient number of argument values")
  else
    let cnt := Z.to_nat (Z.max 1 (Mach.to_int (nargs p))) in
    match firstn cnt rest with
    | [] => undefined
    | v :: vs => ret (join_values v vs, cnt)
    end.

(** The [for] loop over [argv]: [toks] are the entries from [argv[i]] on,
    [skip] of them were already read as values by the iteration before. *)
Fixpoint parse_args (toks : list string) (skip : nat) : M Z :=
  match toks with
  | [] => ret 0%Z
  | tok :: rest =>
      match skip with
      | S skip' => parse_args rest skip'
      | O =>
          let idx := strspn_dash tok in
          let key := drop idx tok in
          if (idx =? 0)%nat
          then throw (invalid_argument
            "optparse::parse: argument options must start with a single/double dash")
          else if bool_decide (key = "help") then usage EmptyString
          else
            opts <- gets options;
            match options_find key opts with
            | None => throw (invalid_argument ("optparse::parse: unknow argument: " ++ key))
            | Some p =>
                r <- read_value p rest;
                vals <- gets values;
                match vals !! key with
                | Some _ =>
                    throw (runtime_error
                      ("optparse::parse: duplicate option passed by command line: " ++ key))
                | None =>
                    _ <- modify (set_values (<[key := r.1]> vals));
                    parse_args rest r.2
                end
            end
      end
  end.

(** The completeness check that ends [parse]. *)
Fixpoint check_required (opts : list (string * parameters)) : M unit :=
  match opts with
  | [] => ret tt
  | (name, p) :: opts' =>
      if (bool_decide (name = "load") || bool_decide (name = "help"))%bool
      then check_required opts'
      else
        vals <- gets values;
        match vals !! name with
        | None =>
            if (String.length (default_value p) =? 0)%nat
            then throw (invalid_argument ("optparse::parse: missing argument(s), e.g., " ++ name))
            else check_required opts'
        | Some _ => check_required opts'
        end
  end.

(** [values.merge(load(path)); values.erase("load");] *)
Definition merge_config (pathname : string) : M unit :=
  loaded <- load pathname;
  _ <- modify (fun s => set_values (values s ∪ loaded) s);
  modify (fun s => set_values (delete "load" (values s)) s).

(** The [try] block. *)
Definition parse_try (args : list string) : M Z :=
  ierr <- parse_args args 0;
  if (ierr =? 0)%Z
  then
    vals <- gets values;
    _ <- match vals !! "load" with
         | Some pathname => merge_config pathname
         | None => ret tt
         end;
    opts <- gets options;
    _ <- check_required opts;
    ret ierr
  else ret ierr.

(** [parse(argc, argv)] with [argv = argv0 :: args], hence [argc >= 1]. *)
Definition parse (argv0 : string) (args : list string) : M Z :=
  _ <- modify (set_program_name argv0);
  try_catch (parse_try args) (fun e => usage (what e)).

(** ** [optparse::retrieve] *)

(** The lambda [split].  [start] is an [unsigned], [end] a [size_t] and [i]
    an [int]; the loop is given as much fuel as the string has characters
    plus one, which is enough whenever [start] does not wrap. *)
Fixpoint split_loop (fuel : nat) (s : string) (pos i : Z) (start end_ : N) : M string :=
  match fuel with
  | O => undefined
  | S fuel' =>
      if (end_ =? Mach.npos)%N then substr_or_throw s start end_
      else if (i =? pos)%Z
      then substr_or_throw s start (Mach.wrap_size (Z.of_N end_ - Z.of_N start))
      else if (i =? Mach.INT_MAX)%Z then undefined
      else
        let start' := Mach.to_unsigned (Mach.wrap_size (Z.of_N end_ + 1)) in
        split_loop fuel' s pos (i + 1)%Z start' (find ","%char s start')
  end.

Definition split (s : string) (pos : Z) : M string :=
  split_loop (S (String.length s)) s pos 0 0 (find ","%char s 0).

(** [std::stringstream(argument) >> value] for a target type [T]:
    [extract] gives the value read, or [None] when the stream ends up with
    its fail bit set; [type_name] is [typeid(T).name()]. *)
Class Extractable (T : Type) : Type := {
  extract : string -> option T;
  type_name : string
}.

Module Stream.

(** The sentry of a formatted input function skips leading white space. *)
Fixpoint skipws (s : string) : string :=
  match s with
  | EmptyString => EmptyString
  | String c s' => if isspace c then skipws s' else s
  end.

Definition digit_value (c : ascii) : option Z :=
  let n := Z.of_N (N_of_ascii c) in
  if ((48 <=? n) && (n <=? 57))%Z then Some (n - 48)%Z else None.

(** The value of the longest run of decimal digits that starts [s]. *)
Fixpoint read_digits (s : string) (acc : Z) : Z :=
  match s with
  | EmptyString => acc
  | String c s' =>
      match digit_value c with
      | Some d => read_digits s' (10 * acc + d)%Z
      | None => acc
      end
  end.

Definition starts_with_digit (s : string) : bool :=
  match s with
  | EmptyString => false
  | String c _ => bool_decide (is_Some (digit_value c))
  end.

(** [num_get] for a signed integer type with range [lo..hi], in base ten:
    an optional sign, then digits up to the first character that is none.
    No digit, or a value out of range, sets the fail bit; what follows the
    digits stays in the stream and is not looked at. *)
Definition read_sign (s : string) : bool * string :=
  match s with
  | EmptyString => (false, s)
  | String c r =>
      if bool_decide (c = "-"%char) then (true, r)
      else if bool_decide (c = "+"%char) then (false, r)
      else (false, s)
  end.

Definition extract_integer (lo hi : Z) (s : string) : option Z :=
  let '(neg, s2) := read_sign (skipws s) in
  if starts_with_digit s2
  then
    let v := if neg : bool then (- read_digits s2 0)%Z else read_digits s2 0 in
    if ((lo <=? v) && (v <=? hi))%Z then Some v else None
  else None.

Definition extract_int : string -> option Z :=
  extract_integer (-2147483648) 2147483647.

Definition extract_long : string -> option Z :=
  extract_integer (-9223372036854775808) 9223372036854775807.

(** Without [boolalpha] a [bool] is read as a [long] that must be 0 or 1. *)
Definition extract_bool (s : string) : option bool :=
  match extract_long s with
  | Some 0%Z => Some false
  | Some 1%Z => Some true
  | _ => None
  end.

Fixpoint take_word (s : string) : string :=
  match s with
  | EmptyString => EmptyString
  | String c s' => if isspace c then EmptyString else String c (take_word s')
  end.

(** A [std::string] receives the characters up to the next white space;
    reading none sets the fail bit. *)
Definition extract_string (s : string) : option string :=
  match take_word (skipws s) with
  | EmptyString => None
  | w => Some w
  end.

End Stream.

(** The target types used below: [int] (carried by [Z]), [bool] and
    [std::string], with the names GCC gives them. *)
Definition cpp_int : Type := Z.

#[global] Instance Extractable_int : Extractable cpp_int :=
  {| extract := Stream.extract_int; type_name := "i" |}.
#[global] Instance Extractable_bool : Extractable bool :=
  {| extract := Stream.extract_bool; type_name := "b" |}.
#[global] Instance Extractable_string : Extractable string :=
  {| extract := Stream.extract_string;
     type_name := "NSt7__cxx1112basic_stringIcSt11char_traitsIcESaIcEEE" |}.

Definition conversion_error (T : Type) `{Extractable T} (argument : string) : exn :=
  runtime_error ("Invalid conversion of the argument '" ++ argument
                 ++ "' to type " ++ type_name (T := T)).

Definition no_argument (name : string) : exn :=
  invalid_argument ("optparse::retrieve no argument has been passed to option: " ++ name).

(** [if (!(std::stringstream(argument) >> value)) throw ...; return value;] *)
Definition convert (T : Type) `{Extractable T} (argument : string) : M T :=
  match extract argument with
  | Some v => ret v
  | None => throw (conversion_error T argument)
  end.

(** [retrieve<T, n>(name)]; [split] takes [n] as an [int]. *)
Definition retrieve (T : Type) `{Extractable T} (n : N) (name : string) : M T :=
  vals <- gets values;
  match vals !! name with
  | Some raw =>
      argument <- split raw (Mach.to_int n);
      convert T argument
  | None =>
      opts <- gets options;
      match options_find name opts with
      | Some p =>
          if (0 <? String.length (default_value p))%nat
          then
            argument <- (if (nargs p =? 0)%N
                         then ret (to_string_bool (negb (bool_decide (default_value p = "0"))))
                         else split (default_value p) (Mach.to_int n));
            convert T argument
          else throw (no_argument name)
      | None => throw (no_argument name)
      end
  end.

(** The order in which the two arguments of a call are evaluated: the
    language leaves it to the compiler. *)
Inductive eval_order : Type := first_then_second | second_then_first.

(** [retrieve<T, U>(name)]: the two calls of [retrieve] are the arguments
    of [std::pair(...)], evaluated one after the other in either order. *)
Definition retrieve_pair (order : eval_order) (T U : Type) `{Extractable T} `{Extractable U}
    (name : string) : M (T * U) :=
  match order with
  | first_then_second =>
      a <- retrieve T 0 name;
      b <- retrieve U 1 name;
      ret (a, b)
  | second_then_first =>
      b <- retrieve U 1 name;
      a <- retrieve T 0 name;
      ret (a, b)
  end.

(** ** [optparse::dump] *)

(** Opening with [std::ios::app] creates the file when there is none. *)
Definition open_append (d : gmap string file) (pathname : string) : option string :=
  match d !! pathname with
  | None => Some EmptyString
  | Some (Regular data) => Some data
  | Some Denied => None
  end.

(** The comment that starts a dump.  [stamp] is the text [strftime] wrote
    for the current time, or [None] when it returned 0. *)
Definition dump_header (stamp : option string) : string :=
  match stamp with
  | Some t => nl ++ "# Created automaticaly by optparse on " ++ t ++ nl ++ nl
  | None => nl ++ "# Created automaticaly by optparse" ++ nl ++ nl
  end.

(** The loop over [options]. *)
Fixpoint dump_options (opts : list (string * parameters)) (vals : gmap string string) : string :=
  match opts with
  | [] => EmptyString
  | (key, p) :: opts' =>
      match vals !! key with
      | Some v => key ++ ": " ++ v ++ nl
      | None => if user_option p then key ++ ": " ++ default_value p ++ nl else EmptyString
      end ++ dump_options opts' vals
  end.

Definition dump (stamp : option string) (pathname : string) : M unit :=
  d <- gets disk;
  match open_append d pathname with
  | None => throw (open_failed pathname)
  | Some old =>
      opts <- gets options;
      vals <- gets values;
      modify (set_disk
        (<[pathname := Regular (old ++ dump_header stamp ++ dump_options opts vals ++ nl)]> d))
  end.

(** * The vocabulary of the properties *)

(** [post m s Q E]: started in [s], if [m] returns then [Q] holds of the
    value and the state it returns, and if it throws then [E] holds of the
    exception and of the state at the throw. *)
Definition post {A} (m : M A) (s : state)
    (Q : A -> state -> Prop) (E : exn -> state -> Prop) : Prop :=
  match m s with
  | Ret a s' => Q a s'
  | Throw e s' => E e s'
  | Undefined => True
  end.

(** [m] relates the state it starts in to the state it ends in, whether it
    returns or throws. *)
Definition respects (R : state -> state -> Prop) {A} (m : M A) : Prop :=
  forall s, post m s (fun _ s' => R s s') (fun _ s' => R s s').

(** The text [what()] returns is not empty. *)
Definition has_message (e : exn) : Prop := (0 <? String.length (what e))%nat = true.

(** [loud m]: whatever [m] throws has a message that is not empty. *)
Definition loud {A} (m : M A) : Prop :=
  forall s, post m s (fun _ _ => True) (fun e _ => has_message e).

(** What [usage] leaves behind when it is given a message. *)
Definition reported (msg : string) (s : state) : state :=
  write_cerr (fatal_text msg) (write_clog (usage_text (program_name s) (options s)) s).

(** The two entries the constructor makes. *)
Definition help_parameters : parameters :=
  mk_parameters 0 EmptyString "Print this message" false.
Definition load_parameters : parameters :=
  mk_parameters 1 EmptyString "Load settings from configuration file" false.

(** The registries a host can build: the constructor, then calls of
    [insert_option] that return ([insert_option_boolean] is one of them; a
    call that throws leaves the registry as it was). *)
Inductive registry : list (string * parameters) -> Prop :=
  | registry_ctor d log err s opts :
      optparse_ctor (blank d log err) = Ret tt s ->
      opts = options s ->
      registry opts
  | registry_insert s name n descr dflt s' opts :
      registry (options s) ->
      insert_option name n descr dflt s = Ret tt s' ->
      opts = options s' ->
      registry opts.

(** The registry and the file system stay as they are and the value
    store only gains entries: what the token loop does to the state. *)
Definition grows (s s' : state) : Prop :=
  options s' = options s /\ disk s' = disk s /\ values s ⊆ values s'.

(** As [grows], but the entry of [load] may go. *)
Definition keeps (s s' : state) : Prop :=
  options s' = options s /\ disk s' = disk s /\
  forall k v, k <> "load" -> values s !! k = Some v -> values s' !! k = Some v.

(** The value store after [merge] and [erase]. *)
Definition merged (s : state) (loaded : gmap string string) : state :=
  set_values (delete "load" (values s ∪ loaded)) s.

(** What the configuration step does between the token loop and the
    completeness check. *)
Definition config_step (s1 s' : state) : Prop :=
  match values s1 !! "load" with
  | None => s' = s1
  | Some pathname => exists loaded, load pathname s1 = Ret loaded s1 /\ s' = merged s1 loaded
  end.

(** The state a call leaves behind, whether it returns or throws. *)
Definition exec {A} (m : M A) (s : state) : state :=
  match m s with
  | Ret _ s' | Throw _ s' => s'
  | Undefined => s
  end.

(** A file system with three configuration files, for the examples. *)
Definition demo_disk : gmap string file :=
  {[ "cfg" := Regular ("count: 3" ++ nl ++ "verbose: 1" ++ nl);
     "flags" := Regular ("# switches" ++ nl ++ " verbose " ++ nl);
     "bad" := Regular ("count: 2" ++ nl ++ "bogus" ++ nl) ]}.

(** The time stamp of the examples: what [strftime] gives for [%c]. *)
Definition demo_stamp : option string := Some "Sun Oct 17 04:41:13 2010".

(** A host that declares [count] (one value, default 1), [range] (two
    values, no default) and the flag [verbose]. *)
Definition demo : state :=
  exec (_ <- optparse_ctor;
        _ <- insert_option "count" 1 "How many" "1";
        _ <- insert_option "range" 2 "Lower and upper bound" EmptyString;
        insert_option_boolean "verbose" store_true EmptyString)
       (blank demo_disk EmptyString EmptyString).

(** The option name a token stands for: the token without its dashes. *)
Definition key_of (tok : string) : string := drop (strspn_dash tok) tok.

(** What [std::to_string(default_value.compare("0") == 0)] stores for a
    flag met on the command line. *)
Definition toggled (p : parameters) : string :=
  to_string_bool (bool_decide (default_value p = "0")).

(** Every entry of [s'] was in [s] already or was made for a token of
    [toks] naming a registered option; for a flag it is the toggled default. *)
Definition set_by_tokens (toks : list string) (s s' : state) : Prop :=
  forall k v, values s' !! k = Some v ->
    values s !! k = Some v \/
    exists tok p, tok ∈ toks /\ key_of tok = k /\ options_find k (options s) = Some p /\
                  (nargs p = 0%N -> v = toggled p).

(** The index of the first [c] in [s]. *)
Fixpoint first_index (c : ascii) (s : string) : option nat :=
  match s with
  | EmptyString => None
  | String a s' => if bool_decide (a = c) then Some 0%nat else S <$> first_index c s'
  end.

(** The comma-separated fields of [s], of which there is always one. *)
Fixpoint fields (s : string) : list string :=
  match s with
  | EmptyString => [EmptyString]
  | String a s' =>
      if bool_decide (a = ","%char) then EmptyString :: fields s'
      else match fields s' with
           | f :: fs => String a f :: fs
           | [] => [String a EmptyString]
           end
  end.

(** The field [split] selects for the index [k]: the one at [k] when it is
    there and is not the last, the last one otherwise. *)
Definition pick (fs : list string) (k : Z) : string :=
  if ((0 <=? k) && (k <? Z.of_nat (length fs) - 1))%Z
  then nth (Z.to_nat k) fs EmptyString
  else List.last fs EmptyString.

(** The string [retrieve<T, n>(name)] hands to the conversion, if any. *)
Definition field_read (s : state) (n : N) (name : string) : option string :=
  match values s !! name with
  | Some raw => Some (pick (fields raw) (Mach.to_int n))
  | None =>
      match options_find name (options s) with
      | Some p =>
          if (0 <? String.length (default_value p))%nat
          then Some (if (nargs p =? 0)%N
                     then to_string_bool (negb (bool_decide (default_value p = "0")))
                     else pick (fields (default_value p)) (Mach.to_int n))
          else None
      | None => None
      end
  end.

(** The stored value and the default of [name] are shorter than [2^31]. *)
Definition short_value (s : state) (name : string) : Prop :=
  (forall raw, values s !! name = Some raw -> (Z.of_nat (String.length raw) < 2147483648)%Z) /\
  (forall p, options_find name (options s) = Some p ->
             (Z.of_nat (String.length (default_value p)) < 2147483648)%Z).

(** The exception [retrieve] throws when the conversion fails. *)
Definition is_conversion_error (e : exn) : Prop :=
  exists argument type, e = runtime_error
    ("Invalid conversion of the argument '" ++ argument ++ "' to type " ++ type).

(** The entry [insert_option_boolean] makes. *)
Definition flag_parameters (action : action_t) (descr : string) : parameters :=
  mk_parameters 0 (match action with store_true => "0" | store_false => "1" end) descr true.


(** Every character of [s] satisfies [P]. *)
Fixpoint all_chars (P : ascii -> bool) (s : string) : bool :=
  match s with
  | EmptyString => true
  | String c s' => P c && all_chars P s'
  end.

(** [c] is a decimal digit. *)
Definition is_digit (c : ascii) : bool := bool_decide (is_Some (Stream.digit_value c)).

(** [s] reads as the integer [v] of the range [lo..hi]: white space, an
    optional sign, a run of decimal digits that ends where [rest] begins,
    and whatever [rest] is. *)
Definition reads_integer (lo hi : Z) (s : string) (v : Z) : Prop :=
  exists ws sign ds rest,
    s = ws ++ sign ++ ds ++ rest /\
    all_chars isspace ws = true /\
    (sign = EmptyString \/ sign = "+" \/ sign = "-") /\
    ds <> EmptyString /\ all_chars is_digit ds = true /\
    Stream.starts_with_digit rest = false /\
    v = (if bool_decide (sign = "-") then - Stream.read_digits ds 0 else Stream.read_digits ds 0)%Z /\
    (lo <= v <= hi)%Z.

(** The same for the range of [int]. *)
Definition reads_int : string -> Z -> Prop := reads_integer (-2147483648) 2147483647.

(** The longest run of digits that starts [s], and what follows it. *)
Fixpoint take_digits (s : string) : string :=
  match s with
  | EmptyString => EmptyString
  | String c s' => if is_digit c then String c (take_digits s') else EmptyString
  end.

Fixpoint drop_digits (s : string) : string :=
  match s with
  | EmptyString => EmptyString
  | String c s' => if is_digit c then drop_digits s' else s
  end.

(** The strings of [ls], one after the other. *)
Fixpoint concat_strings (ls : list string) : string :=
  match ls with
  | [] => EmptyString
  | l :: ls' => l ++ concat_strings ls'
  end.

(** The line written for one option, if any. *)
Definition dump_line (vals : gmap string string) (kp : string * parameters) : option string :=
  match vals !! kp.1 with
  | Some v => Some (kp.1 ++ ": " ++ v ++ nl)
  | None => if user_option kp.2 then Some (kp.1 ++ ": " ++ default_value kp.2 ++ nl) else None
  end.

(** A line that is neither blank nor a comment once its white space is
    removed, and holds no colon. *)
Definition colon_free (raw : string) : Prop :=
  remove_if isspace raw <> EmptyString /\
  (forall t, remove_if isspace raw <> String "#"%char t) /\
  first_index ":"%char (remove_if isspace raw) = None /\
  (size (remove_if isspace raw) <= Mach.npos)%N.

(** The two exceptions of [load] about a key. *)
Definition unexpected_option (key : string) : exn :=
  runtime_error ("optparse::parse: read an unexpected option from the configuration file: " ++ key).

Definition duplicate_in_file (key : string) : exn :=
  runtime_error ("optparse::parse: duplicate option found in the configuration file: " ++ key).

(** A line of the file that [load] passes over. *)
Definition skipped (raw : string) : Prop :=
  remove_if isspace raw = EmptyString \/ exists t, remove_if isspace raw = String "#"%char t.

(** An option name that survives the trip through the file: no white
    space, no colon, no [#] in front. *)
Definition plain_name (k : string) : Prop :=
  all_chars (fun c => negb (isspace c)) k = true /\
  first_index ":"%char k = None /\
  forall t, k <> String "#"%char t.

(** The part of [load_line] that handles a line of data. *)
Definition load_data (line : string) (acc : gmap string string) : M (gmap string string) :=
  let delimiterPos := find ":"%char line 0 in
  key <- substr_or_throw line 0 delimiterPos;
  value <- substr_or_throw line (Mach.wrap_size (Z.of_N delimiterPos + 1)) Mach.npos;
  opts <- gets options;
  match options_find key opts with
  | None => throw (unexpected_option key)
  | Some _ =>
      match acc !! key with
      | Some _ => throw (duplicate_in_file key)
      | None => ret (<[key := value]> acc)
      end
  end.

(** The text [dump] writes after the name of an option, if it writes a
    line for it. *)
Definition dump_value (vals : gmap string string) (k : string) (p : parameters) : option string :=
  match vals !! k with
  | Some v => Some v
  | None => if user_option p then Some (default_value p) else None
  end.

(** A name and a text that can make the trip: the name is plain, the text
    holds no newline, and the line is shorter than [npos]. *)
Definition round_trips (k v : string) : Prop :=
  plain_name k /\ first_index "010"%char v = None /\ (size (k ++ ": " ++ v) < Mach.npos)%N.

(** The mapping [load] builds from the lines of [opts], starting from [acc]. *)
Fixpoint loaded_from (opts : list (string * parameters)) (vals acc : gmap string string)
  : gmap string string :=
  match opts with
  | [] => acc
  | (k, p) :: opts' =>
      loaded_from opts' vals
        match dump_value vals k p with
        | Some v => <[k := remove_if isspace v]> acc
        | None => acc
        end
  end.

(** A registry with the single option [count], of arity 1 and without
    default, on an empty file system; the runs below store 5 for it and
    dump to the same path twice. *)
Definition solo : state :=
  exec (_ <- optparse_ctor; insert_option "count" 1 "How many" EmptyString)
       (blank ∅ EmptyString EmptyString).

(** [solo] after [--count 5], and after a dump of that to [out]. *)
Definition solo_parsed : state := exec (parse "prog" ["--count"; "5"]) solo.

Definition solo_dumped : state := exec (dump demo_stamp "out") solo_parsed.

(** Every arity of the registry fits in an [int] with room for the [+ 1]
    of the bounds check. *)
Definition sane_arities (opts : list (string * parameters)) : Prop :=
  forall k p, options_find k opts = Some p -> (nargs p < 2147483647)%N.

(** The exception of [insert_option_impl_]. *)
Definition already_exists (name : string) : exn :=
  invalid_argument ("optparse::insert_option: option already exists: " ++ name).

(** The keys increase strictly from each one to the next. *)
Fixpoint increasing (ks : list string) : Prop :=
  match ks with
  | [] => True
  | a :: ks' =>
      match ks' with
      | [] => True
      | b :: _ => String.ltb a b = true /\ increasing ks'
      end
  end.

(** The streams, the name and the registry are as before. *)
Definition silent (s s' : state) : Prop :=
  clog s' = clog s /\ cerr s' = cerr s /\
  program_name s' = program_name s /\ options s' = options s.

(** The listing was written to [std::clog] and nothing else was printed. *)
Definition listed (s s' : state) : Prop :=
  clog s' = clog s ++ usage_text (program_name s) (options s) /\ cerr s' = cerr s.

(** [name] behind [n] dashes. *)
Fixpoint dashed (n : nat) (name : string) : string :=
  match n with
  | O => name
  | S n' => String "-"%char (dashed n' name)
  end.

(** The exception of the check that ends [parse]. *)
Definition missing_argument (name : string) : exn :=
  invalid_argument ("optparse::parse: missing argument(s), e.g., " ++ name).

(** [name], with the entry [p], is an option that [parse] insists on and
    that has neither a value in the store nor a default. *)
Definition lacking (s : state) (name : string) (p : parameters) : Prop :=
  name <> "load" /\ name <> "help" /\
  values s !! name = None /\ default_value p = EmptyString.

(** Every name with a value in the store is a registered option. *)
Definition store_registered (s : state) : Prop :=
  forall k, is_Some (values s !! k) -> is_Some (options_find k (options s)).

(** What [usage] prints for the description. *)
Definition shown_description (p : parameters) : string :=
  if (String.length (description p) =? 0)%nat
  then "*** description unavailable ***" else description p.

(** A value that holds no comma. *)
Definition comma_free (v : string) : Prop := first_index ","%char v = None.

(** The tokens of [toks] the loop of [parse] reads as option names: behind
    each of them it passes over as many tokens as the option has values.
    [skip] tokens are still to be passed over. *)
Fixpoint option_tokens (opts : list (string * parameters)) (toks : list string) (skip : nat)
  : list string :=
  match toks with
  | [] => []
  | tok :: rest =>
      match skip with
      | S skip' => option_tokens opts rest skip'
      | O =>
          tok :: option_tokens opts rest
                   (match options_find (key_of tok) opts with
                    | Some p => N.to_nat (nargs p)
                    | None => 0%nat
                    end)
      end
  end.

(** * Properties *)

(** ** Reasoning about the monad *)

Lemma post_ret {A} (a : A) s (Q : A -> state -> Prop) E : Q a s -> post (ret a) s Q E.
Proof. intros H. exact H. Qed.

Lemma post_throw {A} e s (Q : A -> state -> Prop) (E : exn -> state -> Prop) :
  E e s -> post (throw e) s Q E.
Proof. intros H. exact H. Qed.

Lemma post_undefined {A} s (Q : A -> state -> Prop) E : post undefined s Q E.
Proof. exact I. Qed.

Lemma post_gets {A} (f : state -> A) s (Q : A -> state -> Prop) E :
  Q (f s) s -> post (gets f) s Q E.
Proof. intros H. exact H. Qed.

Lemma post_modify f s (Q : unit -> state -> Prop) E : Q tt (f s) -> post (modify f) s Q E.
Proof. intros H. exact H. Qed.

Lemma post_bind {A B} (m : M A) (k : A -> M B) s (Q : B -> state -> Prop) E :
  post m s (fun a s' => post (k a) s' Q E) E -> post (bind m k) s Q E.
Proof. unfold post, bind. destruct (m s); auto. Qed.

Lemma post_weaken {A} (m : M A) s (Q Q' : A -> state -> Prop) (E E' : exn -> state -> Prop) :
  post m s Q E -> (forall a s', Q a s' -> Q' a s') -> (forall e s', E e s' -> E' e s') ->
  post m s Q' E'.
Proof. unfold post. destruct (m s); auto. Qed.

Lemma post_Ret {A} (m : M A) s Q E a s' : post m s Q E -> m s = Ret a s' -> Q a s'.
Proof. unfold post. intros H Hm. rewrite Hm in H. exact H. Qed.

Lemma post_Throw {A} (m : M A) s (Q : A -> state -> Prop) E e s' :
  post m s Q E -> m s = Throw e s' -> E e s'.
Proof. unfold post. intros H Hm. rewrite Hm in H. exact H. Qed.

Section Respects.
Context (R : state -> state -> Prop) `{!PreOrder R}.

Lemma respects_ret {A} (a : A) : respects R (ret a).
Proof. intros s. apply post_ret. reflexivity. Qed.

Lemma respects_throw {A} e : respects R (throw (A := A) e).
Proof. intros s. apply post_throw. reflexivity. Qed.

Lemma respects_undefined {A} : respects R (undefined (A := A)).
Proof. intros s. exact I. Qed.

Lemma respects_gets {A} (f : state -> A) : respects R (gets f).
Proof. intros s. apply post_gets. reflexivity. Qed.

Lemma respects_modify f : (forall s, R s (f s)) -> respects R (modify f).
Proof. intros H s. apply post_modify, H. Qed.

Lemma respects_bind {A B} (m : M A) (k : A -> M B) :
  respects R m -> (forall a, respects R (k a)) -> respects R (bind m k).
Proof.
  intros Hm Hk s. apply post_bind. eapply post_weaken; [apply Hm | | ].
  - intros a s1 H1.
    eapply post_weaken; [apply Hk | intros b s2 H2 | intros e s2 H2]; simpl in *;
      (etrans; [exact H1 | exact H2]).
  - auto.
Qed.

Lemma respects_try_catch {A} (m : M A) (h : exn -> M A) :
  respects R m -> (forall e, respects R (h e)) -> respects R (try_catch m h).
Proof.
  intros Hm Hh s. specialize (Hm s). unfold post, try_catch in *.
  destruct (m s) as [a s1|e s1|]; auto.
  specialize (Hh e s1). unfold post in Hh.
  destruct (h e s1); auto; etrans; eauto.
Qed.

End Respects.

Lemma respects_Ret R {A} (m : M A) s a s' : respects R m -> m s = Ret a s' -> R s s'.
Proof. intros H Hm. exact (post_Ret _ _ _ _ _ _ (H s) Hm). Qed.

Lemma respects_Throw R {A} (m : M A) s e s' : respects R m -> m s = Throw e s' -> R s s'.
Proof. intros H Hm. exact (post_Throw _ _ _ _ _ _ (H s) Hm). Qed.

Ltac post_step :=
  lazymatch goal with
  | |- post (bind _ _) _ _ _ => apply post_bind
  | |- post (gets _) _ _ _ => apply post_gets
  | |- post (modify _) _ _ _ => apply post_modify
  | |- post (ret _) _ _ _ => apply post_ret
  | |- post undefined _ _ _ => apply post_undefined
  end.

Ltac post_go := repeat (post_step; cbv beta).

(** ** Facts about strings *)

Lemma app_cons (c : ascii) (s t : string) : String c s ++ t = String c (s ++ t).
Proof. reflexivity. Qed.

Lemma length_app (s t : string) :
  String.length (s ++ t) = (String.length s + String.length t)%nat.
Proof. induction s as [|c s IH]; [reflexivity|]. rewrite app_cons. simpl. now rewrite IH. Qed.

Lemma app_nil_l (s : string) : EmptyString ++ s = s.
Proof. reflexivity. Qed.

Lemma app_nil_r (s : string) : s ++ EmptyString = s.
Proof. induction s as [|c s IH]; [reflexivity|]. rewrite app_cons. now rewrite IH. Qed.

Lemma app_assoc (s t u : string) : (s ++ t) ++ u = s ++ t ++ u.
Proof. induction s as [|c s IH]; [reflexivity|]. rewrite !app_cons. now rewrite IH. Qed.

(** ** Every exception [parse] can meet carries a message *)

Lemma has_message_literal c s t : (0 <? String.length (String c s ++ t))%nat = true.
Proof. reflexivity. Qed.

Lemma loud_substr_or_throw s pos len : loud (substr_or_throw s pos len).
Proof.
  intros st. unfold substr_or_throw. destruct (substr s pos len).
  - now apply post_ret.
  - now apply post_throw.
Qed.

Lemma loud_bind {A B} (m : M A) (k : A -> M B) :
  loud m -> (forall a, loud (k a)) -> loud (bind m k).
Proof.
  intros Hm Hk s. apply post_bind. eapply post_weaken; [apply Hm | | auto].
  intros a s' _. apply Hk.
Qed.

Lemma loud_usage msg : loud (usage msg).
Proof.
  intros s. unfold usage. post_go.
  destruct (0 <? String.length msg)%nat; post_go; exact I.
Qed.

Lemma loud_load_line raw acc : loud (load_line raw acc).
Proof.
  intros s. unfold load_line.
  destruct (remove_if isspace raw) as [|c line]; [now apply post_ret|].
  destruct (bool_decide (c = "#"%char)); [now apply post_ret|].
  apply loud_bind; [apply loud_substr_or_throw|]. intros key.
  apply loud_bind; [apply loud_substr_or_throw|]. intros value s1.
  post_go. destruct (options_find key (options s1)).
  - destruct (acc !! key); [now apply post_throw | now apply post_ret].
  - now apply post_throw.
Qed.

Lemma loud_load_lines ls : forall acc, loud (load_lines ls acc).
Proof.
  induction ls as [|l ls IH]; intros acc; simpl.
  - intros s. now apply post_ret.
  - apply loud_bind; [apply loud_load_line | intros acc'; apply IH].
Qed.

Lemma loud_load pathname : loud (load pathname).
Proof.
  intros s. unfold load. post_go. destruct (open_read (disk s) pathname).
  - apply loud_load_lines.
  - now apply post_throw.
Qed.

Lemma loud_read_value p rest : loud (read_value p rest).
Proof.
  intros s. unfold read_value.
  destruct (nargs p =? 0)%N; [now apply post_ret|].
  destruct (Mach.to_int (nargs p) =? Mach.INT_MAX)%Z; [exact I|].
  destruct (_ <? _)%Z; [now apply post_throw|].
  destruct (firstn _ rest); [exact I | now apply post_ret].
Qed.

Lemma loud_parse_args toks : forall skip, loud (parse_args toks skip).
Proof.
  induction toks as [|tok rest IH]; intros skip s; simpl.
  - now apply post_ret.
  - destruct skip as [|skip']; [|apply IH].
    destruct (strspn_dash tok =? 0)%nat; [now apply post_throw|].
    destruct (bool_decide _); [apply loud_usage|].
    post_go. destruct (options_find _ (options s)); [|now apply post_throw].
    apply loud_bind; [apply loud_read_value|]. intros r s1. post_go.
    destruct (values s1 !! _); [now apply post_throw|].
    post_go. apply IH.
Qed.

Lemma loud_check_required opts : loud (check_required opts).
Proof.
  induction opts as [|[name p] opts IH]; intros s; simpl.
  - now apply post_ret.
  - destruct (_ || _)%bool; [apply IH|]. post_go.
    destruct (values s !! name); [apply IH|].
    destruct (_ =? 0)%nat; [now apply post_throw | apply IH].
Qed.

Lemma loud_merge_config pathname : loud (merge_config pathname).
Proof.
  apply loud_bind; [apply loud_load|]. intros loaded s. post_go. exact I.
Qed.

Lemma loud_parse_try args : loud (parse_try args).
Proof.
  apply loud_bind; [apply loud_parse_args|]. intros ierr s.
  destruct (ierr =? 0)%Z; [|now apply post_ret].
  post_go. eapply post_weaken.
  - destruct (values s !! "load"); [apply loud_merge_config | now apply post_ret].
  - intros [] s1 _. post_go.
    eapply post_weaken; [apply loud_check_required | | auto].
    intros [] s2 _. now apply post_ret.
  - auto.
Qed.

Lemma usage_with_message msg s :
  has_message (invalid_argument msg) -> usage msg s = Ret (-1)%Z (reported msg s).
Proof.
  unfold has_message, usage, bind, gets, modify, ret. simpl. intros ->. reflexivity.
Qed.


(** ** The registry *)

Lemma options_find_emplace key name p m :
  options_find name m = None ->
  options_find key (options_emplace name p m)
  = if bool_decide (name = key) then Some p else options_find key m.
Proof.
  induction m as [|[k q] m IH]; simpl; intros Hnone.
  - reflexivity.
  - destruct (bool_decide_reflect (k = name)) as [->|Hk]; [discriminate|].
    destruct (String.ltb name k); simpl.
    + reflexivity.
    + rewrite (IH Hnone).
      destruct (bool_decide_reflect (k = key)) as [->|Hkey]; [|reflexivity].
      now rewrite bool_decide_eq_false_2.
Qed.

Lemma options_find_None key m : options_find key m = None <-> key ∉ m.*1.
Proof.
  induction m as [|[k q] m IH]; simpl.
  - split; [intros _; apply not_elem_of_nil | reflexivity].
  - rewrite not_elem_of_cons.
    destruct (bool_decide_reflect (k = key)) as [->|Hk].
    + split; [discriminate | intros [? _]; congruence].
    + rewrite IH. split; [intros ?; split; [congruence | assumption] | tauto].
Qed.

Lemma options_find_Some key p m : options_find key m = Some p -> (key, p) ∈ m.
Proof.
  induction m as [|[k q] m IH]; simpl; [discriminate|].
  destruct (bool_decide_reflect (k = key)) as [->|Hk].
  - intros [= ->]. apply elem_of_cons. now left.
  - intros H. apply elem_of_cons. right. now apply IH.
Qed.

Lemma options_find_NoDup key p m :
  NoDup m.*1 -> (key, p) ∈ m -> options_find key m = Some p.
Proof.
  induction m as [|[k q] m IH]; simpl; intros Hnd Hin.
  - now apply elem_of_nil in Hin.
  - apply NoDup_cons in Hnd as [Hk Hnd]. apply elem_of_cons in Hin as [[= <- <-]|Hin].
    + now rewrite bool_decide_eq_true_2.
    + rewrite bool_decide_eq_false_2; [now apply IH|].
      intros ->. apply Hk. now apply (list_elem_of_fmap_2 fst) in Hin.
Qed.

Lemma options_emplace_keys name p m :
  (options_emplace name p m).*1 ≡ₚ name :: m.*1.
Proof.
  induction m as [|[k q] m IH]; simpl; [reflexivity|].
  destruct (String.ltb name k); simpl; [reflexivity|].
  rewrite IH. apply Permutation_swap.
Qed.

Lemma insert_option_inv name n descr dflt s s' :
  insert_option name n descr dflt s = Ret tt s' ->
  options_find name (options s) = None /\
  s' = set_options (options_emplace name (mk_parameters n dflt descr true) (options s)) s.
Proof.
  unfold insert_option, insert_option_impl_, bind, gets, modify, throw.
  destruct (options_find name (options s)); [discriminate|].
  intros [= <-]. split; reflexivity.
Qed.

Lemma registry_builtins opts :
  registry opts ->
  options_find "help" opts = Some help_parameters /\
  options_find "load" opts = Some load_parameters.
Proof.
  induction 1 as [d log err s opts Hctor -> | s name n descr dflt s' opts _ IH Hins ->].
  - vm_compute in Hctor. injection Hctor as <-. split; reflexivity.
  - apply insert_option_inv in Hins as [Hfresh ->]. simpl.
    rewrite !options_find_emplace by exact Hfresh.
    destruct IH as [Hhelp Hload].
    destruct (bool_decide_reflect (name = "help")) as [->|_]; [congruence|].
    destruct (bool_decide_reflect (name = "load")) as [->|_]; [congruence|].
    now split.
Qed.

Lemma registry_NoDup opts : registry opts -> NoDup opts.*1.
Proof.
  induction 1 as [d log err s opts Hctor -> | s name n descr dflt s' opts _ IH Hins ->].
  - vm_compute in Hctor. injection Hctor as <-. simpl.
    apply NoDup_cons. split; [|apply NoDup_singleton].
    rewrite list_elem_of_singleton. discriminate.
  - apply insert_option_inv in Hins as [Hfresh ->]. simpl.
    rewrite options_emplace_keys. apply NoDup_cons. split; [|exact IH].
    now apply options_find_None.
Qed.

(** ** How [parse] moves the state *)

(** [load], [check_required] and [read_value] leave the state alone. *)

Lemma respects_eq_substr_or_throw s pos len : respects eq (substr_or_throw s pos len).
Proof.
  unfold substr_or_throw. destruct (substr s pos len);
    [apply respects_ret | apply respects_throw]; apply _.
Qed.

Lemma respects_eq_load_line raw acc : respects eq (load_line raw acc).
Proof.
  unfold load_line.
  destruct (remove_if isspace raw) as [|c line]; [apply respects_ret, _|].
  destruct (bool_decide (c = "#"%char)); [apply respects_ret, _|].
  apply respects_bind; [apply _ | apply respects_eq_substr_or_throw|]. intros key.
  apply respects_bind; [apply _ | apply respects_eq_substr_or_throw|]. intros value.
  apply respects_bind; [apply _ | apply respects_gets, _|]. intros opts.
  destruct (options_find key opts); [|apply respects_throw, _].
  destruct (acc !! key); [apply respects_throw, _ | apply respects_ret, _].
Qed.

Lemma respects_eq_load_lines ls : forall acc, respects eq (load_lines ls acc).
Proof.
  induction ls as [|l ls IH]; intros acc; simpl.
  - apply respects_ret, _.
  - apply respects_bind; [apply _ | apply respects_eq_load_line | intros acc'; apply IH].
Qed.

Lemma respects_eq_load pathname : respects eq (load pathname).
Proof.
  unfold load. apply respects_bind; [apply _ | apply respects_gets, _|]. intros d.
  destruct (open_read d pathname); [apply respects_eq_load_lines | apply respects_throw, _].
Qed.

Lemma respects_eq_check_required opts : respects eq (check_required opts).
Proof.
  induction opts as [|[name p] opts IH]; simpl.
  - apply respects_ret, _.
  - destruct (_ || _)%bool; [apply IH|].
    apply respects_bind; [apply _ | apply respects_gets, _|]. intros vals.
    destruct (vals !! name); [apply IH|].
    destruct (_ =? 0)%nat; [apply respects_throw, _ | apply IH].
Qed.

Lemma respects_eq_read_value p rest : respects eq (read_value p rest).
Proof.
  unfold read_value.
  destruct (nargs p =? 0)%N; [apply respects_ret, _|].
  destruct (Mach.to_int (nargs p) =? Mach.INT_MAX)%Z; [apply respects_undefined|].
  destruct (_ <? _)%Z; [apply respects_throw, _|].
  destruct (firstn _ rest); [apply respects_undefined | apply respects_ret, _].
Qed.

#[local] Instance grows_preorder : PreOrder grows.
Proof.
  split.
  - intros s. repeat split; reflexivity.
  - intros s1 s2 s3 (Ho1 & Hd1 & Hv1) (Ho2 & Hd2 & Hv2).
    repeat split; [congruence | congruence | etrans; eassumption].
Qed.

#[local] Instance keeps_preorder : PreOrder keeps.
Proof.
  split.
  - intros s. repeat split; auto.
  - intros s1 s2 s3 (Ho1 & Hd1 & Hv1) (Ho2 & Hd2 & Hv2).
    repeat split; [congruence | congruence | auto].
Qed.

Lemma grows_keeps s s' : grows s s' -> keeps s s'.
Proof.
  intros (Ho & Hd & Hv). repeat split; auto.
  intros k v _ Hk. eapply lookup_weaken; eassumption.
Qed.

Lemma eq_grows s s' : s = s' -> grows s s'.
Proof. intros ->. reflexivity. Qed.

Lemma respects_weaken (R R' : state -> state -> Prop) {A} (m : M A) :
  (forall s s', R s s' -> R' s s') -> respects R m -> respects R' m.
Proof. intros HR Hm s. eapply post_weaken; [apply Hm | |]; simpl; auto. Qed.

Lemma respects_grows_usage msg : respects grows (usage msg).
Proof.
  unfold usage.
  apply respects_bind; [apply _ | apply respects_gets, _|]. intros name.
  apply respects_bind; [apply _ | apply respects_gets, _|]. intros opts.
  apply respects_bind; [apply _ | apply respects_modify|].
  { intros s. repeat split; reflexivity. }
  intros _. destruct (0 <? String.length msg)%nat; [|apply respects_ret, _].
  apply respects_bind; [apply _ | apply respects_modify | intros _; apply respects_ret, _].
  intros s. repeat split; reflexivity.
Qed.

Lemma respects_grows_parse_args toks : forall skip, respects grows (parse_args toks skip).
Proof.
  induction toks as [|tok rest IH]; intros skip; simpl.
  - apply respects_ret, _.
  - destruct skip as [|skip']; [|apply IH].
    destruct (strspn_dash tok =? 0)%nat; [apply respects_throw, _|].
    destruct (bool_decide _); [apply respects_grows_usage|].
    apply respects_bind; [apply _ | apply respects_gets, _|]. intros opts.
    destruct (options_find _ opts); [|apply respects_throw, _].
    apply respects_bind; [apply _ | |].
    { eapply respects_weaken; [apply eq_grows | apply respects_eq_read_value]. }
    intros r.
    intros s. apply post_bind, post_gets.
    destruct (values s !! _) eqn:Hfree; [apply post_throw; reflexivity|].
    apply post_bind, post_modify.
    eapply post_weaken; [apply IH | |]; simpl; intros _ s' (Ho & Hd & Hv);
      (repeat split; [exact Ho | exact Hd |]);
      (etrans; [|exact Hv]); simpl; now apply insert_subseteq.
Qed.

Lemma respects_keeps_merge_config pathname : respects keeps (merge_config pathname).
Proof.
  unfold merge_config.
  apply respects_bind; [apply _ | |].
  { eapply respects_weaken; [|apply respects_eq_load].
    intros s s' ->. reflexivity. }
  intros loaded.
  apply respects_bind; [apply _ | apply respects_modify | intros _; apply respects_modify].
  - intros s. repeat split; auto. simpl. intros k v _ Hk.
    apply lookup_union_Some_raw. now left.
  - intros s. repeat split; auto. simpl. intros k v Hne Hk.
    rewrite lookup_delete_ne by congruence. exact Hk.
Qed.

Lemma respects_keeps_parse_try args : respects keeps (parse_try args).
Proof.
  unfold parse_try.
  apply respects_bind; [apply _ | |].
  { eapply respects_weaken; [apply grows_keeps | apply respects_grows_parse_args]. }
  intros ierr. destruct (ierr =? 0)%Z; [|apply respects_ret, _].
  apply respects_bind; [apply _ | apply respects_gets, _|]. intros vals.
  apply respects_bind; [apply _ | |].
  { destruct (vals !! "load"); [apply respects_keeps_merge_config | apply respects_ret, _]. }
  intros _. apply respects_bind; [apply _ | apply respects_gets, _|]. intros opts.
  apply respects_bind; [apply _ | | intros _; apply respects_ret, _].
  eapply respects_weaken; [|apply respects_eq_check_required].
  intros s s' ->. reflexivity.
Qed.

Lemma respects_keeps_parse argv0 args : respects keeps (parse argv0 args).
Proof.
  unfold parse.
  apply respects_bind; [apply _ | apply respects_modify | intros _].
  { intros s. repeat split; auto. }
  apply respects_try_catch; [apply _ | apply respects_keeps_parse_try|].
  intros e. eapply respects_weaken; [apply grows_keeps | apply respects_grows_usage].
Qed.

(** ** The steps of a [parse] that returns *)

Lemma usage_eq msg s :
  usage msg s
  = if (0 <? String.length msg)%nat
    then Ret (-1)%Z (reported msg s)
    else Ret 1%Z (write_clog (usage_text (program_name s) (options s)) s).
Proof.
  unfold usage, bind, gets, modify, ret. simpl.
  destruct (0 <? String.length msg)%nat; reflexivity.
Qed.

Lemma load_state pathname s loaded s' : load pathname s = Ret loaded s' -> s' = s.
Proof. intros H. symmetry. exact (respects_Ret eq _ _ _ _ (respects_eq_load pathname) H). Qed.

Lemma check_required_defined opts s : check_required opts s <> Undefined.
Proof.
  induction opts as [|[name p] opts IH]; simpl; [discriminate|].
  destruct (_ || _)%bool; [exact IH|]. unfold bind, gets.
  destruct (values s !! name); [exact IH|].
  destruct (_ =? 0)%nat; [discriminate | exact IH].
Qed.

Lemma check_required_state opts s :
  match check_required opts s with
  | Ret _ s' | Throw _ s' => s' = s
  | Undefined => False
  end.
Proof.
  pose proof (respects_eq_check_required opts s) as H.
  pose proof (check_required_defined opts s) as Hdef.
  unfold post in H. destruct (check_required opts s); congruence.
Qed.

Lemma merge_config_eq pathname s :
  merge_config pathname s
  = match load pathname s with
    | Ret loaded _ => Ret tt (merged s loaded)
    | Throw e _ => Throw e s
    | Undefined => Undefined
    end.
Proof.
  unfold merge_config, bind, modify.
  destruct (load pathname s) as [loaded s1|e s1|] eqn:Hload; [| |reflexivity].
  - apply load_state in Hload as ->. reflexivity.
  - now rewrite <- (respects_Throw eq _ _ _ _ (respects_eq_load pathname) Hload).
Qed.

Lemma parse_try_eq args s :
  parse_try args s
  = match parse_args args 0 s with
    | Ret ierr s1 =>
        if (ierr =? 0)%Z
        then match match values s1 !! "load" with
                   | Some pathname => merge_config pathname s1
                   | None => Ret tt s1
                   end with
             | Ret _ s2 =>
                 match check_required (options s2) s2 with
                 | Ret _ s3 => Ret ierr s3
                 | Throw e s3 => Throw e s3
                 | Undefined => Undefined
                 end
             | Throw e s2 => Throw e s2
             | Undefined => Undefined
             end
        else Ret ierr s1
    | Throw e s1 => Throw e s1
    | Undefined => Undefined
    end.
Proof.
  unfold parse_try, bind, gets, ret.
  destruct (parse_args args 0 s) as [ierr s1| |]; [|reflexivity..].
  destruct (ierr =? 0)%Z; [|reflexivity].
  destruct (values s1 !! "load") as [pathname|]; [|reflexivity].
  destruct (merge_config pathname s1); [|reflexivity..].
  destruct (check_required _ _); reflexivity.
Qed.

Lemma parse_eq argv0 args s :
  parse argv0 args s
  = match parse_try args (set_program_name argv0 s) with
    | Ret c s' => Ret c s'
    | Throw e s' => usage (what e) s'
    | Undefined => Undefined
    end.
Proof. reflexivity. Qed.

Lemma parse_try_success args s s' :
  parse_try args s = Ret 0%Z s' ->
  exists s1, parse_args args 0 s = Ret 0%Z s1 /\ config_step s1 s' /\
             check_required (options s') s' = Ret tt s'.
Proof.
  rewrite parse_try_eq. unfold config_step.
  destruct (parse_args args 0 s) as [ierr s1| |]; [|discriminate..].
  destruct (ierr =? 0)%Z eqn:Hierr; [|intros [= -> ->]; discriminate].
  apply Z.eqb_eq in Hierr as ->.
  destruct (values s1 !! "load") as [pathname|] eqn:Hload.
  - rewrite merge_config_eq.
    destruct (load pathname s1) as [loaded s2| |] eqn:Hfile; [|discriminate..].
    pose proof (check_required_state (options (merged s1 loaded)) (merged s1 loaded)) as Hchk.
    destruct (check_required _ _) as [[] s3| |] eqn:Hreq; [|discriminate..].
    intros [= <-]. subst s3. exists s1. split; [reflexivity|]. rewrite Hload.
    apply load_state in Hfile as Hs2. subst s2. split; [eauto | exact Hreq].
  - pose proof (check_required_state (options s1) s1) as Hchk.
    destruct (check_required _ _) as [[] s3| |] eqn:Hreq; [|discriminate..].
    intros [= <-]. subst s3. exists s1. rewrite Hload. auto.
Qed.

Lemma parse_success argv0 args s s' :
  parse argv0 args s = Ret 0%Z s' ->
  exists s1, parse_args args 0 (set_program_name argv0 s) = Ret 0%Z s1 /\
             config_step s1 s' /\ check_required (options s') s' = Ret tt s'.
Proof.
  rewrite parse_eq.
  destruct (parse_try args _) as [c s2|e s2|] eqn:Htry; [| |discriminate].
  - intros [= -> ->]. now apply parse_try_success.
  - rewrite usage_eq. destruct (0 <? _)%nat; discriminate.
Qed.

Lemma config_step_no_load s1 s' : config_step s1 s' -> values s' !! "load" = None.
Proof.
  unfold config_step. destruct (values s1 !! "load") eqn:Hload.
  - intros (loaded & _ & ->). apply lookup_delete_eq.
  - now intros ->.
Qed.

(** C10.  After a [parse] that returned 0 the value store has no entry
    [load]; the built-in option [load] has an empty default, so retrieving
    it, at any type and index, throws the no-argument exception. *)
Theorem load_entry_never_survives (argv0 : string) (args : list string) (s s' : state) :
  registry (options s) ->
  parse argv0 args s = Ret 0%Z s' ->
  values s' !! "load" = None /\
  forall (T : Type) (HT : Extractable T) (n : N),
    retrieve T n "load" s' = Throw (no_argument "load") s'.
Proof.
  intros Hreg Hparse.
  pose proof (respects_Ret keeps _ _ _ _ (respects_keeps_parse argv0 args) Hparse)
    as (Hopts & _ & _).
  apply parse_success in Hparse as (s1 & _ & Hcfg & _).
  apply config_step_no_load in Hcfg.
  split; [exact Hcfg|]. intros T HT n.
  apply registry_builtins in Hreg as [_ Hfind]. rewrite <- Hopts in Hfind.
  unfold retrieve, bind, gets. now rewrite Hcfg, Hfind.
Qed.

(** ** A concrete instance, used to run the code on examples *)

Lemma demo_registry : registry (options demo).
Proof.
  eapply registry_insert with (s := exec (_ <- optparse_ctor;
        _ <- insert_option "count" 1 "How many" "1";
        insert_option "range" 2 "Lower and upper bound" EmptyString)
       (blank demo_disk EmptyString EmptyString))
    (name := "verbose") (n := 0%N) (descr := EmptyString) (dflt := "0");
    [|vm_compute; reflexivity|vm_compute; reflexivity].
  eapply registry_insert with (s := exec (_ <- optparse_ctor;
        insert_option "count" 1 "How many" "1")
       (blank demo_disk EmptyString EmptyString))
    (name := "range") (n := 2%N) (descr := "Lower and upper bound") (dflt := EmptyString);
    [|vm_compute; reflexivity|vm_compute; reflexivity].
  eapply registry_insert with (s := exec optparse_ctor (blank demo_disk EmptyString EmptyString))
    (name := "count") (n := 1%N) (descr := "How many") (dflt := "1");
    [|vm_compute; reflexivity|vm_compute; reflexivity].
  eapply registry_ctor with (d := demo_disk) (log := EmptyString) (err := EmptyString);
    vm_compute; reflexivity.
Qed.

Lemma demo_sane_arities : sane_arities (options demo).
Proof.
  intros k p Hfind. apply options_find_Some in Hfind. vm_compute in Hfind.
  repeat (apply elem_of_cons in Hfind as [[= -> ->]|Hfind]; [reflexivity|]).
  now apply elem_of_nil in Hfind.
Qed.

(** The errors named in the error policy, each met by [parse] on [demo]. *)
Example parse_malformed_token : exists s', parse "prog" ["count"; "5"] demo = Ret (-1)%Z s'.
Proof. eexists. vm_compute. reflexivity. Qed.
Example parse_unknown_option : exists s', parse "prog" ["--bogus"] demo = Ret (-1)%Z s'.
Proof. eexists. vm_compute. reflexivity. Qed.
Example parse_insufficient_values :
  exists s', parse "prog" ["--range"; "1"] demo = Ret (-1)%Z s'.
Proof. eexists. vm_compute. reflexivity. Qed.
Example parse_duplicate_option :
  exists s', parse "prog" ["--range"; "1"; "2"; "--range"; "3"; "4"] demo = Ret (-1)%Z s'.
Proof. eexists. vm_compute. reflexivity. Qed.
Example parse_load_failure :
  exists s', parse "prog" ["--range"; "1"; "2"; "--load"; "nowhere"] demo = Ret (-1)%Z s'.
Proof. eexists. vm_compute. reflexivity. Qed.
Example parse_missing_required : exists s', parse "prog" ["--count"; "5"] demo = Ret (-1)%Z s'.
Proof. eexists. vm_compute. reflexivity. Qed.
Example parse_help : exists s', parse "prog" ["--help"; "--bogus"] demo = Ret 1%Z s'.
Proof. eexists. vm_compute. reflexivity. Qed.


Lemma load_entry_never_survives_witness :
  values (exec (parse "prog" ["--range"; "1"; "10"; "--load"; "cfg"]) demo) !! "load" = None /\
  retrieve string 0 "load" (exec (parse "prog" ["--range"; "1"; "10"; "--load"; "cfg"]) demo)
  = Throw (no_argument "load") (exec (parse "prog" ["--range"; "1"; "10"; "--load"; "cfg"]) demo).
Proof.
  assert (Hparse : parse "prog" ["--range"; "1"; "10"; "--load"; "cfg"] demo
                   = Ret 0%Z (exec (parse "prog" ["--range"; "1"; "10"; "--load"; "cfg"]) demo))
    by (vm_compute; reflexivity).
  destruct (load_entry_never_survives "prog" ["--range"; "1"; "10"; "--load"; "cfg"] demo _
              demo_registry Hparse) as [Hgone Hretrieve].
  split; [exact Hgone | apply Hretrieve].
Defined.

(** ** Command line before configuration file *)

Lemma parse_after_merge argv0 args s s1 pathname loaded :
  parse_args args 0 (set_program_name argv0 s) = Ret 0%Z s1 ->
  values s1 !! "load" = Some pathname ->
  load pathname s1 = Ret loaded s1 ->
  exists c s', parse argv0 args s = Ret c s' /\ values s' = values (merged s1 loaded).
Proof.
  intros Hloop Hload Hfile.
  rewrite parse_eq, parse_try_eq, Hloop. simpl.
  rewrite Hload, merge_config_eq, Hfile.
  pose proof (check_required_state (options (merged s1 loaded)) (merged s1 loaded)) as Hchk.
  destruct (check_required _ _) as [[] s3|e s3|]; [| |contradiction]; subst s3.
  - eauto.
  - rewrite usage_eq. destruct (0 <? _)%nat; eauto.
Qed.

(** C2.  When the token loop has ended with an entry [load] in the value
    store and the file it names loads, [parse] returns with a store in
    which every other entry the command line made still has its value,
    whatever the file says for that name, and in which [load] is gone. *)
Theorem command_line_wins (argv0 : string) (args : list string) (s s1 : state)
    (pathname : string) (loaded : gmap string string) :
  parse_args args 0 (set_program_name argv0 s) = Ret 0%Z s1 ->
  values s1 !! "load" = Some pathname ->
  load pathname s1 = Ret loaded s1 ->
  exists c s',
    parse argv0 args s = Ret c s' /\
    (forall name v w, name <> "load" ->
       values s1 !! name = Some v -> loaded !! name = Some w ->
       values s' !! name = Some v) /\
    values s' !! "load" = None.
Proof.
  intros Hloop Hload Hfile.
  destruct (parse_after_merge _ _ _ _ _ _ Hloop Hload Hfile) as (c & s' & Hparse & Hvals).
  exists c, s'. split; [exact Hparse|]. rewrite Hvals. simpl. split.
  - intros name v w Hne Hcmd _. rewrite lookup_delete_ne by congruence.
    apply lookup_union_Some_raw. now left.
  - apply lookup_delete_eq.
Qed.

Lemma command_line_wins_witness :
  exists c s',
    parse "prog" ["--count"; "5"; "--range"; "1"; "10"; "--load"; "cfg"] demo = Ret c s' /\
    values s' !! "count" = Some "5" /\
    values s' !! "load" = None.
Proof.
  destruct (command_line_wins "prog" ["--count"; "5"; "--range"; "1"; "10"; "--load"; "cfg"] demo
              (exec (parse_args ["--count"; "5"; "--range"; "1"; "10"; "--load"; "cfg"] 0)
                 (set_program_name "prog" demo))
              "cfg" {[ "count" := "3"; "verbose" := "1" ]})
    as (c & s' & Hparse & Hwins & Hgone).
  - vm_compute. reflexivity.
  - vm_compute. reflexivity.
  - vm_compute. reflexivity.
  - exists c, s'. split; [exact Hparse|]. split; [|exact Hgone].
    apply (Hwins "count" "5" "3").
    + discriminate.
    + vm_compute. reflexivity.
    + vm_compute. reflexivity.
Defined.

(** The same run, evaluated: [count] keeps the 5 of the command line,
    [verbose] comes from the file, [load] is erased. *)
Example merged_store_example :
  values (exec (parse "prog" ["--count"; "5"; "--range"; "1"; "10"; "--load"; "cfg"]) demo)
  = {[ "count" := "5"; "range" := "1, 10"; "verbose" := "1" ]}.
Proof. vm_compute. reflexivity. Qed.

(** ** Where the entries of the value store come from *)

Lemma set_by_tokens_refl toks s : set_by_tokens toks s s.
Proof. intros k v Hk. now left. Qed.

Lemma set_by_tokens_cons tok toks s s' :
  set_by_tokens toks s s' -> set_by_tokens (tok :: toks) s s'.
Proof.
  intros H k v Hk. destruct (H k v Hk) as [?|(t & p & Ht & ?)]; [now left|].
  right. exists t, p. split; [now apply elem_of_cons; right | assumption].
Qed.

Lemma read_value_flag p rest s r s' :
  read_value p rest s = Ret r s' -> s' = s /\ (nargs p = 0%N -> r.1 = toggled p).
Proof.
  intros H. split.
  - symmetry. exact (respects_Ret eq _ _ _ _ (respects_eq_read_value p rest) H).
  - intros Hflag. unfold read_value in H. rewrite Hflag in H. simpl in H.
    now injection H as <- _.
Qed.

Lemma parse_args_provenance toks :
  forall skip s,
    post (parse_args toks skip) s
      (fun _ s' => set_by_tokens toks s s') (fun _ s' => set_by_tokens toks s s').
Proof.
  induction toks as [|tok rest IH]; intros skip s; simpl.
  - apply post_ret, set_by_tokens_refl.
  - destruct skip as [|skip'].
    2:{ eapply post_weaken; [apply IH | |]; simpl; intros; now apply set_by_tokens_cons. }
    destruct (strspn_dash tok =? 0)%nat; [apply post_throw, set_by_tokens_refl|].
    destruct (bool_decide _).
    { unfold post. rewrite usage_eq. simpl. intros k v Hk. now left. }
    apply post_bind, post_gets.
    destruct (options_find _ (options s)) as [p|] eqn:Hfind;
      [|apply post_throw, set_by_tokens_refl].
    apply post_bind. unfold post at 1.
    destruct (read_value p rest s) as [r s1|e s1|] eqn:Hread; [| |exact I].
    2:{ rewrite <- (respects_Throw eq _ _ _ _ (respects_eq_read_value p rest) Hread).
        apply set_by_tokens_refl. }
    apply read_value_flag in Hread as [-> Hflag].
    apply post_bind, post_gets.
    destruct (values s !! _) eqn:Hfree; [apply post_throw, set_by_tokens_refl|].
    apply post_bind, post_modify.
    eapply post_weaken; [apply IH | |]; simpl; intros _ s' Hrest k v Hk.
    all: destruct (Hrest k v Hk) as [Hold|(t & q & Ht & Hkey & Hq & Hv)].
    all: try (right; exists t, q; split; [now apply elem_of_cons; right | now repeat split]).
    all: simpl in Hold; apply lookup_insert_Some in Hold as [[<- <-]|[_ Hold]]; [|now left].
    all: right; exists tok, p; split; [apply elem_of_cons; now left | now repeat split].
Qed.

(** The store [parse] returns with is the store the token loop ended
    with, or that store merged with the file of [load] and without [load]. *)
Lemma parse_store argv0 args s c s' :
  parse argv0 args s = Ret c s' ->
  values s' = values (exec (parse_args args 0) (set_program_name argv0 s)) \/
  exists pathname loaded,
    values (exec (parse_args args 0) (set_program_name argv0 s)) !! "load" = Some pathname /\
    load pathname (exec (parse_args args 0) (set_program_name argv0 s))
    = Ret loaded (exec (parse_args args 0) (set_program_name argv0 s)) /\
    values s' = delete "load"
                  (values (exec (parse_args args 0) (set_program_name argv0 s)) ∪ loaded).
Proof.
  rewrite parse_eq, parse_try_eq. unfold exec.
  destruct (parse_args args 0 _) as [ierr s1|e s1|]; [| |discriminate].
  2:{ rewrite usage_eq. destruct (0 <? _)%nat; intros [= _ <-]; now left. }
  destruct (ierr =? 0)%Z; [|intros [= _ <-]; now left].
  destruct (values s1 !! "load") as [pathname|] eqn:Hload.
  - rewrite merge_config_eq.
    destruct (load pathname s1) as [loaded s2|e s2|] eqn:Hfile; [| |discriminate].
    2:{ rewrite usage_eq. destruct (0 <? _)%nat; intros [= _ <-]; now left. }
    apply load_state in Hfile as Hs2. subst s2.
    pose proof (check_required_state (options (merged s1 loaded)) (merged s1 loaded)) as Hchk.
    destruct (check_required _ _) as [[] s3|e s3|]; [| |contradiction]; subst s3.
    + intros [= _ <-]. right. now exists pathname, loaded.
    + rewrite usage_eq. destruct (0 <? _)%nat; intros [= _ <-]; right;
        now exists pathname, loaded.
  - pose proof (check_required_state (options s1) s1) as Hchk.
    destruct (check_required _ _) as [[] s3|e s3|]; [| |contradiction]; subst s3.
    + intros [= _ <-]. now left.
    + rewrite usage_eq. destruct (0 <? _)%nat; intros [= _ <-]; now left.
Qed.

Lemma parse_args_frame toks skip s :
  match parse_args toks skip s with
  | Ret _ s' | Throw _ s' => grows s s'
  | Undefined => True
  end.
Proof. exact (respects_grows_parse_args toks skip s). Qed.

Lemma exec_parse_args_grows toks skip s : grows s (exec (parse_args toks skip) s).
Proof.
  pose proof (parse_args_frame toks skip s) as H. unfold exec.
  destruct (parse_args toks skip s); [exact H | exact H | reflexivity].
Qed.

Lemma exec_parse_args_provenance toks skip s :
  set_by_tokens toks s (exec (parse_args toks skip) s).
Proof.
  pose proof (parse_args_provenance toks skip s) as H. unfold post in H. unfold exec.
  destruct (parse_args toks skip s); [exact H | exact H | apply set_by_tokens_refl].
Qed.

(** C6 (counterexample).  A first call stores [range]; a second call on the
    same instance, with no argument at all, returns 0 with that entry still
    in the store.  On the instance as constructed the same call returns -1,
    because [range] is required. *)
Lemma parse_store_not_fresh_counterexample :
  parse "prog" [] (exec (parse "prog" ["--range"; "1"; "10"]) demo)
  = Ret 0%Z (exec (parse "prog" []) (exec (parse "prog" ["--range"; "1"; "10"]) demo)) /\
  values (exec (parse "prog" []) (exec (parse "prog" ["--range"; "1"; "10"]) demo)) !! "range"
  = Some "1, 10" /\
  values demo = ∅ /\
  exists s', parse "prog" [] demo = Ret (-1)%Z s'.
Proof.
  split; [vm_compute; reflexivity|].
  split; [vm_compute; reflexivity|].
  split; [vm_compute; reflexivity|].
  eexists. vm_compute. reflexivity.
Qed.

(** C6 (amended).  The constructor leaves the value store empty, and
    [parse] works on the store it finds without clearing it: every entry
    other than [load] that was there before the call is there after it with
    the same value, and every entry there after the call was there before,
    or bears the name of a token of this call's [argv], or was read from a
    configuration file by this call. *)
Theorem parse_keeps_earlier_entries :
  (forall d log err s0, optparse_ctor (blank d log err) = Ret tt s0 -> values s0 = ∅) /\
  (forall argv0 args s c s',
     parse argv0 args s = Ret c s' ->
     (forall k v, k <> "load" -> values s !! k = Some v -> values s' !! k = Some v) /\
     (forall k v, values s' !! k = Some v ->
        values s !! k = Some v \/
        (exists tok, tok ∈ args /\ key_of tok = k) \/
        (exists pathname loaded s1,
           options s1 = options s /\ disk s1 = disk s /\
           load pathname s1 = Ret loaded s1 /\ loaded !! k = Some v))).
Proof.
  split.
  - intros d log err s0 Hctor. vm_compute in Hctor. now injection Hctor as <-.
  - intros argv0 args s c s' Hparse. split.
    + intros k v Hne Hk.
      now apply (respects_Ret keeps _ _ _ _ (respects_keeps_parse argv0 args) Hparse).
    + intros k v Hk.
      pose proof (exec_parse_args_provenance args 0 (set_program_name argv0 s)) as Hprov.
      pose proof (exec_parse_args_grows args 0 (set_program_name argv0 s)) as (Ho & Hd & _).
      set (s1 := exec (parse_args args 0) (set_program_name argv0 s)) in *.
      assert (Hloop : forall v', values s1 !! k = Some v' ->
                values s !! k = Some v' \/ exists tok, tok ∈ args /\ key_of tok = k).
      { intros v' Hv'. destruct (Hprov k v' Hv') as [?|(tok & p & ? & ? & _)]; [now left|].
        right. now exists tok. }
      destruct (parse_store _ _ _ _ _ Hparse) as [Heq|(pathname & loaded & _ & Hfile & Heq)];
        fold s1 in Heq; rewrite Heq in Hk.
      * destruct (Hloop v Hk) as [?|?]; [now left | right; now left].
      * fold s1 in Hfile. apply lookup_delete_Some in Hk as [_ Hk].
        apply lookup_union_Some_raw in Hk as [Hk|[_ Hk]].
        -- destruct (Hloop v Hk) as [?|?]; [now left | right; now left].
        -- right; right. now exists pathname, loaded, s1.
Qed.

Lemma parse_keeps_earlier_entries_witness :
  values (exec (parse "prog" []) (exec (parse "prog" ["--range"; "1"; "10"]) demo)) !! "range"
  = Some "1, 10".
Proof.
  refine (proj1 (proj2 parse_keeps_earlier_entries "prog" []
                   (exec (parse "prog" ["--range"; "1"; "10"]) demo) 0%Z _ _)
                "range" "1, 10" _ _).
  - vm_compute. reflexivity.
  - discriminate.
  - vm_compute. reflexivity.
Defined.

(** ** The fields of a raw value *)

Lemma fields_nonempty s : fields s <> [].
Proof.
  destruct s as [|a s]; simpl; [discriminate|].
  destruct (bool_decide _); [discriminate|]. destruct (fields s); discriminate.
Qed.

Lemma length_drop k s : String.length (drop k s) = (String.length s - k)%nat.
Proof.
  revert s. induction k as [|k IH]; intros [|a s]; simpl; auto with arith.
Qed.

Lemma drop_drop a b s : drop a (drop b s) = drop (b + a) s.
Proof.
  revert s. induction b as [|b IH]; intros s; simpl; [reflexivity|].
  destruct s as [|c s]; [now destruct a | apply IH].
Qed.

Lemma take_all n s : (String.length s <= n)%nat -> take n s = s.
Proof.
  revert s. induction n as [|n IH]; intros [|a s]; simpl; intros Hn;
    [reflexivity | lia | reflexivity |]. now rewrite IH by lia.
Qed.

Lemma first_index_lt c s j : first_index c s = Some j -> (j < String.length s)%nat.
Proof.
  revert j. induction s as [|a s IH]; simpl; intros j; [discriminate|].
  destruct (bool_decide _); [intros [= <-]; lia|].
  destruct (first_index c s) as [j'|]; [|discriminate].
  intros [= <-]. specialize (IH j' eq_refl). lia.
Qed.

Lemma fields_no_comma s : first_index ","%char s = None -> fields s = [s].
Proof.
  induction s as [|a s IH]; simpl; [reflexivity|].
  destruct (bool_decide _); [discriminate|].
  destruct (first_index _ s); [discriminate|]. intros _. now rewrite IH.
Qed.

Lemma fields_comma s j :
  first_index ","%char s = Some j -> fields s = take j s :: fields (drop (S j) s).
Proof.
  revert j. induction s as [|a s IH]; simpl; intros j; [discriminate|].
  destruct (bool_decide _).
  - intros [= <-]. reflexivity.
  - destruct (first_index _ s) as [j'|]; [|discriminate].
    intros [= <-]. rewrite (IH j' eq_refl). reflexivity.
Qed.

Lemma find_go_from c s i from :
  (from <= i)%N ->
  find_go c s i from
  = match first_index c s with
    | Some j => (i + N.of_nat j)%N
    | None => Mach.npos
    end.
Proof.
  revert i. induction s as [|a s IH]; simpl; intros i Hle; [reflexivity|].
  rewrite (proj2 (N.leb_le from i) Hle). simpl.
  destruct (bool_decide _); [f_equal; lia|].
  rewrite IH by lia. destruct (first_index c s); simpl; [lia | reflexivity].
Qed.

Lemma find_go_drop c s i k :
  (k <= String.length s)%nat ->
  find_go c s i (i + N.of_nat k) = find_go c (drop k s) (i + N.of_nat k) (i + N.of_nat k).
Proof.
  revert s i. induction k as [|k IH]; intros s i Hk.
  - simpl. now rewrite N.add_0_r.
  - destruct s as [|a s]; [simpl in Hk; lia|]. simpl in Hk. cbn [find_go drop].
    replace (i + N.of_nat (S k) <=? i)%N with false by (symmetry; apply N.leb_gt; lia).
    simpl. replace (i + N.of_nat (S k))%N with (i + 1 + N.of_nat k)%N by lia.
    apply IH. lia.
Qed.

Lemma find_spec c s k :
  (k <= String.length s)%nat ->
  find c s (N.of_nat k)
  = match first_index c (drop k s) with
    | Some j => N.of_nat (k + j)
    | None => Mach.npos
    end.
Proof.
  intros Hk. unfold find.
  pose proof (find_go_drop c s 0 k Hk) as Hdrop. rewrite N.add_0_l in Hdrop.
  rewrite Hdrop, find_go_from by lia. destruct (first_index c _); [lia | reflexivity].
Qed.

Lemma substr_spec s k len :
  (k <= String.length s)%nat ->
  substr s (N.of_nat k) len
  = Some (take (N.to_nat (N.min len (N.of_nat (String.length s - k)))) (drop k s)).
Proof.
  intros Hk. unfold substr, size.
  replace (N.of_nat (String.length s) <? N.of_nat k)%N with false
    by (symmetry; apply N.ltb_ge; lia).
  rewrite Nat2N.id. do 3 f_equal. lia.
Qed.

Lemma substr_tail s k :
  (k <= String.length s)%nat -> (Z.of_nat (String.length s) < 2147483648)%Z ->
  substr s (N.of_nat k) Mach.npos = Some (drop k s).
Proof.
  intros Hk Hlen. rewrite substr_spec by exact Hk. f_equal.
  apply take_all. rewrite length_drop. unfold Mach.npos. lia.
Qed.

Lemma pick_single f k : pick [f] k = f.
Proof.
  unfold pick. simpl. destruct (_ && _)%bool eqn:H; [|reflexivity].
  apply andb_true_iff in H as [H0%Z.leb_le H1%Z.ltb_lt]. lia.
Qed.

Lemma pick_first f fs : fs <> [] -> pick (f :: fs) 0 = f.
Proof.
  destruct fs; [congruence|]. intros _. unfold pick. cbn [length].
  destruct (Z.ltb_spec 0 (Z.of_nat (S (S (length fs))) - 1)); [reflexivity | lia].
Qed.

Lemma pick_cons f fs k : fs <> [] -> k <> 0%Z -> pick (f :: fs) k = pick fs (k - 1).
Proof.
  intros Hfs Hk. unfold pick. cbn [length].
  destruct (Z.leb_spec 0 k), (Z.leb_spec 0 (k - 1)); try lia;
    destruct (Z.ltb_spec k (Z.of_nat (S (length fs)) - 1)),
             (Z.ltb_spec (k - 1) (Z.of_nat (length fs) - 1)); try lia; cbn [andb].
  all: try (replace (Z.to_nat k) with (S (Z.to_nat (k - 1))) by lia; reflexivity).
  all: destruct fs; [congruence | reflexivity].
Qed.

Lemma split_loop_fields fuel :
  forall s pos i (st : nat) σ,
    (st <= String.length s)%nat -> (Z.of_nat (String.length s) < 2147483648)%Z ->
    (0 <= i <= Z.of_nat st)%Z -> (String.length s - st < fuel)%nat ->
    split_loop fuel s pos i (N.of_nat st) (find ","%char s (N.of_nat st)) σ
    = Ret (pick (fields (drop st s)) (pos - i)) σ.
Proof.
  induction fuel as [|fuel IH]; intros s pos i st σ Hst Hlen Hi Hfuel; [lia|].
  cbn [split_loop]. rewrite find_spec by exact Hst.
  destruct (first_index ","%char (drop st s)) as [j|] eqn:Hj.
  - pose proof (first_index_lt _ _ _ Hj) as Hjlt. rewrite length_drop in Hjlt.
    replace (N.of_nat (st + j) =? Mach.npos)%N with false
      by (symmetry; apply N.eqb_neq; unfold Mach.npos; lia).
    rewrite (fields_comma _ _ Hj).
    destruct (i =? pos)%Z eqn:Hpos.
    + apply Z.eqb_eq in Hpos as ->. rewrite Z.sub_diag, pick_first by apply fields_nonempty.
      unfold substr_or_throw. rewrite substr_spec by exact Hst.
      unfold ret. do 2 f_equal. unfold Mach.wrap_size.
      rewrite Z.mod_small by lia. lia.
    + apply Z.eqb_neq in Hpos.
      replace (i =? Mach.INT_MAX)%Z with false
        by (symmetry; apply Z.eqb_neq; unfold Mach.INT_MAX; lia).
      replace (Mach.to_unsigned (Mach.wrap_size (Z.of_N (N.of_nat (st + j)) + 1)))
        with (N.of_nat (S (st + j))).
      2:{ unfold Mach.to_unsigned, Mach.wrap_size. rewrite Z.mod_small by lia.
          rewrite N.mod_small by lia. lia. }
      rewrite IH by lia.
      rewrite pick_cons by (apply fields_nonempty || lia).
      rewrite drop_drop.
      replace (st + S j)%nat with (S (st + j)) by lia.
      replace (pos - (i + 1))%Z with (pos - i - 1)%Z by lia. reflexivity.
  - rewrite N.eqb_refl. rewrite (fields_no_comma _ Hj), pick_single.
    unfold substr_or_throw. now rewrite substr_tail.
Qed.

(** [split] returns the field [pick] describes, on every string shorter
    than [2^31] characters. *)
Lemma split_fields s pos σ :
  (Z.of_nat (String.length s) < 2147483648)%Z ->
  split s pos σ = Ret (pick (fields s) pos) σ.
Proof.
  intros Hlen. unfold split.
  change 0%N with (N.of_nat 0).
  rewrite (split_loop_fields (S (String.length s)) s pos 0 0 σ) by lia.
  now rewrite Z.sub_0_r.
Qed.

(** ** What [retrieve] converts *)

Lemma pick_last fs k : (Z.of_nat (length fs) - 1 <= k)%Z -> pick fs k = List.last fs EmptyString.
Proof.
  intros Hk. unfold pick.
  destruct (Z.leb_spec 0 k), (Z.ltb_spec k (Z.of_nat (length fs) - 1)); (reflexivity || lia).
Qed.

Lemma to_int_small n : (n < 2147483648)%N -> Mach.to_int n = Z.of_N n.
Proof.
  intros Hn. unfold Mach.to_int. rewrite N.mod_small by lia.
  destruct (Z.ltb_spec (Z.of_N n) 2147483648); [reflexivity | lia].
Qed.

Lemma retrieve_eq (T : Type) `{Extractable T} n name s :
  short_value s name ->
  retrieve T n name s
  = match field_read s n name with
    | Some argument => convert T argument s
    | None => Throw (no_argument name) s
    end.
Proof.
  intros [Hraw Hdflt]. unfold retrieve, field_read, bind, gets.
  destruct (values s !! name) as [raw|].
  - now rewrite split_fields by auto.
  - destruct (options_find name (options s)) as [p|]; [|reflexivity].
    destruct (0 <? _)%nat; [|reflexivity].
    destruct (nargs p =? 0)%N; [reflexivity|].
    now rewrite split_fields by auto.
Qed.

(** C3 (counterexample).  [range] has arity 2 and the stored value
    ["1, 10"] has two fields; index 2 does not throw: it yields the last
    field, read as 10. *)
Lemma retrieve_out_of_range_counterexample :
  options_find "range" (options (exec (parse "prog" ["--range"; "1"; "10"]) demo))
  = Some (mk_parameters 2 EmptyString "Lower and upper bound" true) /\
  values (exec (parse "prog" ["--range"; "1"; "10"]) demo) !! "range" = Some "1, 10" /\
  fields "1, 10" = ["1"; " 10"] /\
  retrieve cpp_int 2 "range" (exec (parse "prog" ["--range"; "1"; "10"]) demo)
  = Ret 10%Z (exec (parse "prog" ["--range"; "1"; "10"]) demo) /\
  ~ (exists e s', retrieve cpp_int 2 "range" (exec (parse "prog" ["--range"; "1"; "10"]) demo)
                  = Throw e s' /\ is_conversion_error e).
Proof.
  assert (Hrun : retrieve cpp_int 2 "range" (exec (parse "prog" ["--range"; "1"; "10"]) demo)
                 = Ret 10%Z (exec (parse "prog" ["--range"; "1"; "10"]) demo))
    by (vm_compute; reflexivity).
  split; [vm_compute; reflexivity|]. split; [vm_compute; reflexivity|].
  split; [vm_compute; reflexivity|]. split; [exact Hrun|].
  intros (e & s' & Hthrow & _). rewrite Hrun in Hthrow. discriminate.
Qed.

(** C3 (amended).  For an option of arity [k > 0] whose stored value has
    exactly [k] fields and fewer than [2^31] characters, [retrieve] with an
    index from [k] up (below [2^31]) converts the last field, as it does
    for the index [k - 1]; no range error is raised. *)
Theorem retrieve_past_last_field (T : Type) `{Extractable T} (s : state) (name : string)
    (p : parameters) (raw : string) (k n : N) :
  options_find name (options s) = Some p -> nargs p = k -> (0 < k)%N ->
  values s !! name = Some raw ->
  N.of_nat (length (fields raw)) = k ->
  (Z.of_nat (String.length raw) < 2147483648)%Z ->
  (k <= n < 2147483648)%N ->
  retrieve T n name s = convert T (List.last (fields raw) EmptyString) s /\
  retrieve T n name s = retrieve T (k - 1) name s.
Proof.
  intros _ _ Hk Hraw Hfields Hlen Hn.
  assert (Hsel : forall m, (k - 1 <= m < 2147483648)%N ->
            retrieve T m name s = convert T (List.last (fields raw) EmptyString) s).
  { intros m Hm. unfold retrieve, bind, gets. rewrite Hraw, split_fields by exact Hlen.
    rewrite pick_last; [reflexivity|]. rewrite to_int_small by lia. lia. }
  split; [apply Hsel; lia|]. rewrite !Hsel by lia. reflexivity.
Qed.

Lemma retrieve_past_last_field_witness :
  retrieve cpp_int 7 "range" (exec (parse "prog" ["--range"; "1"; "10"]) demo)
  = convert cpp_int " 10" (exec (parse "prog" ["--range"; "1"; "10"]) demo) /\
  retrieve cpp_int 7 "range" (exec (parse "prog" ["--range"; "1"; "10"]) demo)
  = retrieve cpp_int 1 "range" (exec (parse "prog" ["--range"; "1"; "10"]) demo).
Proof.
  apply (retrieve_past_last_field cpp_int (exec (parse "prog" ["--range"; "1"; "10"]) demo)
           "range" (mk_parameters 2 EmptyString "Lower and upper bound" true) "1, 10" 2 7).
  - vm_compute. reflexivity.
  - reflexivity.
  - reflexivity.
  - vm_compute. reflexivity.
  - reflexivity.
  - simpl. lia.
  - lia.
Defined.

(** ** The tokens the loop reads as options *)

(** What [read_value] returned is what it returns with more tokens behind,
    and it has read no more tokens than there were. *)
Lemma read_value_more p l rest s r s' :
  read_value p l s = Ret r s' ->
  read_value p (l ++ rest)%list s = Ret r s' /\ (r.2 <= length l)%nat.
Proof.
  unfold read_value. destruct (nargs p =? 0)%N.
  - intros [= <- <-]. split; [reflexivity | simpl; lia].
  - destruct (Mach.to_int (nargs p) =? Mach.INT_MAX)%Z; [discriminate|].
    destruct (Z.ltb_spec (Z.of_nat (S (length l))) (Mach.to_int (nargs p) + 1));
      [discriminate|].
    replace (Z.of_nat (S (length (l ++ rest))) <? Mach.to_int (nargs p) + 1)%Z with false
      by (symmetry; apply Z.ltb_ge; rewrite List.length_app; lia).
    destruct (firstn _ l) as [|v vs] eqn:Hfirst; [discriminate|].
    intros [= <- <-]. cbn [fst snd].
    assert (Hcnt : (Z.to_nat (Z.max 1 (Mach.to_int (nargs p))) <= length l)%nat).
    { destruct l as [|a l]; [now rewrite List.firstn_nil in Hfirst|]. simpl length in *. lia. }
    split; [|exact Hcnt].
    rewrite List.firstn_app.
    replace (Z.to_nat (Z.max 1 (Mach.to_int (nargs p))) - length l)%nat with 0%nat by lia.
    rewrite List.firstn_O, List.app_nil_r, Hfirst. reflexivity.
Qed.

(** With an arity below [INT_MAX], [read_value] reads as many tokens as
    the arity says. *)
Lemma read_value_count p l s r s' :
  (nargs p < 2147483647)%N -> read_value p l s = Ret r s' -> r.2 = N.to_nat (nargs p).
Proof.
  intros Hn. unfold read_value. destruct (N.eqb_spec (nargs p) 0) as [H0|H0].
  - intros [= <- _]. simpl. lia.
  - rewrite to_int_small by lia.
    destruct (_ =? _)%Z; [discriminate|]. destruct (_ <? _)%Z; [discriminate|].
    destruct (firstn _ l); [discriminate|]. intros [= <- _]. simpl. lia.
Qed.

(** When the loop gets through [pre], it goes on with what follows [pre]
    from the state it has reached. *)
Lemma parse_args_app pre rest : forall skip s s1,
  (skip <= length pre)%nat ->
  parse_args pre skip s = Ret 0%Z s1 ->
  parse_args (pre ++ rest) skip s = parse_args rest 0 s1.
Proof.
  induction pre as [|tok pre IH]; intros skip s s1 Hskip Hrun.
  - simpl in Hskip. replace skip with 0%nat in * by lia.
    simpl in Hrun. injection Hrun as <-. reflexivity.
  - destruct skip as [|skip'].
    2:{ simpl in Hskip. apply (IH skip' s s1); [lia | exact Hrun]. }
    cbn [parse_args] in Hrun. cbn [parse_args app].
    destruct (strspn_dash tok =? 0)%nat; [discriminate|].
    destruct (bool_decide _).
    { rewrite usage_eq in Hrun. simpl in Hrun. discriminate. }
    unfold bind at 1, gets at 1 in Hrun. unfold bind at 1, gets at 1.
    destruct (options_find _ (options s)) as [p|]; [|discriminate].
    unfold bind at 1 in Hrun. unfold bind at 1.
    destruct (read_value p pre s) as [r s2|e s2|] eqn:Hread; [|discriminate..].
    destruct (read_value_more _ _ rest _ _ _ Hread) as [-> Hlen].
    unfold bind at 1, gets at 1 in Hrun. unfold bind at 1, gets at 1.
    destruct (values s2 !! _); [discriminate|].
    unfold bind at 1, modify at 1 in Hrun. unfold bind at 1, modify at 1.
    apply IH; assumption.
Qed.

(** Every token a loop that returned 0 read as an option name has its
    entry in the store. *)
Lemma parse_args_stores toks : forall skip s s',
  sane_arities (options s) ->
  parse_args toks skip s = Ret 0%Z s' ->
  forall tok, tok ∈ option_tokens (options s) toks skip -> is_Some (values s' !! key_of tok).
Proof.
  induction toks as [|tok0 rest IH]; intros skip s s' Hsane Hrun tok Htok.
  - now apply elem_of_nil in Htok.
  - destruct skip as [|skip']; [|exact (IH skip' s s' Hsane Hrun tok Htok)].
    cbn [parse_args] in Hrun. cbn [option_tokens] in Htok. fold (key_of tok0) in Hrun.
    destruct (strspn_dash tok0 =? 0)%nat; [discriminate|].
    destruct (bool_decide _).
    { rewrite usage_eq in Hrun. simpl in Hrun. discriminate. }
    unfold bind at 1, gets at 1 in Hrun.
    destruct (options_find (key_of tok0) (options s)) as [p|] eqn:Hfind; [|discriminate].
    unfold bind at 1 in Hrun.
    destruct (read_value p rest s) as [r s2|e s2|] eqn:Hread; [|discriminate..].
    rewrite (read_value_count _ _ _ _ _ (Hsane _ _ Hfind) Hread) in Hrun.
    apply read_value_flag in Hread as [-> _].
    unfold bind at 1, gets at 1 in Hrun.
    destruct (values s !! key_of tok0) eqn:Hfree; [discriminate|].
    unfold bind at 1, modify at 1 in Hrun.
    apply elem_of_cons in Htok as [-> | Htok].
    + pose proof (parse_args_frame rest (N.to_nat (nargs p))
                    (set_values (<[key_of tok0 := r.1]> (values s)) s)) as Hgrows.
      rewrite Hrun in Hgrows. destruct Hgrows as (_ & _ & Hsub).
      exists r.1. eapply lookup_weaken; [|exact Hsub]. simpl. apply lookup_insert_eq.
    + exact (IH _ (set_values (<[key_of tok0 := r.1]> (values s)) s) s' Hsane Hrun tok Htok).
Qed.

(** ** Flags *)

Lemma insert_option_boolean_registers name action descr s s' :
  insert_option_boolean name action descr s = Ret tt s' ->
  options_find name (options s') = Some (flag_parameters action descr).
Proof.
  unfold insert_option_boolean. intros [Hfresh ->]%insert_option_inv. simpl.
  rewrite options_find_emplace by exact Hfresh. now rewrite bool_decide_eq_true_2.
Qed.






(** The two runs of the specification's example. *)
Example verbose_present :
  bind (parse "prog" ["--verbose"; "--range"; "1"; "10"]) (fun _ => retrieve bool 0 "verbose") demo
  = Ret true (exec (parse "prog" ["--verbose"; "--range"; "1"; "10"]) demo).
Proof. vm_compute. reflexivity. Qed.

Example verbose_absent :
  bind (parse "prog" ["--range"; "1"; "10"]) (fun _ => retrieve bool 0 "verbose") demo
  = Ret false (exec (parse "prog" ["--range"; "1"; "10"]) demo).
Proof. vm_compute. reflexivity. Qed.

(** ** What the extraction of an [int] accepts *)

Lemma is_digit_value c : is_digit c = true <-> is_Some (Stream.digit_value c).
Proof. unfold is_digit. apply bool_decide_eq_true. Qed.

Lemma starts_with_digit_cons c s : Stream.starts_with_digit (String c s) = is_digit c.
Proof. reflexivity. Qed.

Lemma digit_is_plain c :
  is_digit c = true -> isspace c = false /\ c <> "-"%char /\ c <> "+"%char.
Proof.
  intros Hd. repeat split.
  - destruct c as [[] [] [] [] [] [] [] []]; vm_compute in Hd |- *; congruence.
  - intros ->. vm_compute in Hd. discriminate.
  - intros ->. vm_compute in Hd. discriminate.
Qed.

Lemma skipws_split s : exists ws, s = ws ++ Stream.skipws s /\ all_chars isspace ws = true.
Proof.
  induction s as [|c s (ws & Hs & Hws)]; simpl.
  - now exists EmptyString.
  - destruct (isspace c) eqn:Hc.
    + exists (String c ws). rewrite ?app_cons, <- Hs. simpl. now rewrite Hc.
    + now exists EmptyString.
Qed.

Lemma skipws_app ws c t :
  all_chars isspace ws = true -> isspace c = false ->
  Stream.skipws (ws ++ String c t) = String c t.
Proof.
  induction ws as [|w ws IH]; simpl; intros Hws Hc.
  - rewrite ?app_nil_l. simpl. now rewrite Hc.
  - apply andb_true_iff in Hws as [Hw Hws]. rewrite ?app_cons. simpl. rewrite Hw. now apply IH.
Qed.

Lemma digits_split s :
  s = take_digits s ++ drop_digits s /\
  all_chars is_digit (take_digits s) = true /\
  Stream.starts_with_digit (drop_digits s) = false.
Proof.
  induction s as [|c s (Hs & Hall & Hrest)]; simpl; [auto|].
  destruct (is_digit c) eqn:Hc; simpl.
  - rewrite Hc, ?app_cons, <- Hs. auto.
  - rewrite ?app_nil_l. repeat split. exact Hc.
Qed.

Lemma read_digits_app ds rest acc :
  all_chars is_digit ds = true -> Stream.starts_with_digit rest = false ->
  Stream.read_digits (ds ++ rest) acc = Stream.read_digits ds acc.
Proof.
  revert acc. induction ds as [|d ds IH]; simpl; intros acc Hds Hrest.
  - rewrite ?app_nil_l. destruct rest as [|c rest]; [reflexivity|]. simpl.
    rewrite starts_with_digit_cons in Hrest. unfold is_digit in Hrest.
    apply bool_decide_eq_false in Hrest.
    destruct (Stream.digit_value c); [|reflexivity]. exfalso. apply Hrest. eauto.
  - apply andb_true_iff in Hds as [Hd Hds]. rewrite ?app_cons. simpl.
    destruct (Stream.digit_value d); [now apply IH | reflexivity].
Qed.

Lemma take_digits_all ds rest :
  all_chars is_digit ds = true -> Stream.starts_with_digit rest = false ->
  take_digits (ds ++ rest) = ds.
Proof.
  induction ds as [|d ds IH]; simpl; intros Hds Hrest.
  - rewrite ?app_nil_l. destruct rest as [|c rest]; [reflexivity|]. simpl.
    rewrite starts_with_digit_cons in Hrest. now rewrite Hrest.
  - apply andb_true_iff in Hds as [Hd Hds]. rewrite ?app_cons. simpl. rewrite Hd.
    now rewrite IH.
Qed.

Lemma read_sign_cases s :
  (exists r, s = String "-"%char r /\ Stream.read_sign s = (true, r)) \/
  (exists r, s = String "+"%char r /\ Stream.read_sign s = (false, r)) \/
  (Stream.read_sign s = (false, s) /\
   forall r, s <> String "-"%char r /\ s <> String "+"%char r).
Proof.
  destruct s as [|c r]; simpl.
  - right; right. split; [reflexivity | split; discriminate].
  - destruct (bool_decide_reflect (c = "-"%char)) as [->|Hm]; [left; eauto|].
    destruct (bool_decide_reflect (c = "+"%char)) as [->|Hp]; [right; left; eauto|].
    right; right. split; [reflexivity|]. intros r'. split; congruence.
Qed.

Lemma digits_run r :
  Stream.starts_with_digit r = true ->
  exists ds rest,
    r = ds ++ rest /\ ds <> EmptyString /\ all_chars is_digit ds = true /\
    Stream.starts_with_digit rest = false /\
    forall acc, Stream.read_digits r acc = Stream.read_digits ds acc.
Proof.
  intros Hdig. destruct (digits_split r) as (Hsplit & Hall & Hrest).
  exists (take_digits r), (drop_digits r). repeat split; try assumption.
  - destruct r as [|c r]; [discriminate|].
    rewrite starts_with_digit_cons in Hdig. cbn [take_digits]. rewrite Hdig. discriminate.
  - intros acc. rewrite Hsplit at 1. now apply read_digits_app.
Qed.

Lemma extract_integer_reads lo hi s v :
  Stream.extract_integer lo hi s = Some v <-> reads_integer lo hi s v.
Proof.
  unfold Stream.extract_integer, reads_integer. split.
  - destruct (skipws_split s) as (ws & Hs & Hws).
    destruct (read_sign_cases (Stream.skipws s))
      as [(r & Hr & ->)|[(r & Hr & ->)|[-> Hplain]]].
    1: set (sign := "-"). 2: set (sign := "+").
    3: set (sign := EmptyString); set (r := Stream.skipws s) in *;
       assert (Hr : r = sign ++ r) by reflexivity.
    all: destruct (Stream.starts_with_digit r) eqn:Hdig; [|discriminate].
    all: destruct (digits_run r Hdig) as (ds & rest & Hsplit & Hne & Hall & Hrest & Hval).
    all: rewrite !Hval.
    all: destruct (_ && _)%bool eqn:Hrange; [|discriminate]; intros [= <-].
    all: apply andb_true_iff in Hrange as [Hlo%Z.leb_le Hhi%Z.leb_le].
    all: exists ws, sign, ds, rest.
    all: (split; [rewrite Hs at 1; rewrite Hr at 1; now rewrite Hsplit at 1|]).
    all: subst sign; repeat split; auto.
  - intros (ws & sign & ds & rest & -> & Hws & Hsign & Hne & Hds & Hrest & -> & Hlo & Hhi).
    destruct ds as [|d ds]; [congruence|]. clear Hne.
    pose proof Hds as Hd. simpl in Hd. apply andb_true_iff in Hd as [Hd _].
    destruct (digit_is_plain d Hd) as (Hsp & Hminus & Hplus).
    assert (Hrun : forall neg : bool,
      (lo <= (if neg then - Stream.read_digits (String d ds) 0
              else Stream.read_digits (String d ds) 0) <= hi)%Z ->
      (let '(neg, s2) := (neg, String d (ds ++ rest)) in
       if Stream.starts_with_digit s2
       then
         let v := if neg : bool then (- Stream.read_digits s2 0)%Z
                  else Stream.read_digits s2 0 in
         if ((lo <=? v) && (v <=? hi))%Z then Some v else None
       else None)
      = Some (if neg then - Stream.read_digits (String d ds) 0
              else Stream.read_digits (String d ds) 0)%Z).
    { intros neg [Hl Hh]. cbv beta iota zeta.
      rewrite starts_with_digit_cons, Hd. rewrite <- app_cons.
      rewrite read_digits_app by assumption.
      now rewrite (proj2 (Z.leb_le _ _) Hl), (proj2 (Z.leb_le _ _) Hh). }
    destruct Hsign as [->|[->| ->]].
    + rewrite ?app_nil_l, ?app_cons, skipws_app by assumption.
      simpl Stream.read_sign.
      rewrite (bool_decide_eq_false_2 _ Hminus), (bool_decide_eq_false_2 _ Hplus).
      exact (Hrun false (conj Hlo Hhi)).
    + rewrite ?app_cons, ?app_nil_l, skipws_app by (assumption || reflexivity).
      exact (Hrun false (conj Hlo Hhi)).
    + rewrite ?app_cons, ?app_nil_l, skipws_app by (assumption || reflexivity).
      exact (Hrun true (conj Hlo Hhi)).
Qed.

Lemma convert_cases (T : Type) `{Extractable T} argument s :
  (convert T argument s = Throw (conversion_error T argument) s <-> extract argument = None) /\
  (forall v, convert T argument s = Ret v s <-> extract argument = Some v).
Proof.
  unfold convert, ret, throw. destruct (extract argument) as [v0|]; split.
  - split; discriminate.
  - intros v. split; [intros [= ->]; reflexivity | intros [= ->]; reflexivity].
  - split; reflexivity.
  - intros v. split; discriminate.
Qed.

(** C4 (counterexample).  The first field of the stored value of [range]
    is ["5x"]; converting it to [int] does not throw: the conversion reads
    5 and leaves the [x]. *)
Lemma trailing_text_accepted_counterexample :
  field_read (exec (parse "prog" ["--range"; "5x"; "7"]) demo) 0 "range" = Some "5x" /\
  retrieve cpp_int 0 "range" (exec (parse "prog" ["--range"; "5x"; "7"]) demo)
  = Ret 5%Z (exec (parse "prog" ["--range"; "5x"; "7"]) demo) /\
  ~ (exists e s', retrieve cpp_int 0 "range" (exec (parse "prog" ["--range"; "5x"; "7"]) demo)
                  = Throw e s' /\ is_conversion_error e).
Proof.
  assert (Hrun : retrieve cpp_int 0 "range" (exec (parse "prog" ["--range"; "5x"; "7"]) demo)
                 = Ret 5%Z (exec (parse "prog" ["--range"; "5x"; "7"]) demo))
    by (vm_compute; reflexivity).
  split; [vm_compute; reflexivity|]. split; [exact Hrun|].
  intros (e & s' & Hthrow & _). rewrite Hrun in Hthrow. discriminate.
Qed.

(** C4 (amended).  When [retrieve<T, n>(name)] has a string to convert,
    it throws the conversion error exactly when the stream extraction of a
    [T] from that string fails, and returns what the extraction reads
    otherwise.  For [int] the extraction succeeds exactly when the string
    is white space, an optional sign and a run of decimal digits whose
    value fits, followed by anything: text after the digits is not
    rejected. *)
Theorem conversion_fails_iff_extraction_fails (s : state) (n : N) (name argument : string) :
  short_value s name ->
  field_read s n name = Some argument ->
  (forall (T : Type) (HT : Extractable T),
     (retrieve T n name s = Throw (conversion_error T argument) s <-> extract argument = None) /\
     (forall v, retrieve T n name s = Ret v s <-> extract argument = Some v)) /\
  (retrieve cpp_int n name s = Throw (conversion_error cpp_int argument) s
   <-> ~ exists v, reads_int argument v) /\
  (forall v, retrieve cpp_int n name s = Ret v s <-> reads_int argument v).
Proof.
  intros Hshort Hfield.
  assert (Hgen : forall (T : Type) (HT : Extractable T),
     (retrieve T n name s = Throw (conversion_error T argument) s <-> extract argument = None) /\
     (forall v, retrieve T n name s = Ret v s <-> extract argument = Some v)).
  { intros T HT. rewrite retrieve_eq, Hfield by exact Hshort. apply convert_cases. }
  split; [exact Hgen|]. destruct (Hgen cpp_int _) as [Hfail Hok]. split.
  - rewrite Hfail. simpl. unfold Stream.extract_int. split.
    + intros Hnone (v & Hv%extract_integer_reads). congruence.
    + intros Hno. destruct (Stream.extract_integer _ _ argument) as [v|] eqn:Hv;
        [|reflexivity].
      exfalso. apply Hno. exists v. now apply extract_integer_reads.
  - intros v. rewrite Hok. apply extract_integer_reads.
Qed.

Lemma conversion_fails_iff_extraction_fails_witness :
  retrieve cpp_int 0 "range" (exec (parse "prog" ["--range"; "5x"; "7"]) demo)
  = Ret 5%Z (exec (parse "prog" ["--range"; "5x"; "7"]) demo) /\
  retrieve cpp_int 0 "range" (exec (parse "prog" ["--range"; "x5"; "7"]) demo)
  = Throw (conversion_error cpp_int "x5") (exec (parse "prog" ["--range"; "x5"; "7"]) demo).
Proof.
  split.
  - refine (proj2 (proj2 (proj1 (conversion_fails_iff_extraction_fails
              (exec (parse "prog" ["--range"; "5x"; "7"]) demo) 0 "range" "5x" _ _)
              cpp_int _) 5%Z) _).
    + split.
      * intros raw Hraw. vm_compute in Hraw. injection Hraw as <-. vm_compute. reflexivity.
      * intros p Hp. vm_compute in Hp. injection Hp as <-. vm_compute. reflexivity.
    + vm_compute. reflexivity.
    + vm_compute. reflexivity.
  - refine (proj2 (proj1 (proj1 (conversion_fails_iff_extraction_fails
              (exec (parse "prog" ["--range"; "x5"; "7"]) demo) 0 "range" "x5" _ _)
              cpp_int _)) _).
    + split.
      * intros raw Hraw. vm_compute in Hraw. injection Hraw as <-. vm_compute. reflexivity.
      * intros p Hp. vm_compute in Hp. injection Hp as <-. vm_compute. reflexivity.
    + vm_compute. reflexivity.
    + vm_compute. reflexivity.
Defined.

(** ** What [dump] writes *)

Lemma dump_options_lines opts vals :
  dump_options opts vals = concat_strings (omap (dump_line vals) opts).
Proof.
  induction opts as [|[key p] opts IH]; simpl; [reflexivity|]. rewrite IH.
  unfold dump_line. simpl. destruct (vals !! key); [reflexivity|].
  destruct (user_option p); reflexivity.
Qed.

Lemma dump_eq stamp pathname s old :
  open_append (disk s) pathname = Some old ->
  dump stamp pathname s
  = Ret tt (set_disk (<[pathname := Regular (old ++ dump_header stamp
                                               ++ dump_options (options s) (values s) ++ nl)]>
                        (disk s)) s).
Proof. intros Hopen. unfold dump, bind, gets, modify. now rewrite Hopen. Qed.

(** C5 (counterexample).  [range] is user-defined, has an empty default and
    no entry in the store of [demo]; [dump] writes the line [range: ] for
    it all the same. *)
Lemma dump_writes_empty_default_counterexample :
  options_find "range" (options demo)
  = Some (mk_parameters 2 EmptyString "Lower and upper bound" true) /\
  values demo !! "range" = None /\
  dump_line (values demo) ("range", mk_parameters 2 EmptyString "Lower and upper bound" true)
  = Some ("range: " ++ nl) /\
  disk (exec (dump demo_stamp "out") demo) !! "out"
  = Some (Regular (nl ++ "# Created automaticaly by optparse on Sun Oct 17 04:41:13 2010"
                   ++ nl ++ nl
                   ++ "count: 1" ++ nl ++ "range: " ++ nl ++ "verbose: 0" ++ nl ++ nl)).
Proof. repeat split; vm_compute; reflexivity. Qed.

(** C5 (amended).  [dump] appends to the file its comment header, then, in
    registry order, the line [name: value] for every option that has an
    entry in the value store and the line [name: default] for every
    user-defined option that has none, whether its default is empty or not,
    and nothing for the options that are neither; then an empty line. *)
Theorem dump_writes_set_and_user_options (stamp : option string) (pathname : string)
    (s : state) (old : string) :
  open_append (disk s) pathname = Some old ->
  exists s',
    dump stamp pathname s = Ret tt s' /\
    disk s' !! pathname
    = Some (Regular (old ++ dump_header stamp
                     ++ concat_strings (omap (dump_line (values s)) (options s)) ++ nl)) /\
    options s' = options s /\ values s' = values s /\
    (forall name p,
       dump_line (values s) (name, p)
       = match values s !! name with
         | Some v => Some (name ++ ": " ++ v ++ nl)
         | None => if user_option p then Some (name ++ ": " ++ default_value p ++ nl) else None
         end).
Proof.
  intros Hopen. eexists. split; [apply dump_eq, Hopen|]. simpl.
  rewrite lookup_insert_eq, dump_options_lines. auto.
Qed.

Lemma dump_writes_set_and_user_options_witness :
  exists s',
    dump demo_stamp "out" demo = Ret tt s' /\
    disk s' !! "out"
    = Some (Regular (EmptyString ++ dump_header demo_stamp
                     ++ concat_strings (omap (dump_line (values demo)) (options demo)) ++ nl)) /\
    options s' = options demo /\ values s' = values demo /\
    (forall name p,
       dump_line (values demo) (name, p)
       = match values demo !! name with
         | Some v => Some (name ++ ": " ++ v ++ nl)
         | None => if user_option p then Some (name ++ ": " ++ default_value p ++ nl) else None
         end).
Proof.
  apply (dump_writes_set_and_user_options demo_stamp "out" demo EmptyString).
  vm_compute. reflexivity.
Defined.

(** ** Lines of a configuration file without a colon *)

Lemma find_absent c s : first_index c s = None -> find c s 0 = Mach.npos.
Proof. intros H. unfold find. rewrite find_go_from by lia. now rewrite H. Qed.

Lemma substr_whole s :
  (size s <= Mach.npos)%N -> substr s 0 Mach.npos = Some s.
Proof.
  intros Hsize. change 0%N with (N.of_nat 0). rewrite substr_spec by lia.
  simpl drop. f_equal. apply take_all. unfold size in Hsize. lia.
Qed.

Lemma load_line_colon_free raw acc s :
  colon_free raw ->
  load_line raw acc s
  = match options_find (remove_if isspace raw) (options s) with
    | None => Throw (unexpected_option (remove_if isspace raw)) s
    | Some _ =>
        match acc !! remove_if isspace raw with
        | Some _ => Throw (duplicate_in_file (remove_if isspace raw)) s
        | None => Ret (<[remove_if isspace raw := remove_if isspace raw]> acc) s
        end
    end.
Proof.
  intros (Hne & Hcomment & Hcolon & Hsize). unfold load_line.
  destruct (remove_if isspace raw) as [|c line] eqn:Hline; [congruence|].
  destruct (bool_decide_reflect (c = "#"%char)) as [->|_]; [now destruct (Hcomment line)|].
  rewrite (find_absent _ _ Hcolon).
  change (Mach.wrap_size (Z.of_N Mach.npos + 1)) with 0%N.
  unfold bind, substr_or_throw, gets. rewrite (substr_whole _ Hsize). simpl.
  destruct (options_find _ (options s)); [|reflexivity].
  destruct (acc !! _); reflexivity.
Qed.

Lemma load_line_grows raw acc s acc' s' :
  load_line raw acc s = Ret acc' s' -> s' = s /\ acc ⊆ acc'.
Proof.
  intros H. split.
  { symmetry. exact (respects_Ret eq _ _ _ _ (respects_eq_load_line raw acc) H). }
  revert H. unfold load_line.
  destruct (remove_if isspace raw) as [|c line]; [intros [= <- _]; reflexivity|].
  destruct (bool_decide _); [intros [= <- _]; reflexivity|].
  unfold bind, substr_or_throw, gets.
  destruct (substr _ 0 _) as [key|]; [|discriminate]. simpl.
  destruct (substr _ _ _) as [value|]; [|discriminate]. simpl.
  destruct (options_find key (options s)); [|discriminate].
  destruct (acc !! key) eqn:Hfree; [discriminate|].
  intros [= <- _]. now apply insert_subseteq.
Qed.

Lemma load_lines_grows ls : forall acc s loaded s',
  load_lines ls acc s = Ret loaded s' -> s' = s /\ acc ⊆ loaded.
Proof.
  induction ls as [|l ls IH]; simpl; intros acc s loaded s'.
  - intros [= <- <-]. split; reflexivity.
  - unfold bind. destruct (load_line l acc s) as [acc1 s1| |] eqn:Hl; [|discriminate..].
    apply load_line_grows in Hl as [-> Hsub]. intros [-> Hsub']%IH.
    split; [reflexivity | etrans; eassumption].
Qed.

Lemma load_lines_app pre post acc s :
  load_lines (pre ++ post)%list acc s
  = match load_lines pre acc s with
    | Ret acc' s' => load_lines post acc' s'
    | Throw e s' => Throw e s'
    | Undefined => Undefined
    end.
Proof.
  revert acc s. induction pre as [|l pre IH]; intros acc s; simpl; [reflexivity|].
  unfold bind. destruct (load_line l acc s); [apply IH | reflexivity..].
Qed.

Lemma load_eq pathname s data :
  open_read (disk s) pathname = Some data ->
  load pathname s = load_lines (getlines data) ∅ s.
Proof. intros H. unfold load, bind, gets. now rewrite H. Qed.

(** C9.  A line of the file that is not blank, not a comment and holds no
    colon is taken whole, white space removed, both as key and as value
    ([npos + 1] wraps to 0).  If it is a registered name, the step stores
    the name under itself (unless the name came earlier in the file, a
    duplicate), and every mapping [load] returns holds that entry; if it is
    not, the step throws the unexpected-option error, which [load] throws
    once the lines before it are read, and [load] returns no mapping. *)
Theorem colon_free_line_is_its_own_value (raw : string) (s : state) :
  colon_free raw ->
  (forall acc,
     load_line raw acc s
     = match options_find (remove_if isspace raw) (options s) with
       | None => Throw (unexpected_option (remove_if isspace raw)) s
       | Some _ =>
           match acc !! remove_if isspace raw with
           | Some _ => Throw (duplicate_in_file (remove_if isspace raw)) s
           | None => Ret (<[remove_if isspace raw := remove_if isspace raw]> acc) s
           end
       end) /\
  (forall pathname data pre post,
     open_read (disk s) pathname = Some data ->
     getlines data = (pre ++ raw :: post)%list ->
     (forall loaded s', load pathname s = Ret loaded s' ->
        is_Some (options_find (remove_if isspace raw) (options s)) /\
        loaded !! remove_if isspace raw = Some (remove_if isspace raw)) /\
     (options_find (remove_if isspace raw) (options s) = None ->
        forall acc s1, load_lines pre ∅ s = Ret acc s1 ->
        load pathname s = Throw (unexpected_option (remove_if isspace raw)) s)).
Proof.
  intros Hraw. split; [intros acc; now apply load_line_colon_free|].
  intros pathname data pre post Hopen Hlines.
  rewrite (load_eq _ _ _ Hopen), Hlines, load_lines_app. split.
  - intros loaded s'.
    destruct (load_lines pre ∅ s) as [acc s1| |] eqn:Hpre; [|discriminate..].
    apply load_lines_grows in Hpre as [-> _]. simpl. unfold bind.
    rewrite (load_line_colon_free _ _ _ Hraw).
    destruct (options_find _ (options s)); [|discriminate].
    destruct (acc !! _); [discriminate|].
    intros [_ Hsub]%load_lines_grows. split; [eauto|].
    eapply lookup_weaken; [apply lookup_insert_eq | exact Hsub].
  - intros Hnone acc s1 Hpre. rewrite Hpre.
    apply load_lines_grows in Hpre as [-> _]. simpl. unfold bind.
    now rewrite (load_line_colon_free _ _ _ Hraw), Hnone.
Qed.

Lemma demo_colon_free_verbose : colon_free " verbose ".
Proof.
  repeat split; try (intros t); vm_compute; discriminate.
Qed.

Lemma demo_colon_free_bogus : colon_free "bogus".
Proof.
  repeat split; try (intros t); vm_compute; discriminate.
Qed.

Lemma colon_free_line_is_its_own_value_witness :
  load_line " verbose " ∅ demo = Ret {[ "verbose" := "verbose" ]} demo /\
  load "bad" demo = Throw (unexpected_option "bogus") demo.
Proof.
  split.
  - rewrite (proj1 (colon_free_line_is_its_own_value " verbose " demo demo_colon_free_verbose) ∅).
    vm_compute. reflexivity.
  - refine (proj2 (proj2 (colon_free_line_is_its_own_value "bogus" demo demo_colon_free_bogus)
                     "bad" ("count: 2" ++ nl ++ "bogus" ++ nl) ["count: 2"] [] _ _)
              _ {[ "count" := "2" ]} demo _).
    + vm_compute. reflexivity.
    + vm_compute. reflexivity.
    + vm_compute. reflexivity.
    + vm_compute. reflexivity.
Defined.

Example load_flags_file : load "flags" demo = Ret {[ "verbose" := "verbose" ]} demo.
Proof. vm_compute. reflexivity. Qed.

(** ** Dumping, then loading *)

Lemma remove_if_app p a b : remove_if p (a ++ b) = remove_if p a ++ remove_if p b.
Proof.
  induction a as [|c a IH]; [reflexivity|]. rewrite app_cons. simpl.
  destruct (p c); [exact IH | now rewrite app_cons, IH].
Qed.

Lemma remove_if_id p k : all_chars (fun c => negb (p c)) k = true -> remove_if p k = k.
Proof.
  induction k as [|c k IH]; simpl; [reflexivity|].
  intros [Hc Hk]%andb_true_iff. apply negb_true_iff in Hc. rewrite Hc. now rewrite IH.
Qed.

Lemma first_index_app c k t :
  first_index c k = None -> first_index c (k ++ String c t) = Some (String.length k).
Proof.
  induction k as [|a k IH]; simpl.
  - intros _. rewrite ?app_nil_l. simpl. now rewrite bool_decide_eq_true_2.
  - rewrite ?app_cons. simpl. destruct (bool_decide (a = c)); [discriminate|].
    destruct (first_index c k); [discriminate|]. intros _. now rewrite IH.
Qed.

Lemma take_app k t : take (String.length k) (k ++ t) = k.
Proof.
  induction k as [|a k IH]; simpl.
  - rewrite ?app_nil_l. now destruct t.
  - rewrite ?app_cons. simpl. now rewrite IH.
Qed.

Lemma drop_app k t : drop (String.length k) (k ++ t) = t.
Proof.
  induction k as [|a k IH]; simpl; [now rewrite ?app_nil_l|].
  rewrite ?app_cons. simpl. exact IH.
Qed.

Lemma getlines_line l rest :
  first_index "010"%char l = None -> getlines (l ++ nl ++ rest) = l :: getlines rest.
Proof.
  induction l as [|a l IH]; simpl.
  - intros _. reflexivity.
  - rewrite ?app_cons. simpl.
    destruct (bool_decide (a = "010"%char)); [discriminate|].
    destruct (first_index _ l); [discriminate|]. intros _. now rewrite IH.
Qed.

Lemma length_remove_if p x : (String.length (remove_if p x) <= String.length x)%nat.
Proof. induction x as [|c x IH]; simpl; [lia|]. destruct (p c); simpl; lia. Qed.

Lemma load_line_skipped raw acc s : skipped raw -> load_line raw acc s = Ret acc s.
Proof.
  unfold load_line. intros [-> | [t ->]]; reflexivity.
Qed.

Lemma load_lines_skipped ls acc s : Forall skipped ls -> load_lines ls acc s = Ret acc s.
Proof.
  induction 1 as [|l ls Hl _ IH]; simpl; [reflexivity|].
  unfold bind. now rewrite (load_line_skipped _ _ _ Hl).
Qed.

Lemma load_line_data raw acc s :
  remove_if isspace raw <> EmptyString ->
  (forall t, remove_if isspace raw <> String "#"%char t) ->
  load_line raw acc s = load_data (remove_if isspace raw) acc s.
Proof.
  intros Hne Hhash. unfold load_line.
  destruct (remove_if isspace raw) as [|c line]; [congruence|].
  destruct (bool_decide_reflect (c = "#"%char)) as [->|_]; [now destruct (Hhash line)|].
  reflexivity.
Qed.

Lemma load_line_entry k v acc s :
  plain_name k ->
  (size (k ++ ": " ++ v) < Mach.npos)%N ->
  is_Some (options_find k (options s)) ->
  acc !! k = None ->
  load_line (k ++ ": " ++ v) acc s = Ret (<[k := remove_if isspace v]> acc) s.
Proof.
  intros (Hws & Hcolon & Hhash) Hsize [p Hp] Hfree.
  assert (Hstrip : remove_if isspace (k ++ ": " ++ v) = k ++ String ":"%char (remove_if isspace v)).
  { rewrite remove_if_app, (remove_if_id _ _ Hws). reflexivity. }
  pose proof (length_remove_if isspace (k ++ ": " ++ v)) as Hlen.
  rewrite load_line_data; rewrite Hstrip in *.
  2:{ destruct k; discriminate. }
  2:{ intros t Ht. destruct k as [|c k]; [discriminate|]. rewrite app_cons in Ht.
      injection Ht as -> _. now destruct (Hhash k). }
  set (sv := remove_if isspace v) in *.
  assert (Hk : String.length (k ++ String ":"%char sv) = S (String.length k + String.length sv)).
  { rewrite length_app. simpl. lia. }
  unfold size, Mach.npos in Hsize. unfold load_data.
  change 0%N with (N.of_nat 0). rewrite find_spec by lia. simpl drop.
  rewrite (first_index_app _ _ _ Hcolon). simpl Nat.add.
  unfold bind, substr_or_throw, gets.
  rewrite substr_spec by lia. simpl drop.
  replace (N.to_nat (N.min _ _)) with (String.length k) by lia.
  rewrite take_app. simpl.
  replace (Mach.wrap_size (Z.of_N (N.of_nat (String.length k)) + 1))
    with (N.of_nat (S (String.length k))).
  2:{ unfold Mach.wrap_size. rewrite Z.mod_small by lia. lia. }
  rewrite substr_spec by lia.
  assert (Hdrop : drop (S (String.length k)) (k ++ String ":"%char sv) = sv).
  { replace (S (String.length k)) with (String.length (k ++ ":"))
      by (rewrite length_app; simpl; lia).
    replace (k ++ String ":"%char sv) with ((k ++ ":") ++ sv) by (now rewrite app_assoc).
    apply drop_app. }
  rewrite Hdrop, take_all by (unfold Mach.npos; lia).
  simpl. rewrite Hp, Hfree. reflexivity.
Qed.

Lemma first_index_app_None c a b :
  first_index c a = None -> first_index c b = None -> first_index c (a ++ b) = None.
Proof.
  induction a as [|x a IH]; simpl; [now rewrite ?app_nil_l|].
  rewrite ?app_cons. simpl. destruct (bool_decide (x = c)); [discriminate|].
  destruct (first_index c a); [discriminate|]. intros _ Hb. now rewrite IH.
Qed.

Lemma no_space_no_newline k :
  all_chars (fun c => negb (isspace c)) k = true -> first_index "010"%char k = None.
Proof.
  induction k as [|c k IH]; simpl; [reflexivity|].
  intros [Hc Hk]%andb_true_iff.
  destruct (bool_decide_reflect (c = "010"%char)) as [->|_]; [discriminate|].
  now rewrite IH.
Qed.

Lemma loaded_from_other opts vals : forall acc k,
  k ∉ opts.*1 -> loaded_from opts vals acc !! k = acc !! k.
Proof.
  induction opts as [|[k0 p0] opts IH]; intros acc k Hk; simpl; [reflexivity|].
  apply not_elem_of_cons in Hk as [Hne Hk]. simpl in Hne. rewrite IH by exact Hk.
  destruct (dump_value vals k0 p0); [|reflexivity]. now rewrite lookup_insert_ne.
Qed.

Lemma loaded_from_lookup opts vals : forall acc k p,
  NoDup opts.*1 -> (forall k', k' ∈ opts.*1 -> acc !! k' = None) -> (k, p) ∈ opts ->
  loaded_from opts vals acc !! k = remove_if isspace <$> dump_value vals k p.
Proof.
  induction opts as [|[k0 p0] opts IH]; intros acc k p Hnd Hacc Hin; simpl.
  - now apply elem_of_nil in Hin.
  - apply NoDup_cons in Hnd as [Hk0 Hnd]. apply elem_of_cons in Hin as [[= -> ->]|Hin].
    + rewrite loaded_from_other by exact Hk0.
      destruct (dump_value vals k0 p0); simpl; [apply lookup_insert_eq|].
      apply Hacc. apply elem_of_cons. now left.
    + apply IH; [exact Hnd | | exact Hin].
      intros k' Hk'. assert (k0 <> k') by (intros ->; contradiction).
      destruct (dump_value vals k0 p0); [rewrite lookup_insert_ne by assumption|];
        apply Hacc; apply elem_of_cons; now right.
Qed.

Lemma load_dumped vals s opts : forall acc rest,
  NoDup opts.*1 ->
  (forall k, k ∈ opts.*1 -> acc !! k = None) ->
  (forall k, k ∈ opts.*1 -> is_Some (options_find k (options s))) ->
  (forall k p v, (k, p) ∈ opts -> dump_value vals k p = Some v -> round_trips k v) ->
  load_lines (getlines (dump_options opts vals ++ rest)) acc s
  = load_lines (getlines rest) (loaded_from opts vals acc) s.
Proof.
  induction opts as [|[k p] opts IH]; intros acc rest Hnd Hacc Hreg Hok; simpl;
    [now rewrite ?app_nil_l|].
  apply NoDup_cons in Hnd as [Hk Hnd].
  assert (Hline : forall v, dump_value vals k p = Some v ->
            load_lines (getlines ((k ++ ": " ++ v ++ nl) ++ dump_options opts vals ++ rest)) acc s
            = load_lines (getlines rest)
                (loaded_from opts vals (<[k := remove_if isspace v]> acc)) s).
  { intros v Hv.
    destruct (Hok k p v) as (Hplain & Hnl & Hsize); [apply elem_of_cons; now left | exact Hv |].
    replace ((k ++ ": " ++ v ++ nl) ++ dump_options opts vals ++ rest)
      with ((k ++ ": " ++ v) ++ nl ++ dump_options opts vals ++ rest)
      by (now rewrite !app_assoc).
    rewrite getlines_line.
    2:{ apply first_index_app_None; [apply no_space_no_newline, Hplain|].
        apply first_index_app_None; [reflexivity | exact Hnl]. }
    simpl. unfold bind. rewrite load_line_entry; try assumption.
    - apply IH; [exact Hnd | | | ].
      + intros k' Hk'. rewrite lookup_insert_ne by (intros ->; contradiction).
        apply Hacc. apply elem_of_cons. now right.
      + intros k' Hk'. apply Hreg. apply elem_of_cons. now right.
      + intros k' p' v' Hin. apply Hok. apply elem_of_cons. now right.
    - apply Hreg. apply elem_of_cons. now left.
    - apply Hacc. apply elem_of_cons. now left. }
  rewrite app_assoc. unfold dump_value in *.
  destruct (vals !! k) as [v|]; [now apply Hline|].
  destruct (user_option p); [now apply Hline|].
  rewrite ?app_nil_l. apply IH; [exact Hnd | | | ].
  - intros k' Hk'. apply Hacc. apply elem_of_cons. now right.
  - intros k' Hk'. apply Hreg. apply elem_of_cons. now right.
  - intros k' p' v' Hin. apply Hok. apply elem_of_cons. now right.
Qed.

Lemma getlines_nil s : getlines s = [] -> s = EmptyString.
Proof.
  destruct s as [|a s]; [reflexivity|]. simpl.
  destruct (bool_decide _); [discriminate|]. destruct (getlines s); discriminate.
Qed.

(** The newline [dump] starts with ends the last line of what the file
    held, or adds an empty line to it. *)
Lemma getlines_append_nl old rest :
  exists pad, getlines (old ++ nl ++ rest) = (getlines old ++ pad ++ getlines rest)%list /\
              Forall skipped pad.
Proof.
  induction old as [|a old (pad & IH & Hpad)].
  - exists [EmptyString]. split; [reflexivity|]. repeat constructor.
  - rewrite app_cons. simpl. destruct (bool_decide (a = "010"%char)).
    + exists pad. rewrite IH. split; [reflexivity | exact Hpad].
    + destruct (getlines old) as [|l ls] eqn:Hold.
      * apply getlines_nil in Hold as ->. exists []. split; [reflexivity | constructor].
      * exists pad. rewrite IH. split; [reflexivity | exact Hpad].
Qed.

Lemma dump_then_load_eq stamp pathname s old :
  NoDup (options s).*1 ->
  open_append (disk s) pathname = Some old ->
  Forall skipped (getlines old) ->
  (forall t, stamp = Some t -> first_index "010"%char t = None) ->
  (forall k p v, (k, p) ∈ options s -> dump_value (values s) k p = Some v -> round_trips k v) ->
  bind (dump stamp pathname) (fun _ => load pathname) s
  = Ret (loaded_from (options s) (values s) ∅) (exec (dump stamp pathname) s).
Proof.
  intros Hnd Hopen Hold Hstamp Hok.
  unfold bind, exec. rewrite (dump_eq _ _ _ _ Hopen).
  set (body := dump_options (options s) (values s)).
  set (comment := match stamp with
                  | Some t => "# Created automaticaly by optparse on " ++ t
                  | None => "# Created automaticaly by optparse"
                  end).
  assert (Hcontent : old ++ dump_header stamp ++ body ++ nl
                     = old ++ nl ++ comment ++ nl ++ EmptyString ++ nl ++ body ++ nl).
  { unfold dump_header, comment. destruct stamp; rewrite ?app_assoc; reflexivity. }
  rewrite Hcontent.
  set (s_d := set_disk _ s).
  rewrite (load_eq pathname s_d (old ++ nl ++ comment ++ nl ++ EmptyString ++ nl ++ body ++ nl)).
  2:{ unfold open_read, s_d. simpl. now rewrite lookup_insert_eq. }
  destruct (getlines_append_nl old (comment ++ nl ++ EmptyString ++ nl ++ body ++ nl))
    as (pad & -> & Hpad).
  rewrite load_lines_app, (load_lines_skipped _ _ _ Hold). cbv beta iota.
  rewrite load_lines_app, (load_lines_skipped _ _ _ Hpad). cbv beta iota.
  rewrite getlines_line.
  2:{ unfold comment. destruct stamp as [t|]; [|reflexivity].
      apply first_index_app_None; [reflexivity | now apply Hstamp]. }
  rewrite getlines_line by reflexivity.
  assert (Hcomment : skipped comment).
  { right. unfold comment. destruct stamp as [t|].
    - rewrite remove_if_app.
      replace (remove_if isspace "# Created automaticaly by optparse on ")
        with "#Createdautomaticalybyoptparseon" by (vm_compute; reflexivity).
      exists ("Createdautomaticalybyoptparseon" ++ remove_if isspace t). reflexivity.
    - exists "Createdautomaticalybyoptparse". vm_compute. reflexivity. }
  simpl load_lines. unfold bind.
  rewrite (load_line_skipped _ _ _ Hcomment).
  rewrite (load_line_skipped EmptyString) by (now left).
  unfold body. rewrite load_dumped; try assumption.
  - reflexivity.
  - intros k _. apply lookup_empty.
  - intros k Hk. destruct (options_find k (options s_d)) eqn:Hfind; [eauto|].
    apply options_find_None in Hfind. contradiction.
Qed.

(** C8 (counterexample).  The store holds [count = 5], a value without
    spaces.  The path already holds a dump of it; a second dump appends
    the same line, and the [load] that follows throws the duplicate-option
    error instead of returning a mapping. *)
Lemma second_dump_breaks_load_counterexample :
  values solo_parsed = {[ "count" := "5" ]} /\
  disk solo_dumped !! "out"
  = Some (Regular (nl ++ "# Created automaticaly by optparse on Sun Oct 17 04:41:13 2010"
                   ++ nl ++ nl ++ "count: 5" ++ nl ++ nl)) /\
  bind (dump demo_stamp "out") (fun _ => load "out") solo_dumped
  = Throw (duplicate_in_file "count") (exec (dump demo_stamp "out") solo_dumped) /\
  ~ (exists loaded s', bind (dump demo_stamp "out") (fun _ => load "out") solo_dumped
                       = Ret loaded s').
Proof.
  assert (Hrun : bind (dump demo_stamp "out") (fun _ => load "out") solo_dumped
                 = Throw (duplicate_in_file "count") (exec (dump demo_stamp "out") solo_dumped))
    by (vm_compute; reflexivity).
  split; [vm_compute; reflexivity|]. split; [vm_compute; reflexivity|].
  split; [exact Hrun|]. intros (loaded & s' & Hret). rewrite Hrun in Hret. discriminate.
Qed.

(** C8 (amended).  Let the option names be plain (no white space, no
    colon, no leading [#]), the texts [dump] writes hold no newline, and the
    file at the path be absent or hold only blank and comment lines.  Then
    [dump] to the path followed by [load] of the path returns a mapping
    that gives every option with an entry in the store its stored value,
    and every user-defined option without entry its default, each with its
    white space removed; it has no entry for a built-in without entry. *)
Theorem dump_then_load_round_trip (stamp : option string) (pathname : string)
    (s : state) (old : string) :
  NoDup (options s).*1 ->
  open_append (disk s) pathname = Some old ->
  Forall skipped (getlines old) ->
  (forall t, stamp = Some t -> first_index "010"%char t = None) ->
  (forall k p v, (k, p) ∈ options s -> dump_value (values s) k p = Some v -> round_trips k v) ->
  exists loaded s',
    bind (dump stamp pathname) (fun _ => load pathname) s = Ret loaded s' /\
    (forall k p v, (k, p) ∈ options s -> values s !! k = Some v ->
       loaded !! k = Some (remove_if isspace v)) /\
    (forall k p, (k, p) ∈ options s -> values s !! k = None -> user_option p = true ->
       loaded !! k = Some (remove_if isspace (default_value p))) /\
    (forall k p, (k, p) ∈ options s -> values s !! k = None -> user_option p = false ->
       loaded !! k = None).
Proof.
  intros Hnd Hopen Hold Hstamp Hok.
  exists (loaded_from (options s) (values s) ∅), (exec (dump stamp pathname) s).
  split; [now apply dump_then_load_eq with (old := old)|].
  assert (Hlook : forall k p, (k, p) ∈ options s ->
            loaded_from (options s) (values s) ∅ !! k
            = remove_if isspace <$> dump_value (values s) k p).
  { intros k p Hin. apply loaded_from_lookup; [exact Hnd | | exact Hin].
    intros k' _. apply lookup_empty. }
  repeat split.
  - intros k p v Hin Hv. rewrite (Hlook k p Hin). unfold dump_value. now rewrite Hv.
  - intros k p Hin Hv Hu. rewrite (Hlook k p Hin). unfold dump_value. now rewrite Hv, Hu.
  - intros k p Hin Hv Hu. rewrite (Hlook k p Hin). unfold dump_value. now rewrite Hv, Hu.
Qed.

Lemma solo_round_trips k p v :
  (k, p) ∈ options solo_parsed -> dump_value (values solo_parsed) k p = Some v ->
  round_trips k v.
Proof.
  intros Hin Hv. vm_compute in Hin.
  repeat (apply elem_of_cons in Hin as [[= -> ->]|Hin]);
    [| | |now apply elem_of_nil in Hin];
    vm_compute in Hv; try discriminate.
  injection Hv as <-. repeat split; try (intros t); vm_compute; discriminate.
Qed.

Lemma dump_then_load_round_trip_witness :
  exists loaded s',
    bind (dump demo_stamp "out") (fun _ => load "out") solo_parsed = Ret loaded s' /\
    loaded !! "count" = Some "5".
Proof.
  destruct (dump_then_load_round_trip demo_stamp "out" solo_parsed EmptyString)
    as (loaded & s' & Hrun & Hset & _).
  - apply (@bool_decide_unpack _ (NoDup_dec _)). vm_compute. exact I.
  - vm_compute. reflexivity.
  - constructor.
  - intros t [= <-]. vm_compute. reflexivity.
  - apply solo_round_trips.
  - exists loaded, s'. split; [exact Hrun|].
    apply (Hset "count" (mk_parameters 1 EmptyString "How many" true) "5").
    + vm_compute. apply elem_of_cons. now left.
    + vm_compute. reflexivity.
Defined.

(** The first dump of the run above does make the trip. *)
Example first_dump_loads :
  bind (dump demo_stamp "out") (fun _ => load "out") solo_parsed
  = Ret {[ "count" := "5" ]} solo_dumped.
Proof. vm_compute. reflexivity. Qed.

(** ** [parse] returns *)

Lemma read_value_defined p rest s :
  (nargs p < 2147483647)%N -> read_value p rest s <> Undefined.
Proof.
  intros Hn. unfold read_value.
  destruct (nargs p =? 0)%N eqn:H0; [discriminate|]. apply N.eqb_neq in H0.
  rewrite to_int_small by lia.
  destruct (Z.eqb_spec (Z.of_N (nargs p)) Mach.INT_MAX) as [Hmax|_];
    [unfold Mach.INT_MAX in Hmax; lia|].
  destruct (Z.ltb_spec (Z.of_nat (S (length rest))) (Z.of_N (nargs p) + 1)); [discriminate|].
  destruct rest as [|v rest]; [simpl in *; lia|].
  destruct (Z.to_nat (Z.max 1 (Z.of_N (nargs p)))) eqn:Hcnt; [lia|]. discriminate.
Qed.

Lemma load_line_defined raw acc s : load_line raw acc s <> Undefined.
Proof.
  unfold load_line. destruct (remove_if isspace raw) as [|c line]; [discriminate|].
  destruct (bool_decide _); [discriminate|].
  unfold bind, substr_or_throw, gets.
  destruct (substr _ 0 _); [|discriminate]. simpl.
  destruct (substr _ _ _); [|discriminate]. simpl.
  destruct (options_find _ _); [|discriminate]. destruct (acc !! _); discriminate.
Qed.

Lemma load_lines_defined ls : forall acc s, load_lines ls acc s <> Undefined.
Proof.
  induction ls as [|l ls IH]; intros acc s; simpl; [discriminate|].
  unfold bind. pose proof (load_line_defined l acc s).
  destruct (load_line l acc s); [apply IH | discriminate | congruence].
Qed.

Lemma load_defined pathname s : load pathname s <> Undefined.
Proof.
  unfold load, bind, gets.
  destruct (open_read _ _); [apply load_lines_defined | discriminate].
Qed.

Lemma parse_args_defined toks : forall skip s,
  sane_arities (options s) -> parse_args toks skip s <> Undefined.
Proof.
  induction toks as [|tok rest IH]; intros skip s Hsane; simpl; [discriminate|].
  destruct skip as [|skip']; [|now apply IH].
  destruct (strspn_dash tok =? 0)%nat; [discriminate|].
  destruct (bool_decide _); [rewrite usage_eq; discriminate|].
  unfold bind, gets.
  destruct (options_find _ (options s)) as [p|] eqn:Hfind; [|discriminate].
  pose proof (read_value_defined p rest s (Hsane _ _ Hfind)) as Hdef.
  destruct (read_value p rest s) as [r s1| |] eqn:Hread; [|discriminate|congruence].
  apply read_value_flag in Hread as [-> _].
  destruct (values s !! _); [discriminate|]. unfold modify. now apply IH.
Qed.

(** With arities that fit, [parse] returns on every command line. *)
Lemma parse_returns argv0 args s :
  sane_arities (options s) -> exists c s', parse argv0 args s = Ret c s'.
Proof.
  intros Hsane. rewrite parse_eq, parse_try_eq.
  pose proof (parse_args_defined args 0 (set_program_name argv0 s) Hsane) as Hloop.
  destruct (parse_args args 0 _) as [ierr s1|e s1|]; [| |congruence].
  2:{ rewrite usage_eq. destruct (0 <? _)%nat; eauto. }
  destruct (ierr =? 0)%Z; [|eauto].
  assert (Hcheck : forall s2,
    (exists s3, check_required (options s2) s2 = Ret tt s3) \/
    (exists e s3, check_required (options s2) s2 = Throw e s3)).
  { intros s2. pose proof (check_required_defined (options s2) s2).
    destruct (check_required _ _) as [[] s3|e s3|]; [eauto | eauto | congruence]. }
  destruct (values s1 !! "load") as [pathname|].
  - rewrite merge_config_eq. pose proof (load_defined pathname s1).
    destruct (load pathname s1) as [loaded s2|e s2|]; [| |congruence].
    + destruct (Hcheck (merged s1 loaded)) as [(s3 & Hret)|(e & s3 & Hthrow)].
      * rewrite Hret. eauto.
      * rewrite Hthrow, usage_eq. destruct (0 <? _)%nat; eauto.
    + rewrite usage_eq. destruct (0 <? _)%nat; eauto.
  - destruct (Hcheck s1) as [(s3 & Hret)|(e & s3 & Hthrow)].
    + rewrite Hret. eauto.
    + rewrite Hthrow, usage_eq. destruct (0 <? _)%nat; eauto.
Qed.

(** ** The error policy of [parse] *)

(** C1.  Whatever exception the [try] block of [parse] runs into, be it a
    malformed token, an unknown option, too few values, an option given
    twice, a configuration file that cannot be loaded or a required option
    left out, [parse] itself does not throw: it hands the message to
    [usage], which writes the listing and the failure report, and it
    returns -1.  When the arities of the registry fit in an [int], [parse]
    does return, on every command line. *)
Theorem parse_catches_every_error (argv0 : string) (args : list string) (s : state) :
  (forall e s', parse argv0 args s <> Throw e s') /\
  (forall e s', parse_try args (set_program_name argv0 s) = Throw e s' ->
     parse argv0 args s = Ret (-1)%Z (reported (what e) s')) /\
  (sane_arities (options s) -> exists c s', parse argv0 args s = Ret c s').
Proof.
  assert (Hcatch : forall e s', parse_try args (set_program_name argv0 s) = Throw e s' ->
     parse argv0 args s = Ret (-1)%Z (reported (what e) s')).
  { intros e s' Htry.
    pose proof (post_Throw _ _ _ _ _ _ (loud_parse_try args _) Htry) as Hmsg.
    unfold parse, bind, modify, try_catch. rewrite Htry.
    now apply usage_with_message. }
  split; [|split; [exact Hcatch | apply parse_returns]].
  intros e s' Hparse.
  destruct (parse_try args (set_program_name argv0 s)) as [c s1|e1 s1|] eqn:Htry.
  - unfold parse, bind, modify, try_catch in Hparse. now rewrite Htry in Hparse.
  - now rewrite (Hcatch e1 s1 eq_refl) in Hparse.
  - unfold parse, bind, modify, try_catch in Hparse. now rewrite Htry in Hparse.
Qed.

Lemma parse_catches_every_error_witness :
  parse "prog" ["--count"; "5"] demo
  = Ret (-1)%Z (reported "optparse::parse: missing argument(s), e.g., range"
                  (set_values {[ "count" := "5" ]} (set_program_name "prog" demo))) /\
  exists c s', parse "prog" ["--range"; "1"] demo = Ret c s'.
Proof.
  split.
  - apply (proj1 (proj2 (parse_catches_every_error "prog" ["--count"; "5"] demo))
             (invalid_argument "optparse::parse: missing argument(s), e.g., range")
             (set_values {[ "count" := "5" ]} (set_program_name "prog" demo))).
    vm_compute. reflexivity.
  - apply (proj2 (proj2 (parse_catches_every_error "prog" ["--range"; "1"] demo))).
    exact demo_sane_arities.
Defined.

(** * Further properties *)

(** ** Registration *)

(** X1.  A name that is registered cannot be registered again: the call
    throws and leaves the object as it was, whatever arity, description and
    default it brings.  On a registry built by the constructor and
    [insert_option] this holds of the two built-in names. *)
Theorem insert_option_never_overwrites (name : string) (n : N) (descr dflt : string)
    (s : state) :
  (is_Some (options_find name (options s)) ->
   insert_option name n descr dflt s = Throw (already_exists name) s) /\
  (registry (options s) -> name = "help" \/ name = "load" ->
   insert_option name n descr dflt s = Throw (already_exists name) s).
Proof.
  assert (Hdup : is_Some (options_find name (options s)) ->
                 insert_option name n descr dflt s = Throw (already_exists name) s).
  { intros [p Hp]. unfold insert_option, insert_option_impl_, bind, gets. now rewrite Hp. }
  split; [exact Hdup|]. intros Hreg Hname. apply Hdup.
  apply registry_builtins in Hreg as [Hhelp Hload].
  destruct Hname as [-> | ->]; eauto.
Qed.

Lemma insert_option_never_overwrites_witness :
  insert_option "count" 3 "again" "7" demo = Throw (already_exists "count") demo /\
  insert_option_boolean "load" store_true EmptyString demo = Throw (already_exists "load") demo.
Proof.
  split.
  - apply (proj1 (insert_option_never_overwrites "count" 3 "again" "7" demo)).
    vm_compute. eexists. reflexivity.
  - apply (proj2 (insert_option_never_overwrites "load" 0 EmptyString "0" demo) demo_registry).
    now right.
Defined.

(** X2.  A call of [insert_option] that returns has made the entry it was
    given, as a user-defined option, under a name that was free; every
    other name is found as before, and nothing but the registry changed. *)
Theorem insert_option_then_find (name : string) (n : N) (descr dflt : string) (s s' : state) :
  insert_option name n descr dflt s = Ret tt s' ->
  options_find name (options s) = None /\
  options_find name (options s') = Some (mk_parameters n dflt descr true) /\
  (forall k, k <> name -> options_find k (options s') = options_find k (options s)) /\
  values s' = values s /\ disk s' = disk s /\ program_name s' = program_name s /\
  clog s' = clog s /\ cerr s' = cerr s.
Proof.
  intros [Hfree ->]%insert_option_inv. simpl. split; [exact Hfree|]. split.
  - rewrite options_find_emplace by exact Hfree. now rewrite bool_decide_eq_true_2.
  - repeat split. intros k Hk. rewrite options_find_emplace by exact Hfree.
    now rewrite bool_decide_eq_false_2 by congruence.
Qed.

Lemma insert_option_then_find_witness :
  options_find "depth" (options (exec (insert_option "depth" 1 "How deep" "3") demo))
  = Some (mk_parameters 1 "3" "How deep" true) /\
  options_find "count" (options (exec (insert_option "depth" 1 "How deep" "3") demo))
  = options_find "count" (options demo).
Proof.
  destruct (insert_option_then_find "depth" 1 "How deep" "3" demo
              (exec (insert_option "depth" 1 "How deep" "3") demo))
    as (_ & Hnew & Hold & _).
  - vm_compute. reflexivity.
  - split; [exact Hnew | apply Hold; discriminate].
Defined.

Lemma ltb_flip a b : String.ltb a b = false -> a <> b -> String.ltb b a = true.
Proof.
  unfold String.ltb. rewrite (String.compare_antisym b a).
  destruct (String.compare a b) eqn:Hc; simpl; try discriminate; try reflexivity.
  apply String.compare_eq_iff in Hc. congruence.
Qed.

Lemma options_emplace_head key p m :
  exists k q m', options_emplace key p m = (k, q) :: m' /\
    (k = key \/ exists m0, m = (k, q) :: m0 /\ String.ltb key k = false).
Proof.
  destruct m as [|[k q] m]; simpl; [eauto 6|].
  destruct (String.ltb key k) eqn:Hlt; [eauto 6|].
  exists k, q, (options_emplace key p m). split; [reflexivity|]. right. eauto.
Qed.

Lemma options_emplace_increasing key p m :
  options_find key m = None -> increasing m.*1 -> increasing (options_emplace key p m).*1.
Proof.
  induction m as [|[k q] m IH]; intros Hfree Hinc; [exact I|].
  cbn [options_find] in Hfree.
  destruct (bool_decide_reflect (k = key)) as [->|Hne]; [discriminate|].
  cbn [options_emplace]. destruct (String.ltb key k) eqn:Hlt.
  - cbn. split; [exact Hlt | exact Hinc].
  - assert (Hk : String.ltb k key = true) by (apply ltb_flip; congruence).
    assert (Htail : increasing m.*1).
    { cbn in Hinc. destruct m; [exact I | apply Hinc]. }
    specialize (IH Hfree Htail).
    destruct (options_emplace_head key p m) as (k1 & q1 & m1 & Heq & Hhead).
    rewrite fmap_cons. cbn [fst]. rewrite Heq in IH |- *. rewrite fmap_cons. cbn [fst].
    cbn [increasing]. rewrite fmap_cons in IH. split; [|exact IH].
    destruct Hhead as [-> | (m0 & -> & _)]; [exact Hk|].
    cbn in Hinc. apply Hinc.
Qed.

(** X3.  The registry is kept in strictly increasing key order, whatever
    the order of the registrations: this is the order in which [usage]
    lists the options, [dump] writes them and [parse] looks for a missing
    one. *)
Theorem registry_increasing (opts : list (string * parameters)) :
  registry opts -> increasing opts.*1.
Proof.
  induction 1 as [d log err s opts Hctor -> | s name n descr dflt s' opts _ IH Hins ->].
  - vm_compute in Hctor. injection Hctor as <-. cbn. split; [reflexivity | exact I].
  - apply insert_option_inv in Hins as [Hfree ->]. simpl.
    now apply options_emplace_increasing.
Qed.

Lemma registry_increasing_witness :
  increasing (options demo).*1 /\
  (options demo).*1 = ["count"; "help"; "load"; "range"; "verbose"].
Proof.
  split; [exact (registry_increasing (options demo) demo_registry)|].
  vm_compute. reflexivity.
Defined.

(** ** What [parse] prints and returns *)

Lemma silent_refl s : silent s s.
Proof. repeat split. Qed.

Lemma silent_trans s1 s2 s3 : silent s1 s2 -> silent s2 s3 -> silent s1 s3.
Proof. intros (?&?&?&?) (?&?&?&?). repeat split; congruence. Qed.

Lemma silent_listed s1 s2 s3 : silent s1 s2 -> listed s2 s3 -> listed s1 s3.
Proof. intros (Hl&He&Hn&Ho) (Hl'&He'). split; congruence. Qed.

Lemma parse_args_prints toks : forall skip s,
  post (parse_args toks skip) s
    (fun c s' => (c = 0%Z /\ silent s s') \/ (c = 1%Z /\ listed s s'))
    (fun _ s' => silent s s').
Proof.
  induction toks as [|tok rest IH]; intros skip s; simpl.
  - apply post_ret. left. split; [reflexivity | apply silent_refl].
  - destruct skip as [|skip']; [|apply IH].
    destruct (strspn_dash tok =? 0)%nat; [apply post_throw, silent_refl|].
    destruct (bool_decide _).
    { unfold post. rewrite usage_eq. simpl. right. repeat split. }
    apply post_bind, post_gets.
    destruct (options_find _ (options s)) as [p|]; [|apply post_throw, silent_refl].
    apply post_bind. unfold post at 1.
    destruct (read_value p rest s) as [r s1|e s1|] eqn:Hread; [| |exact I].
    2:{ rewrite <- (respects_Throw eq _ _ _ _ (respects_eq_read_value p rest) Hread).
        apply silent_refl. }
    apply read_value_flag in Hread as [-> _].
    apply post_bind, post_gets.
    destruct (values s !! _); [apply post_throw, silent_refl|].
    apply post_bind, post_modify.
    eapply post_weaken; [apply IH | |]; cbv beta.
    + intros c s' [[-> Hs]|[-> Hs]]; [left | right]; (split; [reflexivity|]).
      * eapply silent_trans; [|exact Hs]. repeat split.
      * eapply silent_listed; [|exact Hs]. repeat split.
    + intros _ s' Hs. eapply silent_trans; [|exact Hs]. repeat split.
Qed.

(** X4.  [parse] returns 0, 1 or -1 and nothing else.  When it returns 0
    it has printed nothing; when it returns 1 it has written the listing to
    [std::clog] and nothing to [std::cerr]; when it returns -1 it has
    written the listing to [std::clog] and the report of an exception with
    a message to [std::cerr]. *)
Theorem parse_exit_codes (argv0 : string) (args : list string) (s s' : state) (c : Z) :
  parse argv0 args s = Ret c s' ->
  (c = 0%Z /\ clog s' = clog s /\ cerr s' = cerr s) \/
  (c = 1%Z /\ clog s' = clog s ++ usage_text argv0 (options s) /\ cerr s' = cerr s) \/
  (c = (-1)%Z /\ clog s' = clog s ++ usage_text argv0 (options s) /\
   exists e, has_message e /\ cerr s' = cerr s ++ fatal_text (what e)).
Proof.
  intros Hparse.
  assert (Hreport : forall e s1, has_message e -> silent (set_program_name argv0 s) s1 ->
            usage (what e) s1 = Ret c s' ->
            c = (-1)%Z /\ clog s' = clog s ++ usage_text argv0 (options s) /\
            exists e, has_message e /\ cerr s' = cerr s ++ fatal_text (what e)).
  { intros e s1 Hmsg (Hl & He & Hn & Ho) Husage. rewrite usage_eq in Husage.
    unfold has_message in Hmsg. rewrite Hmsg in Husage. injection Husage as <- <-.
    simpl in *. split; [reflexivity|]. split; [congruence|].
    exists e. split; [exact Hmsg | congruence]. }
  pose proof (loud_parse_try args (set_program_name argv0 s)) as Hloud.
  rewrite parse_eq in Hparse. unfold post in Hloud. rewrite parse_try_eq in Hparse, Hloud.
  pose proof (parse_args_prints args 0 (set_program_name argv0 s)) as Hloop.
  unfold post in Hloop.
  destruct (parse_args args 0 _) as [ierr s1|e s1|]; [| |discriminate].
  2:{ right; right. now apply (Hreport e s1). }
  destruct Hloop as [[-> Hs1]|[-> (Hl & He)]].
  2:{ simpl in Hparse. injection Hparse as <- <-. right; left. simpl in *. auto. }
  simpl in Hparse, Hloud.
  destruct (values s1 !! "load") as [pathname|].
  - rewrite merge_config_eq in Hparse, Hloud.
    destruct (load pathname s1) as [loaded s2|e s2|]; [| |discriminate].
    2:{ right; right. now apply (Hreport e s1). }
    assert (Hs2 : silent (set_program_name argv0 s) (merged s1 loaded))
      by (eapply silent_trans; [exact Hs1 | repeat split]).
    pose proof (check_required_state (options (merged s1 loaded)) (merged s1 loaded)) as Hst.
    destruct (check_required _ _) as [[] s3|e s3|]; [| |contradiction]; subst s3.
    + injection Hparse as <- <-. left. destruct Hs2 as (Hl & He & _). simpl in *. auto.
    + right; right. now apply (Hreport e (merged s1 loaded)).
  - pose proof (check_required_state (options s1) s1) as Hst.
    destruct (check_required _ _) as [[] s3|e s3|]; [| |contradiction]; subst s3.
    + injection Hparse as <- <-. left. destruct Hs1 as (Hl & He & _). simpl in *. auto.
    + right; right. now apply (Hreport e s1).
Qed.

Lemma parse_exit_codes_witness :
  clog (exec (parse "prog" ["--range"; "1"; "10"]) demo) = clog demo /\
  cerr (exec (parse "prog" ["--range"; "1"; "10"]) demo) = cerr demo.
Proof.
  destruct (parse_exit_codes "prog" ["--range"; "1"; "10"] demo
              (exec (parse "prog" ["--range"; "1"; "10"]) demo) 0%Z)
    as [(_ & Hlog & Herr)|[(Hc & _)|(Hc & _)]]; [|auto|discriminate..].
  vm_compute. reflexivity.
Defined.

(** ** The first token of the command line *)

(** The token loop at a token that names an option: the dashes are gone
    and the name decides. *)
Lemma parse_args_cons tok rest s :
  strspn_dash tok <> 0%nat ->
  parse_args (tok :: rest) 0 s
  = (if bool_decide (key_of tok = "help") then usage EmptyString
     else
       opts <- gets options;
       match options_find (key_of tok) opts with
       | None => throw (invalid_argument ("optparse::parse: unknow argument: " ++ key_of tok))
       | Some p =>
           r <- read_value p rest;
           vals <- gets values;
           match vals !! key_of tok with
           | Some _ =>
               throw (runtime_error
                 ("optparse::parse: duplicate option passed by command line: " ++ key_of tok))
           | None =>
               _ <- modify (set_values (<[key_of tok := r.1]> vals));
               parse_args rest r.2
           end
       end) s.
Proof.
  intros Hdash. cbn [parse_args]. now rewrite (proj2 (Nat.eqb_neq _ _) Hdash).
Qed.

Lemma parse_throwing argv0 args s e s1 :
  parse_args args 0 (set_program_name argv0 s) = Throw e s1 -> has_message e ->
  parse argv0 args s = Ret (-1)%Z (reported (what e) s1).
Proof.
  intros Hloop Hmsg. rewrite parse_eq, parse_try_eq, Hloop. now apply usage_with_message.
Qed.

(** X5.  A first token that names [help], behind any number of dashes,
    ends the call: the listing goes to [std::clog], the result is 1, the
    value store is untouched and the tokens that follow are not looked at,
    nor is any required option missed. *)
Theorem help_stops_parsing (argv0 tok : string) (rest : list string) (s : state) :
  strspn_dash tok <> 0%nat -> key_of tok = "help" ->
  parse argv0 (tok :: rest) s
  = Ret 1%Z (write_clog (usage_text argv0 (options s)) (set_program_name argv0 s)).
Proof.
  intros Hdash Hkey. rewrite parse_eq, parse_try_eq, parse_args_cons by exact Hdash.
  rewrite Hkey. reflexivity.
Qed.

Lemma help_stops_parsing_witness :
  parse "prog" ["-help"; "no dash"; "--bogus"] demo
  = Ret 1%Z (write_clog (usage_text "prog" (options demo)) (set_program_name "prog" demo)).
Proof.
  apply help_stops_parsing; [vm_compute; discriminate | vm_compute; reflexivity].
Defined.

(** X6.  A first token without a dash, or one that names no registered
    option, makes [parse] return -1 with the matching report and with the
    value store as it was. *)
Theorem first_token_rejected (argv0 tok : string) (rest : list string) (s : state) :
  (strspn_dash tok = 0%nat ->
   parse argv0 (tok :: rest) s
   = Ret (-1)%Z
       (reported "optparse::parse: argument options must start with a single/double dash"
          (set_program_name argv0 s))) /\
  (strspn_dash tok <> 0%nat -> key_of tok <> "help" ->
   options_find (key_of tok) (options s) = None ->
   parse argv0 (tok :: rest) s
   = Ret (-1)%Z
       (reported ("optparse::parse: unknow argument: " ++ key_of tok)
          (set_program_name argv0 s))).
Proof.
  split.
  - intros Hdash.
    apply (parse_throwing argv0 (tok :: rest) s (invalid_argument _)); [|reflexivity].
    cbn [parse_args]. now rewrite Hdash.
  - intros Hdash Hhelp Hfind.
    apply (parse_throwing argv0 (tok :: rest) s (invalid_argument _)); [|reflexivity].
    rewrite parse_args_cons by exact Hdash.
    rewrite bool_decide_eq_false_2 by exact Hhelp.
    unfold bind, gets. cbn [options values set_program_name]. now rewrite Hfind.
Qed.

Lemma first_token_rejected_witness :
  values (exec (parse "prog" ["count"; "5"]) demo) = values demo /\
  parse "prog" ["--bogus"; "--range"; "1"; "10"] demo
  = Ret (-1)%Z (reported "optparse::parse: unknow argument: bogus"
                  (set_program_name "prog" demo)).
Proof.
  split.
  - unfold exec.
    rewrite (proj1 (first_token_rejected "prog" "count" ["5"] demo)) by reflexivity.
    reflexivity.
  - apply (proj2 (first_token_rejected "prog" "--bogus" ["--range"; "1"; "10"] demo)).
    + vm_compute. discriminate.
    + vm_compute. discriminate.
    + vm_compute. reflexivity.
Defined.

(** ** A token anywhere on the command line *)

(** The loop got through [pre] and throws at what follows: [parse]
    reports what was thrown, from the state the loop had reached. *)
Lemma parse_throwing_after argv0 pre rest s s1 e s2 :
  parse_args pre 0 (set_program_name argv0 s) = Ret 0%Z s1 ->
  parse_args rest 0 s1 = Throw e s2 -> has_message e ->
  parse argv0 (pre ++ rest) s = Ret (-1)%Z (reported (what e) s2).
Proof.
  intros Hpre Hrest Hmsg. apply parse_throwing; [|exact Hmsg].
  rewrite (parse_args_app pre rest 0 _ s1) by (lia || exact Hpre). exact Hrest.
Qed.

Lemma parse_args_options toks skip s c s1 :
  parse_args toks skip s = Ret c s1 -> options s1 = options s.
Proof.
  intros Hrun. pose proof (parse_args_frame toks skip s) as Hgrows.
  rewrite Hrun in Hgrows. exact (proj1 Hgrows).
Qed.

(** X7.  An option of arity [k > 0] followed by fewer than [k] tokens,
    wherever it stands on the command line (the loop having got through
    the tokens before it), makes [parse] return -1 with the report of too
    few values; nothing is stored for it: the store is the one the loop
    had reached before the option. *)
Theorem too_few_values (argv0 tok : string) (pre rest : list string) (s s1 : state)
    (p : parameters) :
  parse_args pre 0 (set_program_name argv0 s) = Ret 0%Z s1 ->
  strspn_dash tok <> 0%nat -> key_of tok <> "help" ->
  options_find (key_of tok) (options s) = Some p ->
  (0 < nargs p < 2147483647)%N ->
  (N.of_nat (length rest) < nargs p)%N ->
  parse argv0 (pre ++ tok :: rest) s
  = Ret (-1)%Z
      (reported "optparse::parse: insufficient number of argument values" s1) /\
  values (reported "optparse::parse: insufficient number of argument values" s1) = values s1.
Proof.
  intros Hpre Hdash Hhelp Hfind Hn Hfew. split; [|reflexivity].
  apply (parse_throwing_after argv0 pre (tok :: rest) s s1 (runtime_error _) s1 Hpre);
    [|reflexivity].
  rewrite parse_args_cons by exact Hdash.
  rewrite bool_decide_eq_false_2 by exact Hhelp.
  unfold bind, gets. rewrite (parse_args_options _ _ _ _ _ Hpre).
  cbn [options set_program_name]. rewrite Hfind. unfold read_value.
  replace (nargs p =? 0)%N with false by (symmetry; apply N.eqb_neq; lia).
  rewrite to_int_small by lia.
  replace (Z.of_N (nargs p) =? Mach.INT_MAX)%Z with false
    by (symmetry; apply Z.eqb_neq; unfold Mach.INT_MAX; lia).
  replace (Z.of_nat (S (length rest)) <? Z.of_N (nargs p) + 1)%Z with true
    by (symmetry; apply Z.ltb_lt; lia).
  reflexivity.
Qed.

Lemma too_few_values_witness :
  parse "prog" ["--verbose"; "--count"; "3"; "--range"; "1"] demo
  = Ret (-1)%Z
      (reported "optparse::parse: insufficient number of argument values"
         (exec (parse_args ["--verbose"; "--count"; "3"] 0) (set_program_name "prog" demo))).
Proof.
  apply (too_few_values "prog" "--range" ["--verbose"; "--count"; "3"] ["1"] demo
           (exec (parse_args ["--verbose"; "--count"; "3"] 0) (set_program_name "prog" demo))
           (mk_parameters 2 EmptyString "Lower and upper bound" true)).
  - vm_compute. reflexivity.
  - vm_compute. discriminate.
  - vm_compute. discriminate.
  - vm_compute. reflexivity.
  - simpl. lia.
  - simpl. lia.
Defined.

Lemma read_value_enough p rest s :
  (nargs p < 2147483647)%N -> (nargs p <= N.of_nat (length rest))%N ->
  exists r, read_value p rest s = Ret r s.
Proof.
  intros Hn Hlen. unfold read_value.
  destruct (nargs p =? 0)%N eqn:H0; [eauto|]. apply N.eqb_neq in H0.
  rewrite to_int_small by lia.
  replace (Z.of_N (nargs p) =? Mach.INT_MAX)%Z with false
    by (symmetry; apply Z.eqb_neq; unfold Mach.INT_MAX; lia).
  replace (Z.of_nat (S (length rest)) <? Z.of_N (nargs p) + 1)%Z with false
    by (symmetry; apply Z.ltb_ge; lia).
  destruct rest as [|v rest]; [simpl in Hlen; lia|].
  destruct (Z.to_nat (Z.max 1 (Z.of_N (nargs p)))) eqn:Hcnt; [lia|]. simpl. eauto.
Qed.

(** X8.  An option that already has an entry in the value store cannot be
    given on the command line: wherever its token stands (the loop having
    got through the tokens before it), with its values in place, [parse]
    returns -1 with the duplicate report and the store is the one the loop
    had reached, in which an entry from before the call has kept its value.
    The entry is there when an earlier [parse] on the same object left it,
    and (the arities being below [INT_MAX]) when the option, flag or not,
    is given a second time: an earlier token that the loop read as an
    option name names it too. *)
Theorem stored_option_given_again (argv0 tok : string) (pre rest : list string)
    (s s1 : state) (p : parameters) :
  parse_args pre 0 (set_program_name argv0 s) = Ret 0%Z s1 ->
  strspn_dash tok <> 0%nat -> key_of tok <> "help" ->
  options_find (key_of tok) (options s) = Some p ->
  (nargs p < 2147483647)%N -> (nargs p <= N.of_nat (length rest))%N ->
  is_Some (values s !! key_of tok) \/
    (sane_arities (options s) /\
     exists tok', tok' ∈ option_tokens (options s) pre 0 /\ key_of tok' = key_of tok) ->
  parse argv0 (pre ++ tok :: rest) s
  = Ret (-1)%Z
      (reported ("optparse::parse: duplicate option passed by command line: " ++ key_of tok)
         s1) /\
  (forall old, values s !! key_of tok = Some old -> values s1 !! key_of tok = Some old).
Proof.
  intros Hpre Hdash Hhelp Hfind Hn Hlen Hgiven.
  pose proof (parse_args_frame pre 0 (set_program_name argv0 s)) as Hgrows.
  rewrite Hpre in Hgrows. destruct Hgrows as (Hopts & _ & Hsub).
  cbn [options values set_program_name] in Hopts, Hsub.
  assert (Hkept : forall old, values s !! key_of tok = Some old ->
                              values s1 !! key_of tok = Some old).
  { intros old Hold. eapply lookup_weaken; [exact Hold | exact Hsub]. }
  split; [|exact Hkept].
  assert (Hstored : is_Some (values s1 !! key_of tok)).
  { destruct Hgiven as [[old Hold]|(Hsane & tok' & Htok' & <-)]; [eauto|].
    exact (parse_args_stores pre 0 (set_program_name argv0 s) s1 Hsane Hpre tok' Htok'). }
  destruct Hstored as [v Hv].
  apply (parse_throwing_after argv0 pre (tok :: rest) s s1 (runtime_error _) s1 Hpre);
    [|reflexivity].
  rewrite parse_args_cons by exact Hdash.
  rewrite bool_decide_eq_false_2 by exact Hhelp.
  unfold bind, gets. rewrite Hopts, Hfind.
  destruct (read_value_enough p rest s1 Hn Hlen) as [r ->].
  now rewrite Hv.
Qed.

Lemma stored_option_given_again_witness :
  parse "prog" ["--verbose"; "--range"; "1"; "10"; "--verbose"] demo
  = Ret (-1)%Z
      (reported "optparse::parse: duplicate option passed by command line: verbose"
         (exec (parse_args ["--verbose"; "--range"; "1"; "10"] 0)
               (set_program_name "prog" demo))).
Proof.
  apply (stored_option_given_again "prog" "--verbose" ["--verbose"; "--range"; "1"; "10"] []
           demo
           (exec (parse_args ["--verbose"; "--range"; "1"; "10"] 0)
                 (set_program_name "prog" demo))
           (mk_parameters 0 "0" EmptyString true)).
  - vm_compute. reflexivity.
  - vm_compute. discriminate.
  - vm_compute. discriminate.
  - vm_compute. reflexivity.
  - simpl. lia.
  - simpl. lia.
  - right. split; [exact demo_sane_arities|].
    exists "--verbose". split; [vm_compute; constructor | reflexivity].
Defined.

Lemma strspn_dashed n name : strspn_dash (dashed n name) = (n + strspn_dash name)%nat.
Proof. induction n as [|n IH]; [reflexivity|]. cbn [dashed]. simpl. now rewrite IH. Qed.

Lemma key_of_dashed n name : key_of (dashed n name) = key_of name.
Proof.
  unfold key_of. rewrite strspn_dashed.
  induction n as [|n IH]; [reflexivity|]. exact IH.
Qed.

(** X9.  The number of dashes in front of an option name does not
    matter, as long as there is one: wherever the loop reads an option
    name (it has got through the tokens before it), [-name], [--name] and
    [---name] make [parse] end with the same result and the same state. *)
Theorem dash_count_is_irrelevant (argv0 name : string) (n m : nat) (pre rest : list string)
    (s s1 : state) :
  parse_args pre 0 (set_program_name argv0 s) = Ret 0%Z s1 ->
  (0 < n)%nat -> (0 < m)%nat ->
  parse argv0 (pre ++ dashed n name :: rest) s = parse argv0 (pre ++ dashed m name :: rest) s.
Proof.
  intros Hpre Hn Hm. rewrite !parse_eq, !parse_try_eq.
  rewrite !(parse_args_app pre _ 0 _ s1) by (lia || exact Hpre).
  rewrite !parse_args_cons by (rewrite strspn_dashed; lia).
  now rewrite !key_of_dashed.
Qed.

Lemma dash_count_is_irrelevant_witness :
  parse "prog" ["-verbose"; "---range"; "1"; "2"] demo
  = parse "prog" ["-verbose"; "-range"; "1"; "2"] demo.
Proof.
  apply (dash_count_is_irrelevant "prog" "range" 3 1 ["-verbose"] ["1"; "2"] demo
           (exec (parse_args ["-verbose"] 0) (set_program_name "prog" demo))).
  - vm_compute. reflexivity.
  - lia.
  - lia.
Defined.

(** ** The completeness check *)

Lemma length_zero d : (String.length d =? 0)%nat = true <-> d = EmptyString.
Proof. destruct d; simpl; split; (reflexivity || discriminate). Qed.

Lemma check_required_cases opts s :
  (check_required opts s = Ret tt s /\
   forall k p, (k, p) ∈ opts -> ~ lacking s k p) \/
  (exists k p, (k, p) ∈ opts /\ lacking s k p /\
               check_required opts s = Throw (missing_argument k) s).
Proof.
  induction opts as [|[name p] opts IH]; simpl.
  - left. split; [reflexivity|]. intros k q Hin. now apply elem_of_nil in Hin.
  - assert (Hrest : forall (Hhere : ~ lacking s name p),
      (check_required opts s = Ret tt s /\
       forall k q, (k, q) ∈ (name, p) :: opts -> ~ lacking s k q) \/
      (exists k q, (k, q) ∈ (name, p) :: opts /\ lacking s k q /\
                   check_required opts s = Throw (missing_argument k) s)).
    { intros Hhere. destruct IH as [[Hret Hall]|(k & q & Hin & Hlack & Hthrow)].
      - left. split; [exact Hret|]. intros k q [[= -> ->]|Hin]%elem_of_cons; auto.
      - right. exists k, q. split; [apply elem_of_cons; now right | auto]. }
    destruct (bool_decide_reflect (name = "load")) as [->|Hload]; simpl.
    { apply Hrest. intros (H & _). congruence. }
    destruct (bool_decide_reflect (name = "help")) as [->|Hhelp]; simpl.
    { apply Hrest. intros (_ & H & _). congruence. }
    unfold bind, gets. destruct (values s !! name) as [v|] eqn:Hv.
    { apply Hrest. intros (_ & _ & H & _). congruence. }
    destruct (String.length (default_value p) =? 0)%nat eqn:Hd.
    + right. exists name, p. apply length_zero in Hd.
      split; [apply elem_of_cons; now left|]. split; [now repeat split | reflexivity].
    + apply Hrest. intros (_ & _ & _ & H). apply length_zero in H. congruence.
Qed.

(** X10.  After a [parse] that returned 0, every registered option other
    than [help] and [load] has a value in the store or a default that is
    not empty, so that [retrieve] has a string to convert for it: it does
    not throw the no-argument exception. *)
Theorem parsed_options_are_retrievable (argv0 : string) (args : list string) (s s' : state)
    (name : string) (p : parameters) :
  parse argv0 args s = Ret 0%Z s' ->
  options_find name (options s') = Some p -> name <> "load" -> name <> "help" ->
  (is_Some (values s' !! name) \/ default_value p <> EmptyString) /\
  forall (T : Type) (HT : Extractable T) (n : N),
    short_value s' name ->
    exists argument, field_read s' n name = Some argument /\
                     retrieve T n name s' = convert T argument s'.
Proof.
  intros Hparse Hfind Hload Hhelp.
  apply parse_success in Hparse as (s1 & _ & _ & Hcheck).
  assert (Hhas : is_Some (values s' !! name) \/ default_value p <> EmptyString).
  { destruct (check_required_cases (options s') s') as [[_ Hall]|(k & q & _ & _ & Hthrow)];
      [|congruence].
    specialize (Hall name p (options_find_Some _ _ _ Hfind)).
    destruct (values s' !! name) as [v|] eqn:Hv; [left; eauto|].
    right. intros Hd. apply Hall. now repeat split. }
  split; [exact Hhas|]. intros T HT n Hshort.
  assert (Hfield : is_Some (field_read s' n name)).
  { unfold field_read. destruct Hhas as [[v ->]|Hd]; [eauto|].
    destruct (values s' !! name); [eauto|]. rewrite Hfind.
    destruct (default_value p) as [|c d]; [congruence|]. simpl. eauto. }
  destruct Hfield as [argument Hfield]. exists argument. split; [exact Hfield|].
  now rewrite retrieve_eq, Hfield by exact Hshort.
Qed.

Lemma parsed_options_are_retrievable_witness :
  (is_Some (values (exec (parse "prog" ["--range"; "1"; "10"]) demo) !! "count") \/
   "1" <> EmptyString) /\
  exists argument,
    field_read (exec (parse "prog" ["--range"; "1"; "10"]) demo) 0 "count" = Some argument /\
    retrieve cpp_int 0 "count" (exec (parse "prog" ["--range"; "1"; "10"]) demo)
    = convert cpp_int argument (exec (parse "prog" ["--range"; "1"; "10"]) demo).
Proof.
  destruct (parsed_options_are_retrievable "prog" ["--range"; "1"; "10"] demo
              (exec (parse "prog" ["--range"; "1"; "10"]) demo) "count"
              (mk_parameters 1 "1" "How many" true)) as [Hhas Hret].
  - vm_compute. reflexivity.
  - vm_compute. reflexivity.
  - discriminate.
  - discriminate.
  - split; [exact Hhas|]. apply (Hret cpp_int _ 0%N). split.
    + intros raw Hraw. vm_compute in Hraw. discriminate.
    + intros q Hq. vm_compute in Hq. injection Hq as <-. vm_compute. reflexivity.
Defined.

(** X11.  When the token loop has ended without [help] and without an
    entry [load], and some option other than those two has neither a value
    nor a default, [parse] returns -1: the report names an option that is
    missing, and the store is the one the loop ended with. *)
Theorem missing_option_reported (argv0 : string) (args : list string) (s s1 : state)
    (name : string) (p : parameters) :
  parse_args args 0 (set_program_name argv0 s) = Ret 0%Z s1 ->
  values s1 !! "load" = None ->
  (name, p) ∈ options s1 -> lacking s1 name p ->
  exists k q, (k, q) ∈ options s1 /\ lacking s1 k q /\
    parse argv0 args s = Ret (-1)%Z (reported (what (missing_argument k)) s1).
Proof.
  intros Hloop Hload Hin Hlack.
  destruct (check_required_cases (options s1) s1) as [[_ Hall]|(k & q & Hk & Hq & Hthrow)].
  { now destruct (Hall name p Hin). }
  exists k, q. split; [exact Hk|]. split; [exact Hq|].
  rewrite parse_eq, parse_try_eq, Hloop. simpl. rewrite Hload, Hthrow.
  now apply usage_with_message.
Qed.

Lemma missing_option_reported_witness :
  exists k q, (k, q) ∈ options (set_values {[ "count" := "5" ]} (set_program_name "prog" demo)) /\
    lacking (set_values {[ "count" := "5" ]} (set_program_name "prog" demo)) k q /\
    parse "prog" ["--count"; "5"] demo
    = Ret (-1)%Z (reported (what (missing_argument k))
                    (set_values {[ "count" := "5" ]} (set_program_name "prog" demo))).
Proof.
  apply (missing_option_reported "prog" ["--count"; "5"] demo
           (set_values {[ "count" := "5" ]} (set_program_name "prog" demo))
           "range" (mk_parameters 2 EmptyString "Lower and upper bound" true)).
  - vm_compute. reflexivity.
  - vm_compute. reflexivity.
  - vm_compute. do 3 (apply elem_of_cons; right). apply elem_of_cons. now left.
  - repeat split; try discriminate; vm_compute; reflexivity.
Defined.

(** ** The configuration step of [parse] *)

(** X12.  When the file named by [--load] cannot be loaded (it cannot be
    opened, names an unregistered option or names one twice), [parse]
    returns -1 with the report of [load]'s exception; nothing was merged
    and, the [erase] not being reached, the entry [load] is still in the
    store. *)
Theorem failed_load_keeps_the_entry (argv0 : string) (args : list string) (s s1 s2 : state)
    (pathname : string) (e : exn) :
  parse_args args 0 (set_program_name argv0 s) = Ret 0%Z s1 ->
  values s1 !! "load" = Some pathname ->
  load pathname s1 = Throw e s2 ->
  parse argv0 args s = Ret (-1)%Z (reported (what e) s1) /\
  values (reported (what e) s1) = values s1 /\
  values (reported (what e) s1) !! "load" = Some pathname.
Proof.
  intros Hloop Hload Hfile.
  pose proof (post_Throw _ _ _ _ _ _ (loud_load pathname s1) Hfile) as Hmsg.
  split; [|split; [reflexivity | exact Hload]].
  rewrite parse_eq, parse_try_eq, Hloop. simpl.
  rewrite Hload, merge_config_eq, Hfile. now apply usage_with_message.
Qed.

Lemma failed_load_keeps_the_entry_witness :
  parse "prog" ["--range"; "1"; "2"; "--load"; "nowhere"] demo
  = Ret (-1)%Z (reported (what (open_failed "nowhere"))
                  (exec (parse_args ["--range"; "1"; "2"; "--load"; "nowhere"] 0)
                     (set_program_name "prog" demo))) /\
  values (exec (parse "prog" ["--range"; "1"; "2"; "--load"; "nowhere"]) demo) !! "load"
  = Some "nowhere".
Proof.
  destruct (failed_load_keeps_the_entry "prog" ["--range"; "1"; "2"; "--load"; "nowhere"] demo
              (exec (parse_args ["--range"; "1"; "2"; "--load"; "nowhere"] 0)
                 (set_program_name "prog" demo))
              (exec (parse_args ["--range"; "1"; "2"; "--load"; "nowhere"] 0)
                 (set_program_name "prog" demo))
              "nowhere" (open_failed "nowhere")) as (Hparse & _ & Hload).
  - vm_compute. reflexivity.
  - vm_compute. reflexivity.
  - vm_compute. reflexivity.
  - split; [exact Hparse|]. unfold exec at 1. rewrite Hparse. exact Hload.
Defined.

Lemma load_line_registered raw acc s acc' s' :
  load_line raw acc s = Ret acc' s' ->
  forall k, is_Some (acc' !! k) ->
            is_Some (acc !! k) \/ is_Some (options_find k (options s)).
Proof.
  unfold load_line.
  destruct (remove_if isspace raw) as [|c line]; [intros [= <- _]; auto|].
  destruct (bool_decide _); [intros [= <- _]; auto|].
  unfold bind, substr_or_throw, gets.
  destruct (substr _ 0 _) as [key|]; [|discriminate]. simpl.
  destruct (substr _ _ _) as [value|]; [|discriminate]. simpl.
  destruct (options_find key (options s)) eqn:Hfind; [|discriminate].
  destruct (acc !! key); [discriminate|].
  intros [= <- _] k Hk. destruct (decide (key = k)) as [<-|Hne]; [right; eauto|].
  left. now rewrite lookup_insert_ne in Hk.
Qed.

Lemma load_lines_registered ls : forall acc s loaded s',
  load_lines ls acc s = Ret loaded s' ->
  forall k, is_Some (loaded !! k) ->
            is_Some (acc !! k) \/ is_Some (options_find k (options s)).
Proof.
  induction ls as [|l ls IH]; simpl; intros acc s loaded s'.
  - intros [= <- _]. auto.
  - unfold bind. destruct (load_line l acc s) as [acc1 s1| |] eqn:Hl; [|discriminate..].
    pose proof (load_line_grows _ _ _ _ _ Hl) as [-> _].
    intros Hrest k Hk. destruct (IH _ _ _ _ Hrest k Hk) as [Hacc1|?]; [|now right].
    exact (load_line_registered _ _ _ _ _ Hl k Hacc1).
Qed.

(** Every key of a mapping [load] returns is a registered option. *)
Lemma load_registered pathname s loaded s' :
  load pathname s = Ret loaded s' ->
  forall k, is_Some (loaded !! k) -> is_Some (options_find k (options s)).
Proof.
  unfold load, bind, gets. destruct (open_read _ _); [|discriminate].
  intros Hlines k Hk.
  destruct (load_lines_registered _ _ _ _ _ Hlines k Hk) as [Hempty|?]; [|assumption].
  rewrite lookup_empty in Hempty. now destruct Hempty.
Qed.

(** X13.  [parse] never stores a value under a name that is not
    registered: if every name in the store is a registered option before
    the call, as on a new object, so it is after the call, whether the
    values came from the command line or from the configuration file. *)
Theorem store_names_stay_registered (argv0 : string) (args : list string) (s s' : state)
    (c : Z) :
  store_registered s ->
  parse argv0 args s = Ret c s' ->
  store_registered s'.
Proof.
  intros Hreg Hparse k Hk.
  pose proof (respects_Ret keeps _ _ _ _ (respects_keeps_parse argv0 args) Hparse)
    as (Hopts & _ & _).
  pose proof (exec_parse_args_provenance args 0 (set_program_name argv0 s)) as Hprov.
  pose proof (exec_parse_args_grows args 0 (set_program_name argv0 s)) as (Ho1 & _ & _).
  set (s1 := exec (parse_args args 0) (set_program_name argv0 s)) in *.
  rewrite Hopts.
  assert (Hloop : is_Some (values s1 !! k) -> is_Some (options_find k (options s))).
  { intros [v Hv]. destruct (Hprov k v Hv) as [Hold|(tok & p & _ & _ & Hp & _)].
    - apply Hreg. simpl in Hold. eauto.
    - simpl in Hp. eauto. }
  destruct (parse_store _ _ _ _ _ Hparse) as [Heq|(pathname & loaded & _ & Hfile & Heq)];
    fold s1 in Heq; rewrite Heq in Hk; [now apply Hloop|].
  fold s1 in Hfile. destruct Hk as [v Hv].
  apply lookup_delete_Some in Hv as [_ Hv].
  apply lookup_union_Some_raw in Hv as [Hv|[_ Hv]]; [apply Hloop; eauto|].
  pose proof (load_registered _ _ _ _ Hfile k (ex_intro _ v Hv)) as Hk.
  now rewrite Ho1 in Hk.
Qed.

Lemma store_names_stay_registered_witness :
  store_registered (exec (parse "prog" ["--range"; "1"; "10"; "--load"; "cfg"]) demo).
Proof.
  apply (store_names_stay_registered "prog" ["--range"; "1"; "10"; "--load"; "cfg"] demo _ 0%Z).
  - intros k [v Hv]. vm_compute in Hv. discriminate.
  - vm_compute. reflexivity.
Defined.



(** ** The exceptions of [load] and of [retrieve] *)

Lemma find_go_range c s i from :
  find_go c s i from = Mach.npos \/
  (i <= find_go c s i from < i + size s)%N.
Proof.
  revert i. induction s as [|a s IH]; intros i; simpl; [now left|].
  destruct (_ && _)%bool.
  - right. unfold size. simpl. lia.
  - destruct (IH (i + 1)%N) as [->|H]; [now left|]. right.
    unfold size in *. simpl String.length. lia.
Qed.

Lemma find_range c s from :
  find c s from = Mach.npos \/ (find c s from < size s)%N.
Proof.
  unfold find. destruct (find_go_range c s 0 from) as [->|H]; [now left | right; lia].
Qed.

Lemma substr_defined s pos len : (pos <= size s)%N -> is_Some (substr s pos len).
Proof.
  intros Hpos. unfold substr.
  replace (size s <? pos)%N with false by (symmetry; apply N.ltb_ge; lia). eauto.
Qed.

Lemma wrap_size_le z : (0 <= z)%Z -> (Z.of_N (Mach.wrap_size z) <= z)%Z.
Proof.
  intros Hz. unfold Mach.wrap_size.
  pose proof (Z.mod_pos_bound z 18446744073709551616 eq_refl).
  rewrite Z2N.id by lia. apply Z.mod_le; lia.
Qed.

Lemma after_found_le p sz :
  p = Mach.npos \/ (p < sz)%N -> (Mach.wrap_size (Z.of_N p + 1) <= sz)%N.
Proof.
  intros [-> | Hp]; [vm_compute; destruct sz; discriminate|].
  pose proof (wrap_size_le (Z.of_N p + 1)). lia.
Qed.

Lemma load_line_throws raw acc s e s' :
  load_line raw acc s = Throw e s' ->
  s' = s /\ exists key, e = unexpected_option key \/ e = duplicate_in_file key.
Proof.
  unfold load_line.
  destruct (remove_if isspace raw) as [|c line]; [discriminate|].
  destruct (bool_decide _); [discriminate|].
  set (whole := String c line).
  unfold bind, substr_or_throw, gets.
  destruct (substr_defined whole 0 (find ":"%char whole 0)) as [key ->]; [lia|]. simpl.
  destruct (substr_defined whole (Mach.wrap_size (Z.of_N (find ":"%char whole 0) + 1))
              Mach.npos) as [value ->]; [apply after_found_le, find_range|]. simpl.
  destruct (options_find key (options s)).
  - destruct (acc !! key); [|discriminate]. intros [= <- <-]. split; eauto.
  - intros [= <- <-]. split; eauto.
Qed.

Lemma load_lines_throws ls : forall acc s e s',
  load_lines ls acc s = Throw e s' ->
  s' = s /\ exists key, e = unexpected_option key \/ e = duplicate_in_file key.
Proof.
  induction ls as [|l ls IH]; simpl; intros acc s e s'; [discriminate|].
  unfold bind. destruct (load_line l acc s) as [acc1 s1|e1 s1|] eqn:Hl; [| |discriminate].
  - apply load_line_grows in Hl as [-> _]. apply IH.
  - intros [= <- <-]. now apply load_line_throws in Hl.
Qed.

(** X15.  [load] changes nothing, and it throws in three cases only: the
    file cannot be opened, a line names an option that is not registered,
    or a line names an option that an earlier line named.  In particular it
    never throws [std::out_of_range] from its calls of [substr]. *)
Theorem load_throws_three_errors (pathname : string) (s : state) :
  match load pathname s with
  | Ret _ s' => s' = s
  | Throw e s' =>
      s' = s /\
      ((open_read (disk s) pathname = None /\ e = open_failed pathname) \/
       exists data key, open_read (disk s) pathname = Some data /\
                        (e = unexpected_option key \/ e = duplicate_in_file key))
  | Undefined => False
  end.
Proof.
  pose proof (load_defined pathname s) as Hdef.
  destruct (load pathname s) as [loaded s'|e s'|] eqn:Hload; [| |congruence].
  - now apply load_state in Hload.
  - unfold load, bind, gets in Hload.
    destruct (open_read (disk s) pathname) as [data|] eqn:Hopen.
    + apply load_lines_throws in Hload as [-> [key Hkey]]. split; [reflexivity|].
      right. now exists data, key.
    + injection Hload as <- <-. split; [reflexivity | left; now split].
Qed.

Lemma split_loop_never_throws fuel : forall s pos i start end_ σ,
  (start <= size s)%N -> end_ = Mach.npos \/ (end_ < size s)%N ->
  match split_loop fuel s pos i start end_ σ with
  | Ret _ σ' => σ' = σ
  | Throw _ _ => False
  | Undefined => True
  end.
Proof.
  induction fuel as [|fuel IH]; intros s pos i start end_ σ Hstart Hend; [exact I|].
  cbn [split_loop].
  assert (Hsub : forall len, match substr_or_throw s start len σ with
                             | Ret _ σ' => σ' = σ
                             | Throw _ _ => False
                             | Undefined => True
                             end).
  { intros len. unfold substr_or_throw.
    now destruct (substr_defined s start len Hstart) as [r ->]. }
  destruct (end_ =? Mach.npos)%N eqn:Hnpos; [apply Hsub|].
  destruct (i =? pos)%Z; [apply Hsub|].
  destruct (i =? Mach.INT_MAX)%Z; [exact I|].
  apply N.eqb_neq in Hnpos. destruct Hend as [?|Hend]; [congruence|].
  apply IH; [|apply find_range].
  unfold Mach.to_unsigned.
  pose proof (wrap_size_le (Z.of_N end_ + 1)).
  pose proof (N.Div0.mod_le (Mach.wrap_size (Z.of_N end_ + 1)) 4294967296). lia.
Qed.

Lemma split_never_throws s pos σ :
  match split s pos σ with
  | Ret _ σ' => σ' = σ
  | Throw _ _ => False
  | Undefined => True
  end.
Proof. unfold split. apply split_loop_never_throws; [lia | apply find_range]. Qed.

Lemma convert_result (T : Type) `{Extractable T} argument s :
  match convert T argument s with
  | Ret _ s' => s' = s
  | Throw e s' => s' = s /\ e = conversion_error T argument
  | Undefined => False
  end.
Proof. unfold convert. destruct (extract argument); simpl; auto. Qed.

(** X16.  [retrieve] changes nothing, whatever the length of the strings,
    and it throws in two cases only: there is neither a stored value nor a
    default that is not empty (the no-argument exception), or the
    conversion of the selected field fails (the conversion exception).  In
    particular no index, in range or not, makes it throw
    [std::out_of_range]. *)
Theorem retrieve_throws_two_errors (T : Type) `{Extractable T} (n : N) (name : string)
    (s : state) :
  match retrieve T n name s with
  | Ret _ s' => s' = s
  | Throw e s' =>
      s' = s /\
      ((values s !! name = None /\ e = no_argument name) \/
       exists argument, e = conversion_error T argument)
  | Undefined => True
  end.
Proof.
  assert (Hconv : forall raw pos,
    match bind (split raw pos) (fun argument => convert T argument) s with
    | Ret _ s' => s' = s
    | Throw e s' => s' = s /\ exists argument, e = conversion_error T argument
    | Undefined => True
    end).
  { intros raw pos. unfold bind. pose proof (split_never_throws raw pos s) as Hsplit.
    destruct (split raw pos s) as [argument σ| |]; [subst σ|contradiction|exact I].
    pose proof (convert_result T argument s) as Hc.
    destruct (convert T argument s) as [v s'|e s'|]; [exact Hc| |contradiction].
    destruct Hc as [-> ->]. eauto. }
  unfold retrieve. unfold bind at 1. unfold gets at 1.
  destruct (values s !! name) as [raw|] eqn:Hv.
  { specialize (Hconv raw (Mach.to_int n)).
    destruct (bind _ _ s); auto. destruct Hconv as [-> ?]. auto. }
  unfold bind at 1. unfold gets at 1.
  destruct (options_find name (options s)) as [p|]; [|simpl; auto].
  destruct (0 <? String.length (default_value p))%nat; [|simpl; auto].
  destruct (nargs p =? 0)%N.
  - unfold bind, ret.
    pose proof (convert_result T
      (to_string_bool (negb (bool_decide (default_value p = "0")))) s) as Hc.
    destruct (convert T _ s) as [v s'|e s'|]; [exact Hc| |contradiction].
    destruct Hc as [-> ->]. eauto.
  - specialize (Hconv (default_value p) (Mach.to_int n)).
    destruct (bind _ _ s); auto. destruct Hconv as [-> ?]. auto.
Qed.

(** ** Lines of data in a configuration file *)

(** X17.  A line of the file is cut at its first colon, after all its
    white space is removed: what stands before is the key, what stands
    after is the value, later colons included.  A key that is registered
    and new is stored with that value; one that is not registered, or not
    new, makes [load] throw. *)
Theorem load_line_cuts_at_first_colon (raw k v : string) (acc : gmap string string)
    (s : state) :
  remove_if isspace raw = k ++ String ":"%char v ->
  first_index ":"%char k = None ->
  (forall t, k <> String "#"%char t) ->
  (size (k ++ String ":"%char v) < Mach.npos)%N ->
  load_line raw acc s
  = match options_find k (options s) with
    | None => Throw (unexpected_option k) s
    | Some _ =>
        match acc !! k with
        | Some _ => Throw (duplicate_in_file k) s
        | None => Ret (<[k := v]> acc) s
        end
    end.
Proof.
  intros Hstrip Hcolon Hhash Hsize.
  rewrite load_line_data; rewrite Hstrip.
  2:{ destruct k; discriminate. }
  2:{ intros t Ht. destruct k as [|c k]; [discriminate|]. rewrite app_cons in Ht.
      injection Ht as -> _. now destruct (Hhash k). }
  assert (Hk : String.length (k ++ String ":"%char v) = S (String.length k + String.length v)).
  { rewrite length_app. simpl. lia. }
  unfold size, Mach.npos in Hsize. unfold load_data.
  change 0%N with (N.of_nat 0). rewrite find_spec by lia. simpl drop.
  rewrite (first_index_app _ _ _ Hcolon). simpl Nat.add.
  unfold bind, substr_or_throw, gets.
  rewrite substr_spec by lia. simpl drop.
  replace (N.to_nat (N.min _ _)) with (String.length k) by lia.
  rewrite take_app. simpl.
  replace (Mach.wrap_size (Z.of_N (N.of_nat (String.length k)) + 1))
    with (N.of_nat (S (String.length k))).
  2:{ unfold Mach.wrap_size. rewrite Z.mod_small by lia. lia. }
  rewrite substr_spec by lia.
  assert (Hdrop : drop (S (String.length k)) (k ++ String ":"%char v) = v).
  { replace (S (String.length k)) with (String.length (k ++ ":"))
      by (rewrite length_app; simpl; lia).
    replace (k ++ String ":"%char v) with ((k ++ ":") ++ v) by (now rewrite app_assoc).
    apply drop_app. }
  rewrite Hdrop, take_all by (unfold Mach.npos; lia).
  simpl. destruct (options_find k (options s)); [|reflexivity].
  destruct (acc !! k); reflexivity.
Qed.

Lemma load_line_cuts_at_first_colon_witness :
  load_line " range : 1:30 , 2:45 " ∅ demo = Ret {[ "range" := "1:30,2:45" ]} demo.
Proof.
  rewrite (load_line_cuts_at_first_colon " range : 1:30 , 2:45 " "range" "1:30,2:45" ∅ demo).
  - vm_compute. reflexivity.
  - vm_compute. reflexivity.
  - vm_compute. reflexivity.
  - intros t. discriminate.
  - vm_compute. reflexivity.
Defined.

(** ** What [dump] changes *)

(** X18.  [dump] on a path that cannot be opened throws and changes
    nothing.  A [dump] that returns has changed nothing but the file at its
    path: the other files, the registry and the value store are as before,
    and what the file held (nothing, if it did not exist) is still there,
    in front of what was added. *)
Theorem dump_touches_one_file (stamp : option string) (pathname : string) (s : state) :
  (disk s !! pathname = Some Denied ->
   dump stamp pathname s = Throw (open_failed pathname) s) /\
  (forall s', dump stamp pathname s = Ret tt s' ->
     (forall other, other <> pathname -> disk s' !! other = disk s !! other) /\
     options s' = options s /\ values s' = values s /\
     program_name s' = program_name s /\ clog s' = clog s /\ cerr s' = cerr s /\
     exists old added,
       open_append (disk s) pathname = Some old /\
       disk s' !! pathname = Some (Regular (old ++ added))).
Proof.
  split.
  - intros Hdenied. unfold dump, bind, gets, open_append. now rewrite Hdenied.
  - intros s' Hdump. unfold dump, bind, gets, modify in Hdump.
    destruct (open_append (disk s) pathname) as [old|]; [|discriminate].
    injection Hdump as <-. simpl. split.
    + intros other Hne. now rewrite lookup_insert_ne by congruence.
    + repeat split. eexists old, _. split; [reflexivity|]. apply lookup_insert_eq.
Qed.

Lemma dump_touches_one_file_witness :
  dump demo_stamp "locked" (set_disk (<["locked" := Denied]> (disk demo)) demo)
  = Throw (open_failed "locked") (set_disk (<["locked" := Denied]> (disk demo)) demo) /\
  disk (exec (dump demo_stamp "cfg") demo) !! "flags" = disk demo !! "flags".
Proof.
  split.
  - apply (proj1 (dump_touches_one_file demo_stamp "locked"
                    (set_disk (<["locked" := Denied]> (disk demo)) demo))).
    vm_compute. reflexivity.
  - refine (proj1 (proj2 (dump_touches_one_file demo_stamp "cfg" demo)
                     (exec (dump demo_stamp "cfg") demo) _) "flags" _).
    + vm_compute. reflexivity.
    + discriminate.
Defined.

(** ** The columns of the listing *)

Lemma length_spaces n : String.length (spaces n) = n.
Proof. induction n as [|n IH]; simpl; [reflexivity | now rewrite IH]. Qed.

Lemma length_setw_right w t :
  (Z.of_nat (String.length t) <= w)%Z -> Z.of_nat (String.length (setw_right w t)) = w.
Proof. intros Hw. unfold setw_right. rewrite length_app, length_spaces. lia. Qed.

(** X19.  In the listing, the description of an option with at most two
    values and a name of at most 14 characters starts in column 35, after
    34 characters of name, placeholders and padding; with three values
    the padding cannot shrink further and the description starts one
    column later. *)
Theorem usage_line_columns (key : string) (p : parameters) :
  (nargs p <= 3)%N -> (String.length key <= 14)%nat ->
  exists prefix,
    usage_line key p = prefix ++ shown_description p ++ nl /\
    String.length prefix = if (nargs p <=? 2)%N then 34%nat else 35%nat.
Proof.
  intros Hn Hkey.
  exists (setw_right 16 ("--" ++ key)
          ++ repeat_string (Z.to_nat (Mach.to_int (nargs p))) " <arg>"
          ++ setw_right (Mach.to_int (Mach.wrap_size (18 - 6 * Z.of_N (nargs p)))) " ").
  split; [unfold usage_line, shown_description; now rewrite !app_assoc|].
  assert (Hname : String.length (setw_right 16 ("--" ++ key)) = 16%nat).
  { apply Nat2Z.inj. rewrite length_setw_right; [reflexivity|].
    rewrite length_app. simpl. lia. }
  rewrite length_app, Hname, length_app.
  assert (Hcases : nargs p = 0%N \/ nargs p = 1%N \/ nargs p = 2%N \/ nargs p = 3%N) by lia.
  destruct Hcases as [-> |[-> |[-> | ->]]]; reflexivity.
Qed.

Lemma usage_line_columns_witness :
  exists prefix,
    usage_line "range" (mk_parameters 2 EmptyString "Lower and upper bound" true)
    = prefix ++ "Lower and upper bound" ++ nl /\
    String.length prefix = 34%nat.
Proof.
  apply (usage_line_columns "range" (mk_parameters 2 EmptyString "Lower and upper bound" true)).
  - simpl. lia.
  - simpl. lia.
Defined.

(** ** From the command line to [retrieve] *)

Lemma parse_args_skip (vs rest : list string) (s : state) :
  parse_args (vs ++ rest) (length vs) s = parse_args rest 0 s.
Proof. induction vs as [|v vs IH]; [reflexivity | exact IH]. Qed.

Lemma read_value_exact p v vs rest s :
  nargs p = N.of_nat (S (length vs)) -> (Z.of_nat (S (length vs)) < 2147483647)%Z ->
  read_value p ((v :: vs) ++ rest) s = Ret (join_values v vs, S (length vs)) s.
Proof.
  intros Hn Hlen. unfold read_value. rewrite Hn.
  replace (N.of_nat (S (length vs)) =? 0)%N with false by (symmetry; apply N.eqb_neq; lia).
  rewrite to_int_small by lia.
  replace (Z.of_N (N.of_nat (S (length vs))) =? Mach.INT_MAX)%Z with false
    by (symmetry; apply Z.eqb_neq; unfold Mach.INT_MAX; lia).
  replace (Z.of_nat (S (length ((v :: vs) ++ rest))) <? Z.of_N (N.of_nat (S (length vs))) + 1)%Z
    with false
    by (symmetry; apply Z.ltb_ge; rewrite List.length_app; simpl; lia).
  replace (Z.to_nat (Z.max 1 (Z.of_N (N.of_nat (S (length vs)))))) with (S (length vs)) by lia.
  simpl. rewrite List.firstn_app, Nat.sub_diag, List.firstn_all. simpl.
  now rewrite List.app_nil_r.
Qed.

(** X20.  An option of arity [k >= 1] that has no entry yet takes the [k]
    tokens that follow it, whatever they look like, and stores them joined
    by a comma and a space; [parse] then goes on with the rest of the
    command line exactly as if it had been called on that rest with the
    value already stored. *)
Theorem option_takes_its_values (argv0 tok v : string) (vs rest : list string)
    (p : parameters) (s : state) :
  strspn_dash tok <> 0%nat -> key_of tok <> "help" ->
  options_find (key_of tok) (options s) = Some p ->
  nargs p = N.of_nat (S (length vs)) -> (Z.of_nat (S (length vs)) < 2147483647)%Z ->
  values s !! key_of tok = None ->
  parse argv0 (tok :: (v :: vs) ++ rest) s
  = parse argv0 rest (set_values (<[key_of tok := join_values v vs]> (values s)) s).
Proof.
  intros Hdash Hhelp Hfind Hn Hlen Hnew.
  rewrite !parse_eq, !parse_try_eq. rewrite parse_args_cons by exact Hdash.
  rewrite bool_decide_eq_false_2 by exact Hhelp.
  unfold bind at 1, gets at 1. cbn [options set_program_name]. rewrite Hfind.
  unfold bind at 1. rewrite (read_value_exact p v vs rest _ Hn Hlen).
  unfold bind at 1, gets at 1. cbn [values set_program_name]. rewrite Hnew.
  unfold bind at 1, modify at 1. cbn [fst snd].
  change (v :: vs) with ([v] ++ vs)%list.
  replace (S (length vs)) with (length ([v] ++ vs)%list) by reflexivity.
  rewrite parse_args_skip. reflexivity.
Qed.

Lemma option_takes_its_values_witness :
  parse "prog" ["--range"; "-5"; "--help"; "--count"; "3"] demo
  = parse "prog" ["--count"; "3"] (set_values (<["range" := "-5, --help"]> (values demo)) demo).
Proof.
  apply (option_takes_its_values "prog" "--range" "-5" ["--help"] ["--count"; "3"]
           (mk_parameters 2 EmptyString "Lower and upper bound" true) demo).
  - vm_compute. discriminate.
  - vm_compute. discriminate.
  - vm_compute. reflexivity.
  - vm_compute. reflexivity.
  - simpl. lia.
  - vm_compute. reflexivity.
Defined.

Lemma fields_app_comma a b : fields (a ++ String ","%char b) = (fields a ++ fields b)%list.
Proof.
  induction a as [|c a IH]; [reflexivity|].
  rewrite app_cons. cbn [fields]. rewrite IH.
  destruct (bool_decide (c = ","%char)); [reflexivity|].
  destruct (fields a) as [|f fs] eqn:Hf; [now destruct (fields_nonempty a)|reflexivity].
Qed.

Lemma fields_join_values (vs : list string) : forall v,
  Forall comma_free vs ->
  fields (join_values v vs) = (fields v ++ map (String " "%char) vs)%list.
Proof.
  induction vs as [|w vs IH]; intros v Hvs.
  - simpl. now rewrite List.app_nil_r.
  - inversion Hvs as [|? ? Hw Hrest]; subst.
    change (join_values v (w :: vs)) with (join_values (v ++ String ","%char (String " "%char w)) vs).
    rewrite IH by exact Hrest. rewrite fields_app_comma.
    rewrite (fields_no_comma (String " "%char w)).
    + now rewrite <- List.app_assoc.
    + cbn [first_index]. rewrite bool_decide_eq_false_2 by discriminate.
      unfold comma_free in Hw. now rewrite Hw.
Qed.

Lemma last_nth (fs : list string) :
  List.last fs EmptyString = nth (length fs - 1) fs EmptyString.
Proof.
  induction fs as [|f fs IH]; [reflexivity|].
  destruct fs as [|g fs]; [reflexivity|].
  change (List.last (f :: g :: fs) EmptyString) with (List.last (g :: fs) EmptyString).
  rewrite IH. simpl. now rewrite Nat.sub_0_r.
Qed.

Lemma pick_nth (fs : list string) (i : nat) :
  (i < length fs)%nat -> pick fs (Z.of_nat i) = nth i fs EmptyString.
Proof.
  intros Hi. unfold pick.
  destruct (Z.leb_spec 0 (Z.of_nat i)); [|lia].
  destruct (Z.ltb_spec (Z.of_nat i) (Z.of_nat (length fs) - 1)); simpl.
  - now rewrite Nat2Z.id.
  - rewrite last_nth. f_equal. lia.
Qed.

Lemma nth_spaced (vs : list string) (i : nat) :
  (i < length vs)%nat ->
  nth i (map (String " "%char) vs) EmptyString = String " "%char (nth i vs EmptyString).
Proof.
  intros Hi.
  rewrite (nth_indep _ EmptyString (String " "%char EmptyString))
    by (now rewrite List.length_map).
  apply map_nth.
Qed.

(** X21.  Values that hold no comma come back one by one: after the [k]
    values of an option were stored, [retrieve<T, i>] converts the first
    value as it was given and every later one behind the space the joining
    put in front of it.  The three conversions skip that space, so they
    read every value as if it were handed to them alone. *)
Theorem retrieve_reads_the_ith_value (T : Type) `{Extractable T} (name v : string)
    (vs : list string) (i : nat) (s : state) :
  values s !! name = Some (join_values v vs) ->
  comma_free v -> Forall comma_free vs ->
  (Z.of_nat (String.length (join_values v vs)) < 2147483648)%Z ->
  (i <= length vs)%nat -> (Z.of_nat i < 2147483648)%Z ->
  retrieve T (N.of_nat i) name s
  = convert T (nth i (v :: map (String " "%char) vs) EmptyString) s /\
  Stream.extract_int (nth i (v :: map (String " "%char) vs) EmptyString)
  = Stream.extract_int (nth i (v :: vs) EmptyString) /\
  Stream.extract_bool (nth i (v :: map (String " "%char) vs) EmptyString)
  = Stream.extract_bool (nth i (v :: vs) EmptyString) /\
  Stream.extract_string (nth i (v :: map (String " "%char) vs) EmptyString)
  = Stream.extract_string (nth i (v :: vs) EmptyString).
Proof.
  intros Hraw Hv Hvs Hlen Hi Hsmall. split.
  - unfold retrieve, bind, gets. rewrite Hraw.
    rewrite split_fields by exact Hlen.
    rewrite to_int_small by lia. rewrite N2Z.inj_iff || idtac.
    replace (Z.of_N (N.of_nat i)) with (Z.of_nat i) by lia.
    rewrite fields_join_values by exact Hvs. rewrite (fields_no_comma v Hv).
    rewrite pick_nth; [reflexivity|]. simpl. rewrite List.length_map. lia.
  - destruct i as [|i]; [repeat split|].
    cbn [nth]. rewrite nth_spaced by lia. repeat split.
Qed.

Lemma retrieve_reads_the_ith_value_witness :
  retrieve cpp_int (N.of_nat 1) "range" (exec (parse "prog" ["--range"; "-5"; "12"]) demo)
  = Ret 12%Z (exec (parse "prog" ["--range"; "-5"; "12"]) demo).
Proof.
  rewrite (proj1 (retrieve_reads_the_ith_value cpp_int "range" "-5" ["12"] 1
                    (exec (parse "prog" ["--range"; "-5"; "12"]) demo)
                    ltac:(vm_compute; reflexivity) ltac:(vm_compute; reflexivity)
                    ltac:(repeat constructor) ltac:(vm_compute; reflexivity)
                    ltac:(simpl; lia) ltac:(lia))).
  vm_compute. reflexivity.
Defined.

(** X22.  [retrieve<T, U>] reads the first two comma-separated fields of
    the stored value, the first as a [T] and the second as a [U].  When
    one of them does not convert it throws the conversion exception of
    that one; when neither converts, the exception is that of the field
    whose [retrieve] the compiler evaluates first, which the language
    leaves open.  A value without a comma has one field only, and both
    components are read from it. *)
Theorem retrieve_pair_reads_two_fields (order : eval_order) (T U : Type)
    `{Extractable T} `{Extractable U} (name raw : string) (s : state) :
  values s !! name = Some raw ->
  (Z.of_nat (String.length raw) < 2147483648)%Z ->
  retrieve_pair order T U name s
  = match extract (T := T) (pick (fields raw) 0), extract (T := U) (pick (fields raw) 1) with
    | Some a, Some b => Ret (a, b) s
    | None, Some _ => Throw (conversion_error T (pick (fields raw) 0)) s
    | Some _, None => Throw (conversion_error U (pick (fields raw) 1)) s
    | None, None =>
        Throw (match order with
               | first_then_second => conversion_error T (pick (fields raw) 0)
               | second_then_first => conversion_error U (pick (fields raw) 1)
               end) s
    end /\
  (comma_free raw -> pick (fields raw) 0 = raw /\ pick (fields raw) 1 = raw).
Proof.
  intros Hraw Hlen. split.
  - assert (Hfirst : retrieve T 0 name s = convert T (pick (fields raw) 0) s).
    { unfold retrieve, bind, gets. rewrite Hraw. now rewrite split_fields by exact Hlen. }
    assert (Hsecond : retrieve U 1 name s = convert U (pick (fields raw) 1) s).
    { unfold retrieve, bind, gets. rewrite Hraw. now rewrite split_fields by exact Hlen. }
    unfold convert in Hfirst, Hsecond.
    destruct order; unfold retrieve_pair, bind.
    + rewrite Hfirst. destruct (extract (pick (fields raw) 0)) as [a|].
      * cbn [ret]. rewrite Hsecond. destruct (extract (pick (fields raw) 1)); reflexivity.
      * destruct (extract (pick (fields raw) 1)); reflexivity.
    + rewrite Hsecond. destruct (extract (pick (fields raw) 1)) as [b|].
      * cbn [ret]. rewrite Hfirst. destruct (extract (pick (fields raw) 0)); reflexivity.
      * destruct (extract (pick (fields raw) 0)); reflexivity.
  - intros Hfree. rewrite (fields_no_comma raw Hfree). now rewrite !pick_single.
Qed.

Lemma retrieve_pair_reads_two_fields_witness :
  retrieve_pair second_then_first cpp_int cpp_int "range"
    (exec (parse "prog" ["--range"; "a"; "b"]) demo)
  = Throw (conversion_error cpp_int " b") (exec (parse "prog" ["--range"; "a"; "b"]) demo) /\
  retrieve_pair first_then_second cpp_int cpp_int "range"
    (exec (parse "prog" ["--range"; "a"; "b"]) demo)
  = Throw (conversion_error cpp_int "a") (exec (parse "prog" ["--range"; "a"; "b"]) demo).
Proof.
  split.
  - rewrite (proj1 (retrieve_pair_reads_two_fields second_then_first cpp_int cpp_int
                      "range" "a, b" (exec (parse "prog" ["--range"; "a"; "b"]) demo)
                      ltac:(vm_compute; reflexivity) ltac:(vm_compute; reflexivity))).
    vm_compute. reflexivity.
  - rewrite (proj1 (retrieve_pair_reads_two_fields first_then_second cpp_int cpp_int
                      "range" "a, b" (exec (parse "prog" ["--range"; "a"; "b"]) demo)
                      ltac:(vm_compute; reflexivity) ltac:(vm_compute; reflexivity))).
    vm_compute. reflexivity.
Defined.

(** ** Comments and blank lines *)

Lemma getlines_after_nl p rest :
  getlines (p ++ nl ++ rest) = (getlines (p ++ nl) ++ getlines rest)%list.
Proof.
  induction p as [|a p IH]; [reflexivity|].
  rewrite !app_cons. cbn [getlines]. rewrite IH.
  destruct (bool_decide (a = "010"%char)); [reflexivity|].
  destruct (getlines (p ++ nl)) as [|l ls] eqn:Hp; [|reflexivity].
  apply getlines_nil in Hp. destruct p; discriminate.
Qed.

(** X23.  A line that is blank, or whose first character other than white
    space is [#], does not count: a file with such a line loads exactly as
    the file without it, whether that is a mapping or an exception. *)
Theorem skipped_line_is_ignored (noted plain pre line post : string) (s : state) :
  open_read (disk s) noted = Some (pre ++ line ++ nl ++ post) ->
  open_read (disk s) plain = Some (pre ++ post) ->
  pre = EmptyString \/ (exists p, pre = p ++ nl) ->
  skipped line -> first_index "010"%char line = None ->
  load noted s = load plain s.
Proof.
  intros Hnoted Hplain Hpre Hskip Hline.
  rewrite (load_eq _ _ _ Hnoted), (load_eq _ _ _ Hplain).
  assert (Hlines : getlines (pre ++ line ++ nl ++ post)
                   = (getlines pre ++ line :: getlines post)%list /\
                   getlines (pre ++ post) = (getlines pre ++ getlines post)%list).
  { destruct Hpre as [-> | [p ->]].
    - rewrite !app_nil_l. split; [now apply getlines_line | reflexivity].
    - rewrite !app_assoc.
      rewrite (getlines_after_nl p (line ++ nl ++ post)), (getlines_after_nl p post).
      now rewrite (getlines_line _ _ Hline). }
  destruct Hlines as [-> ->]. rewrite !load_lines_app.
  destruct (load_lines (getlines pre) ∅ s) as [acc s'| |]; [|reflexivity..].
  simpl. unfold bind. now rewrite (load_line_skipped _ _ _ Hskip).
Qed.

Lemma skipped_line_is_ignored_witness :
  load "flags" (set_disk (<["bare" := Regular (" verbose " ++ nl)]> (disk demo)) demo)
  = load "bare" (set_disk (<["bare" := Regular (" verbose " ++ nl)]> (disk demo)) demo).
Proof.
  apply (skipped_line_is_ignored "flags" "bare" EmptyString "# switches" (" verbose " ++ nl)).
  - vm_compute. reflexivity.
  - vm_compute. reflexivity.
  - left. reflexivity.
  - right. exists "switches". vm_compute. reflexivity.
  - vm_compute. reflexivity.
Defined.
